(** * pyshgp: program trees, genetic operators and the reproduction scheduler

    A shallow embedding of [pyshgp/push/atoms.py] (the Push program tree)
    and of [pyshgp/gp/operators.py] (alternation, the mutations,
    [produce_child] and [genetics]), with the properties the specification
    states about them.

    Python integers are [Z], strings are [string], and a [dict] is a
    [gmap].  A Python float is the rational [Q] it stands for; the product
    of two floats is rounded to binary64 as the interpreter rounds it
    ([float_mul]), since [round] is applied to such products. *)

From Stdlib Require Import ZArith QArith Qround Qpower Lia Bool.
From Stdlib Require Import List String Ascii.
From stdpp Require Import gmap strings list fin_maps.
From Equations Require Import Equations.
Import ListNotations.

Local Open Scope Z_scope.

(** ** Python values *)

(** The values a gene or a literal can carry.  [type(const) == ...] in
    [constant_mutator] tells the first four apart; [bool] is its own type
    there, since [type(True) == int] is false. *)
Unset Elimination Schemes.

Inductive pyval : Type :=
| PyFloat (x : Q)
| PyInt (n : Z)
| PyStr (s : string)
| PyBool (b : bool)
| PyNone
| PyInstruction (name : string)
| PyList (items : list pyval).

Set Elimination Schemes.

(** [sum] of a list of integers. *)
Definition sum (l : list Z) : Z := fold_right Z.add 0 l.

(** ** Atoms ([pyshgp/push/atoms.py]) *)

Module Atoms.

(** Modelled from the spec: [pyshgp.push.types.PushType] is imported by
    [atoms.py] but is not part of the sources; a literal is "a constant
    value tagged with its semantic type". *)
Inductive PushType : Type :=
| PushInt | PushFloat | PushBool | PushStr | PushChar.

Unset Elimination Schemes.

Inductive Atom : Type :=
| Closer
| Literal (value : pyval) (push_type : PushType)
| InstructionMeta (name : string) (code_blocks : Z)
| Input (input_index : Z)
| CodeBlock (elements : list Atom).

Set Elimination Schemes.

(** Induction with the hypothesis available for every element of a block. *)
Definition Atom_ind (P : Atom -> Prop)
    (HCloser : P Closer)
    (HLiteral : forall v t, P (Literal v t))
    (HInstr : forall n c, P (InstructionMeta n c))
    (HInput : forall k, P (Input k))
    (HBlock : forall els, Forall P els -> P (CodeBlock els)) : forall a, P a :=
  fix go (a : Atom) : P a :=
    match a with
    | Closer => HCloser
    | Literal v t => HLiteral v t
    | InstructionMeta n c => HInstr n c
    | Input k => HInput k
    | CodeBlock els =>
        HBlock els
          ((fix all (l : list Atom) : Forall P l :=
              match l with
              | [] => @List.Forall_nil Atom P
              | x :: r => @List.Forall_cons Atom P x r (go x) (all r)
              end) els)
    end.

(** [isinstance(el, CodeBlock)] *)
Definition is_CodeBlock (el : Atom) : bool :=
  match el with CodeBlock _ => true | _ => false end.

(** The term [el.size(depth + 1) + 1 if isinstance(el, CodeBlock) else 1]
    that [CodeBlock.size] sums over the elements of the block. *)
Fixpoint size_term (depth : Z) (el : Atom) {struct el} : Z :=
  match el with
  | CodeBlock els => sum (List.map (size_term (depth + 1)) els) + 1
  | _ => 1
  end.

(** [CodeBlock.size(self, depth=1)]; [self] is given by its elements. *)
Definition size_at (self : list Atom) (depth : Z) : Z :=
  sum (List.map (size_term depth) self).

Definition size (self : list Atom) : Z := size_at self 1.

(** [CodeBlock.code_at_point(self, ndx)].  The outer function is the method
    body on the receiver [self]; the inner [for_el] is its [for el in self]
    loop, carrying the running index [i].  Falling off the loop returns
    [None].  The method exists on code blocks only: the last branch is for
    receivers the source never has. *)
Fixpoint code_at_point_rec (self : Atom) (ndx : Z) {struct self} : option Atom :=
  if ndx =? 0 then Some self
  else
    match self with
    | CodeBlock els =>
        (fix for_el (l : list Atom) (i : Z) {struct l} : option Atom :=
           match l with
           | [] => None
           | el :: rest =>
               let i := i - 1 in
               if i =? 0 then Some el
               else
                 match el with
                 | CodeBlock c =>
                     match code_at_point_rec el i with
                     | Some next_depth => Some next_depth
                     | None => for_el rest (i - size c)
                     end
                 | _ => for_el rest i
                 end
           end) els ndx
    | _ => None
    end.

Definition code_at_point (self : list Atom) (ndx : Z) : option Atom :=
  code_at_point_rec (CodeBlock self) ndx.

(** The loop of [code_at_point] on its own, for the proofs. *)
Fixpoint code_at_point_loop (l : list Atom) (i : Z) {struct l} : option Atom :=
  match l with
  | [] => None
  | el :: rest =>
      let i := i - 1 in
      if i =? 0 then Some el
      else
        match el with
        | CodeBlock c =>
            match code_at_point_rec el i with
            | Some next_depth => Some next_depth
            | None => code_at_point_loop rest (i - size c)
            end
        | _ => code_at_point_loop rest i
        end
  end.

(** [isinstance(s, Sequence) and not isinstance(s, str)]: among atoms only
    a [CodeBlock] (a persistent vector) is a sequence. *)
Definition is_Sequence (s : Atom) : bool := is_CodeBlock s.

(** Iterating over an atom that passed [is_Sequence]. *)
Definition iter (s : Atom) : list Atom :=
  match s with CodeBlock els => els | _ => [] end.

(** [chain.from_iterable(s for s in i if is_Sequence(s))] *)
Definition chain_from_iterable (i : list Atom) : list Atom :=
  List.flat_map iter (List.filter is_Sequence i).

Fixpoint weight (a : Atom) : nat :=
  match a with
  | CodeBlock els => S (list_sum (List.map weight els))
  | _ => 1%nat
  end.

Definition weights (l : list Atom) : nat := list_sum (List.map weight l).

(** The loop [for level in count(): ...] of [CodeBlock.depth]: [i] is the
    iterator over the atoms at nesting level [level].  [next(i)] raises
    [StopIteration] when there is none left, and the handler returns
    [level]; otherwise the iterator is replaced by the chained elements of
    the sequences among them. *)
Equations? depth_loop (level : Z) (i : list Atom) : Z by wf (weights i) lt :=
  depth_loop level [] := level;
  depth_loop level (x :: i') := depth_loop (level + 1) (chain_from_iterable (x :: i')).
Proof.
  assert (H : forall l, (weights (chain_from_iterable l) + length l <= weights l)%nat).
  { unfold chain_from_iterable, weights.
    induction l as [|a l IH]; simpl; [lia|].
    destruct a; simpl; try lia.
    rewrite List.map_app, list_sum_app. lia. }
  specialize (H (x :: i')). simpl length in H. lia.
Qed.

(** [CodeBlock.depth(self)] *)
Definition depth (self : list Atom) : Z := depth_loop 0 self.

(** [CodeBlock._attempt_code_insert(self, code, index)]: the pair of the
    flag and the elements of the new block.  The inner [for_el] is the loop
    [for idx, el in enumerate(self)] with the running index [i]; the code
    after the loop appends when [i] has come down to 0.  As for
    [code_at_point_rec], the last branch is for receivers the source never
    has. *)
Fixpoint _attempt_code_insert (self : Atom) (code : Atom) (index : Z)
    {struct self} : bool * list Atom :=
  match self with
  | CodeBlock els =>
      (fix for_el (idx : nat) (l : list Atom) (i : Z) {struct l}
           : bool * list Atom :=
         match l with
         | [] => if i =? 0 then (true, els ++ [code]) else (false, els)
         | el :: rest =>
             if i =? 0 then (true, firstn idx els ++ [code] ++ skipn idx els)
             else
               match el with
               | CodeBlock c =>
                   let (inserted, new) := _attempt_code_insert el code (i - 1) in
                   if inserted then (true, <[idx := CodeBlock new]> els)
                   else for_el (S idx) rest (i - (size c + 1) - 1)
               | _ => for_el (S idx) rest (i - 1)
               end
         end) O els index
  | _ => (false, [])
  end.

(** The loop of [_attempt_code_insert] on its own, for the proofs: [els]
    are the elements of the receiver and [l] those from position [idx]
    on. *)
Definition attempt_code_insert_loop (els : list Atom) (code : Atom)
    : nat -> list Atom -> Z -> bool * list Atom :=
  fix for_el (idx : nat) (l : list Atom) (i : Z) {struct l} : bool * list Atom :=
    match l with
    | [] => if i =? 0 then (true, els ++ [code]) else (false, els)
    | el :: rest =>
        if i =? 0 then (true, firstn idx els ++ [code] ++ skipn idx els)
        else
          match el with
          | CodeBlock c =>
              let (inserted, new) := _attempt_code_insert el code (i - 1) in
              if inserted then (true, <[idx := CodeBlock new]> els)
              else for_el (S idx) rest (i - (size c + 1) - 1)
          | _ => for_el (S idx) rest (i - 1)
          end
    end.

(** [CodeBlock.with_code_inserted_at_point(self, code, index)] *)
Definition with_code_inserted_at_point (self : list Atom) (code : Atom)
    (index : Z) : list Atom :=
  if size self <? index then self ++ [code]
  else snd (_attempt_code_insert (CodeBlock self) code index).

(** The points of an atom in depth-first order: the atom itself, then the
    points of its elements, one element after the other. *)
Fixpoint points (a : Atom) : list Atom :=
  a :: match a with
       | CodeBlock els => List.flat_map points els
       | _ => []
       end.

(** The nesting depth of an atom, by recursion on the tree: 0 for a leaf
    and for the empty block, and otherwise one more than the deepest
    element. *)
Fixpoint nesting (a : Atom) : Z :=
  match a with
  | CodeBlock els =>
      match els with
      | [] => 0
      | _ :: _ => 1 + fold_right Z.max 0 (List.map nesting els)
      end
  | _ => 0
  end.

(** The deepest nesting among the elements of a block. *)
Definition max_nesting (l : list Atom) : Z :=
  fold_right Z.max 0 (List.map nesting l).

(** An element stands for as many points as [size] counts for it. *)
Definition size_of_element (el : Atom) : Z :=
  match el with CodeBlock c => size c + 1 | _ => 1 end.

(** The loop of [code_at_point] reads the depth-first traversal of the
    elements, the first of them at index 1. *)
Definition loop_reads_points (l : list Atom) : Prop :=
  forall i,
    code_at_point_loop l i
    = if 0 <? i then nth_error (List.flat_map points l) (Z.to_nat (i - 1))
      else None.

(** What an insertion that succeeds returns: a block one element, with all
    that is nested in it, larger, in which [code] is a point. *)
Definition inserted_into (code : Atom) (els new : list Atom) : Prop :=
  size new = size els + size_of_element code
  /\ In code (List.flat_map points new).

(** The outcome of an attempt at a non-negative index: when it succeeds,
    [code] has been inserted; and it succeeds for every index up to the
    size of what is left to visit. *)
Definition attempt_ok (code : Atom) (els l : list Atom) (i : Z)
    (r : bool * list Atom) : Prop :=
  (fst r = true -> inserted_into code els (snd r))
  /\ (i <= size l -> fst r = true).

(** The indices the loop of [code_at_point] finds a point for: those from
    1 to the size of the block. *)
Definition loop_in_range (l : list Atom) : Prop :=
  forall i,
    (0 < i <= size l -> is_Some (code_at_point_loop l i))
    /\ (i <= 0 \/ size l < i -> code_at_point_loop l i = None).

(** The tree of the genome [[Gene(lit=5, closes=0), Gene(instr="add",
    closes=1)]]: a block of the two leaves [Literal(5)] and the reference
    to ["add"]. *)
Definition literal_5_add : list Atom :=
  [Literal (PyInt 5) PushInt; InstructionMeta "add" 0].

End Atoms.

(** ** Numbers and strings of the Python runtime *)

(** [x < y] on floats. *)
Definition Qltb (x y : Q) : bool :=
  match (x ?= y)%Q with Lt => true | _ => false end.

(** [round(x)] of a float, an integer in Python 3: the nearest one, ties to
    the even one. *)
Definition py_round (x : Q) : Z :=
  let f := Qfloor x in
  match ((x - inject_Z f) ?= 1 # 2)%Q with
  | Lt => f
  | Gt => f + 1
  | Eq => if Z.even f then f else f + 1
  end.

(** [int(x)] of a float: truncation towards zero. *)
Definition py_int (x : Q) : Z :=
  if Qltb x 0 then Qceiling x else Qfloor x.

(** The exponent [e] of the last binary digit a float keeps of [x <> 0]:
    53 digits from the leading one, [2 ^ (e + 52) <= |x| < 2 ^ (e + 53)],
    and never below the smallest exponent of binary64, -1074. *)
Definition binary64_exponent (x : Q) : Z :=
  let n := Z.abs (Qnum x) in
  let k := Z.log2 n - Z.log2 (Z.pos (Qden x)) in
  let lg := if Qle_bool (2 ^ k) (n # Qden x) then k else k - 1 in
  Z.max (lg - 52) (-1074).

(** The float nearest to [x], ties to the even one: what a decimal
    literal, [float(n)] of an integer and the result of an arithmetic
    operation are rounded to.  A value beyond the range of binary64, which
    the interpreter turns into [inf], keeps its 53 digits here. *)
Definition round_binary64 (x : Q) : Q :=
  match Qnum x with
  | 0 => 0%Q
  | _ =>
      let e := binary64_exponent x in
      (inject_Z (py_round (x / 2 ^ e)) * 2 ^ e)%Q
  end.

(** [x * y] on floats, and on a float and an integer. *)
Definition float_mul (x y : Q) : Q :=
  round_binary64 (round_binary64 x * round_binary64 y).

(** [range(n)] *)
Definition py_range (n : Z) : list Z :=
  List.map Z.of_nat (seq 0 (Z.to_nat n)).

(** [l[i]] on a list: negative indices count from the end, and an index
    out of range has no value ([IndexError]). *)
Definition py_index {A : Type} (l : list A) (i : Z) : option A :=
  let n := Z.of_nat (length l) in
  if (0 <=? i) && (i <? n) then nth_error l (Z.to_nat i)
  else if (- n <=? i) && (i <? 0) then nth_error l (Z.to_nat (n + i))
  else None.

(** Does [s] start with [p]? *)
Fixpoint startswith (p s : string) : bool :=
  match p, s with
  | EmptyString, _ => true
  | String a p', String b s' => Ascii.eqb a b && startswith p' s'
  | String _ _, EmptyString => false
  end.

Definition string_rev_of (l : list ascii) : string :=
  string_of_list_ascii (List.rev l).

(** [s.split(sep)] for a non-empty separator: a left-to-right scan for
    non-overlapping occurrences of [sep].  [skip] counts the characters of
    an occurrence still to be passed over and [cur] holds the characters
    of the current piece, last one first. *)
Fixpoint split_scan (sep s : string) (skip : nat) (cur : list ascii) : list string :=
  match s with
  | EmptyString => [string_rev_of cur]
  | String c s' =>
      match skip with
      | S k => split_scan sep s' k cur
      | O =>
          if startswith sep s
          then string_rev_of cur :: split_scan sep s' (String.length sep - 1) []
          else split_scan sep s' O (c :: cur)
      end
  end.

Definition split (s sep : string) : list string := split_scan sep s O [].

(** ** Genes, individuals and parameters *)

(** Modelled from the spec: the helpers of [pyshgp.push.plush]
    ([make_plush_gene], [plush_gene_get_instruction], [plush_gene_is_literal],
    [plush_gene_get_closes], [plush_gene_is_silent]) are called by
    [operators.py] but are not part of the sources.  A gene has a payload, a
    literal flag, a close count and a silent marker, in this order:
    [constant_mutator] reads the last two as [token[2]] and [token[3]]. *)
Record Gene : Type := make_plush_gene {
  plush_gene_get_instruction : pyval;
  plush_gene_is_literal : bool;
  plush_gene_get_closes : Z;
  plush_gene_is_silent : bool
}.

(** The worker pool, of which [genetics] reads [ncpus]. *)
Record Pool : Type := { ncpus : Z }.

(** The dictionary [evo_params]. *)
Record EvoParams : Type := {
  max_points : Z;
  alternation_rate : Q;
  alignment_deviation : Q;
  uniform_mutation_rate : Q;
  uniform_mutation_constant_tweak_rate : Q;
  uniform_mutation_float_gaussian_standard_deviation : Q;
  uniform_mutation_string_char_change_rate : Q;
  uniform_close_mutation_rate : Q;
  close_increment_rate : Q;
  epigenetic_markers : list string;
  genetic_operator_probabilities : gmap string Q;
  population_size : Z;
  parallel_genetics : bool;
  max_workers : option Z;
  pool : Pool
}.

(** Modelled from the spec: [pyshgp.gp.individual.Individual] is not part of
    the sources.  An individual owns one genome and carries an optional
    fitness, which only the evaluator assigns. *)
Record Individual : Type := {
  get_genome : list Gene;
  get_fitness : option Q
}.

Definition new_Individual (genome : list Gene) (evo_params : EvoParams) : Individual :=
  {| get_genome := genome; get_fitness := None |}.

(** The exceptions the embedded code can raise. *)
Inductive exn : Type :=
| UnknownGeneticOperator (op : string)
| IndexError
| ZeroDivisionError.

(** ** The random source *)

(** Modelled from the spec: [utils.gaussian_noise_factor] is called by
    [alternation] but is not part of the sources; it is the draw
    "gaussian_noise()" of the jump offset.

    The class is the state of the random number generator with the draws
    the operators make from it: [random.random()], a float in [[0, 1)];
    the index below [n] behind [random.choice] of a list of [n] elements;
    and the Gaussian noise factor. *)
Class RandomSource (G : Type) : Type := {
  random_random : G -> Q * G;
  randbelow : nat -> G -> nat * G;
  gaussian_noise_factor : G -> Q * G;
  random_random_range :
    forall g, (0 <= fst (random_random g))%Q /\ (fst (random_random g) < 1)%Q;
  randbelow_lt :
    forall n g, (0 < n)%nat -> (fst (randbelow n g) < n)%nat
}.

(** *** A scripted random source

    A random source that replays a script of draws over and over, used to
    run the operators on concrete inputs.  A draw from an empty script is
    0, a uniform draw outside [[0, 1)] is replaced by 0, and an index draw
    is reduced modulo its bound. *)
Record Script : Type := {
  script_random : list Q;
  script_below : list nat;
  script_gauss : list Q
}.

Definition unit_interval (q : Q) : Q :=
  if Qle_bool 0 q && Qltb q 1 then q else 0%Q.

Definition script_random_random (g : Script) : Q * Script :=
  match script_random g with
  | [] => (0%Q, g)
  | q :: qs =>
      (unit_interval q,
       {| script_random := qs ++ [q]; script_below := script_below g;
          script_gauss := script_gauss g |})
  end.

Definition script_randbelow (n : nat) (g : Script) : nat * Script :=
  match script_below g with
  | [] => (0%nat, g)
  | k :: ks =>
      ((k mod n)%nat,
       {| script_random := script_random g; script_below := ks ++ [k];
          script_gauss := script_gauss g |})
  end.

Definition script_gaussian_noise_factor (g : Script) : Q * Script :=
  match script_gauss g with
  | [] => (0%Q, g)
  | q :: qs =>
      (q,
       {| script_random := script_random g; script_below := script_below g;
          script_gauss := qs ++ [q] |})
  end.

#[export] Instance ScriptSource : RandomSource Script.
Proof.
  assert (Hzero : (0 <= 0)%Q /\ (0 < 1)%Q) by (split; [apply Qle_refl | reflexivity]).
  refine {| random_random := script_random_random;
            randbelow := script_randbelow;
            gaussian_noise_factor := script_gaussian_noise_factor |}.
  - intros g. unfold script_random_random.
    destruct (script_random g) as [|q qs]; simpl; [exact Hzero|].
    unfold unit_interval.
    destruct (Qle_bool 0 q) eqn:E1; simpl; [|exact Hzero].
    unfold Qltb. destruct (q ?= 1)%Q eqn:E2; try exact Hzero.
    split; [now apply Qle_bool_iff | now apply Qlt_alt].
  - intros n g Hn. unfold script_randbelow.
    destruct (script_below g) as [|k ks]; simpl; [exact Hn|].
    apply Nat.mod_upper_bound. lia.
Defined.

(** A selection that draws an index into the population; the empty
    population yields an individual with an empty genome. *)
Definition script_selection (population : list Individual)
    (evo_params : EvoParams) (g : Script) : Individual * Script :=
  let (k, g') := script_randbelow (length population) g in
  (nth k population {| get_genome := []; get_fitness := None |}, g').

(** A sampler that always returns the same instruction gene. *)
Definition script_random_plush_instruction (evo_params : EvoParams)
    (g : Script) : Gene * Script :=
  (make_plush_gene (PyInstruction "exec_noop") false 0 false, g).

(** *** Sample inputs *)

Definition int_gene (n : Z) : Gene := make_plush_gene (PyInt n) true 0 false.

(** Parameters with the given cap and alternation rate, and the operator
    probabilities [{alternation: 0.7, uniform_mutation: 0.3}] for a
    population of 100, produced sequentially. *)
Definition sample_params (cap : Z) (rate : Q) : EvoParams := {|
  max_points := cap;
  alternation_rate := rate;
  alignment_deviation := 1;
  uniform_mutation_rate := 1 # 2;
  uniform_mutation_constant_tweak_rate := 1 # 2;
  uniform_mutation_float_gaussian_standard_deviation := 1;
  uniform_mutation_string_char_change_rate := 1 # 2;
  uniform_close_mutation_rate := 1;
  close_increment_rate := 0;
  epigenetic_markers := ["_close"%string];
  genetic_operator_probabilities :=
    {[ "alternation"%string := 7 # 10; "uniform_mutation"%string := 3 # 10 ]};
  population_size := 100;
  parallel_genetics := false;
  max_workers := None;
  pool := {| ncpus := 4 |}
|}.

Definition sample_parent_1 : list Gene :=
  [int_gene 1; int_gene 2; int_gene 3; int_gene 4].

Definition sample_parent_2 : list Gene :=
  [int_gene 7; int_gene 8; int_gene 9].

Definition sample_population : list Individual :=
  [ {| get_genome := sample_parent_1; get_fitness := None |};
    {| get_genome := sample_parent_2; get_fitness := None |} ].

(** The script with no draws: every draw is 0. *)
Definition empty_script : Script :=
  {| script_random := []; script_below := []; script_gauss := [] |}.

(** A script under which [alternation], at rate 1/2, starts from parent 1,
    copies a gene, jumps one position ahead into the other parent and
    copies again. *)
Definition jump_script : Script :=
  {| script_random := [9 # 10; 1 # 10; 9 # 10; 9 # 10; 9 # 10];
     script_below := [0%nat];
     script_gauss := [1 # 1] |}.

(** A script whose first uniform draw is 0 and whose second is 9/10. *)
Definition decrement_script : Script :=
  {| script_random := [0 # 1; 9 # 10]; script_below := []; script_gauss := [] |}.

(** ** The instruction registry

    The two versions of [registered_instructions.py].  The registry is the
    module-level variable [registered_instructions]: the functions take
    its value and [register_instruction] returns the new one, with the
    warning it emits, if any.  An instruction is an object of which the
    module reads the attribute [name] only. *)

(** The message of the warning for a duplicate. *)
Definition duplicate_warning (name : string) : string :=
  ("Duplicate instructions registered: " ++ name ++ ". Duplicate ignored.")%string.

(** The first instruction of a list with the name [k]. *)
Definition find_named {Instruction : Type} (name : Instruction -> string)
    (k : string) (l : list Instruction) : option Instruction :=
  List.find (fun x => String.eqb (name x) k) l.

(** [registered_instructions.py]: the registry is a list. *)
Module RegistryList.

Section Registry.

Context {Instruction : Type}.
Variable name : Instruction -> string.

Definition register_instruction (instruction : Instruction)
    (registered_instructions : list Instruction)
    : list Instruction * option string :=
  if (0 <? length (List.filter
                     (fun x => String.eqb (name x) (name instruction))
                     registered_instructions))%nat
  then (registered_instructions, Some (duplicate_warning (name instruction)))
  else (registered_instructions ++ [instruction], None).

(** Registering the instructions of a list, one after the other. *)
Definition register_all (instructions registered_instructions : list Instruction)
    : list Instruction :=
  fold_left (fun registered instruction =>
               fst (register_instruction instruction registered))
    instructions registered_instructions.

End Registry.

End RegistryList.

(** [build/lib/pysh/instructions/registered_instructions.py]: the registry
    is a dictionary from names to instructions. *)
Module RegistryDict.

(** What [get_instruction_by_name] can raise: the [IndexError] of [name[0]]
    on the empty string, and [Exception] with its message. *)
Inductive registry_exn : Type :=
| StringIndexError
| Exception (message : string).

Section Registry.

Context {Instruction : Type}.
Variable name : Instruction -> string.

Definition register_instruction (instruction : Instruction)
    (registered_instructions : gmap string Instruction)
    : gmap string Instruction * option string :=
  match registered_instructions !! name instruction with
  | Some _ =>
      (registered_instructions, Some (duplicate_warning (name instruction)))
  | None =>
      (<[name instruction := instruction]> registered_instructions, None)
  end.

Definition get_instruction_by_name (name : string)
    (registered_instructions : gmap string Instruction)
    : registry_exn + Instruction :=
  match name with
  | EmptyString => inl StringIndexError
  | String c rest =>
      let name := if Ascii.eqb c "_" then rest else name in
      match registered_instructions !! name with
      | Some instruction => inr instruction
      | None =>
          inl (Exception ("No registered instruction with name: " ++ name)%string)
      end
  end.

(** Registering the instructions of a list, one after the other. *)
Definition register_all (instructions : list Instruction)
    (registered_instructions : gmap string Instruction)
    : gmap string Instruction :=
  fold_left (fun registered instruction =>
               fst (register_instruction instruction registered))
    instructions registered_instructions.

(** Every instruction is stored under its name. *)
Definition keyed_by_name (registered_instructions : gmap string Instruction)
    : Prop :=
  forall k instruction,
    registered_instructions !! k = Some instruction -> name instruction = k.

End Registry.

End RegistryDict.

(** A sample instruction: a name and a number standing for the function
    it wraps. *)
Record SampleInstruction : Type := {
  sample_name : string;
  sample_function : Z
}.

(** Parameters for the scheduler: the operator probabilities, the size of
    the population, the mode and the number of cpus of the pool. *)
Definition scheduler_params (probabilities : gmap string Q) (size : Z)
    (parallel : bool) (cpus : Z) : EvoParams := {|
  max_points := 5;
  alternation_rate := 1 # 2;
  alignment_deviation := 1;
  uniform_mutation_rate := 1 # 2;
  uniform_mutation_constant_tweak_rate := 1 # 2;
  uniform_mutation_float_gaussian_standard_deviation := 1;
  uniform_mutation_string_char_change_rate := 1 # 2;
  uniform_close_mutation_rate := 1;
  close_increment_rate := 0;
  epigenetic_markers := ["_close"%string];
  genetic_operator_probabilities := probabilities;
  population_size := size;
  parallel_genetics := parallel;
  max_workers := None;
  pool := {| ncpus := cpus |}
|}.

(** Parameters under which no mutation takes place: both mutation rates
    are 0 and there is no epigenetic marker. *)
Definition quiet_params : EvoParams := {|
  max_points := 5;
  alternation_rate := 0;
  alignment_deviation := 1;
  uniform_mutation_rate := 0;
  uniform_mutation_constant_tweak_rate := 1 # 2;
  uniform_mutation_float_gaussian_standard_deviation := 1;
  uniform_mutation_string_char_change_rate := 1 # 2;
  uniform_close_mutation_rate := 0;
  close_increment_rate := 0;
  epigenetic_markers := [];
  genetic_operator_probabilities := ∅;
  population_size := 0;
  parallel_genetics := false;
  max_workers := None;
  pool := {| ncpus := 1 |}
|}.

(** Parameters under which [alternation] jumps at every step and every
    jump is of 0 positions: the rate is 1 and the deviation 0.  The
    population of 100 is produced sequentially from the probabilities
    [{alternation: 0.7, uniform_mutation: 0.3}]. *)
Definition stalled_params : EvoParams := {|
  max_points := 5;
  alternation_rate := 1;
  alignment_deviation := 0;
  uniform_mutation_rate := 1 # 2;
  uniform_mutation_constant_tweak_rate := 1 # 2;
  uniform_mutation_float_gaussian_standard_deviation := 1;
  uniform_mutation_string_char_change_rate := 1 # 2;
  uniform_close_mutation_rate := 1;
  close_increment_rate := 0;
  epigenetic_markers := ["_close"%string];
  genetic_operator_probabilities :=
    {[ "alternation"%string := 7 # 10; "uniform_mutation"%string := 3 # 10 ]};
  population_size := 100;
  parallel_genetics := false;
  max_workers := None;
  pool := {| ncpus := 4 |}
|}.

(** The probabilities [{alternation: 0.7, uniform_mutation: 0.3}]. *)
Definition sample_probabilities : gmap string Q :=
  {[ "alternation"%string := 7 # 10; "uniform_mutation"%string := 3 # 10 ]}.

(** Sample atoms and a block with a nested block. *)
Definition atom_a : Atoms.Atom := Atoms.Literal (PyInt 1) Atoms.PushInt.
Definition atom_b : Atoms.Atom := Atoms.InstructionMeta "add" 0.
Definition atom_c : Atoms.Atom := Atoms.Input 0.

Definition nested_block : list Atoms.Atom :=
  [Atoms.CodeBlock [atom_a]; atom_b].

(** Sample instructions, two of them with the same name. *)
Definition instruction_add : SampleInstruction :=
  {| sample_name := "add"; sample_function := 1 |}.
Definition instruction_add_again : SampleInstruction :=
  {| sample_name := "add"; sample_function := 2 |}.
Definition instruction_underscore : SampleInstruction :=
  {| sample_name := "_dup"; sample_function := 3 |}.

(** ** Genetic operators ([pyshgp/gp/operators.py]) *)

Section Operators.

Context {G : Type} {RS : RandomSource G}.

(** A computation that draws from the random source and always returns. *)
Definition Rand (A : Type) : Type := G -> A * G.

Definition rret {A : Type} (a : A) : Rand A := fun g => (a, g).

Definition rbind {A B : Type} (m : Rand A) (k : A -> Rand B) : Rand B :=
  fun g => let (a, g') := m g in k a g'.

(** The outcome of a computation that may also raise, or loop for longer
    than the fuel it was given. *)
Inductive result (A : Type) : Type :=
| Done (a : A) (g : G)
| Raised (e : exn)
| OutOfFuel.

Arguments Done {A} a g.
Arguments Raised {A} e.
Arguments OutOfFuel {A}.

Definition Run (A : Type) : Type := G -> result A.

Definition ret {A : Type} (a : A) : Run A := fun g => Done a g.

Definition raise {A : Type} (e : exn) : Run A := fun _ => Raised e.

Definition bind {A B : Type} (m : Run A) (k : A -> Run B) : Run B :=
  fun g =>
    match m g with
    | Done a g' => k a g'
    | Raised e => Raised e
    | OutOfFuel => OutOfFuel
    end.

Definition lift {A : Type} (m : Rand A) : Run A :=
  fun g => let (a, g') := m g in Done a g'.

Notation "x <~ m ;; k" := (rbind m (fun x => k))
  (at level 100, m at next level, right associativity).
Notation "x <- m ;; k" := (bind m (fun x => k))
  (at level 100, m at next level, right associativity).

(** [r'] is what [r] becomes with more fuel: the same outcome, unless [r]
    ran out of fuel. *)
Definition with_more_fuel {A : Type} (r r' : result A) : Prop :=
  r = OutOfFuel \/ r = r'.

(** [[f(x) for x in l]] *)
Fixpoint rmap {A B : Type} (f : A -> Rand B) (l : list A) : Rand (list B) :=
  match l with
  | [] => rret []
  | x :: l' => y <~ f x ;; ys <~ rmap f l' ;; rret (y :: ys)
  end.

Fixpoint run_map {A B : Type} (f : A -> Run B) (l : list A) : Run (list B) :=
  match l with
  | [] => ret []
  | x :: l' => y <- f x ;; ys <- run_map f l' ;; ret (y :: ys)
  end.

(** [for x in l: acc = f(acc, x)] *)
Fixpoint run_for {A B : Type} (f : B -> A -> Run B) (l : list A) (acc : B) : Run B :=
  match l with
  | [] => ret acc
  | x :: l' => acc' <- f acc x ;; run_for f l' acc'
  end.

(** [random.choice] of the non-empty list [x :: xs]. *)
Definition random_choice {A : Type} (x : A) (xs : list A) : Rand A :=
  k <~ randbelow (S (length xs)) ;; rret (nth k (x :: xs) x).

(** Modelled from the spec: [utils.perturb_with_gaussian_noise] is not part
    of the sources; the value "is perturbed by additive Gaussian noise with
    configured standard deviation". *)
Definition perturb_with_gaussian_noise (sd n : Q) : Rand Q :=
  noise <~ gaussian_noise_factor ;; rret (n + sd * noise)%Q.

(** Modelled from the spec: the selection collaborator,
    [select(population, parameters) -> Individual]; the source takes
    [sel.selection(population, evolutionary_params)[0]]. *)
Variable selection : list Individual -> EvoParams -> Rand Individual.

(** Modelled from the spec: the random instruction sampler,
    [sample(parameters) -> Gene] ([r.random_plush_instruction]). *)
Variable random_plush_instruction : EvoParams -> Rand Gene.

(** *** Alternation *)

(** One iteration of the [while] loop of [alternation], up to the update of
    [loop_times]: the new values of [resulting_genome], [i] and
    [use_parent_1]. *)
Definition alternation_body (parent_1 parent_2 : list Gene)
    (evo_params : EvoParams) (resulting_genome : list Gene) (i : Z)
    (use_parent_1 : bool) : Run (list Gene * Z * bool) :=
  x <- lift random_random ;;
  if Qltb x (alternation_rate evo_params) then
    noise <- lift gaussian_noise_factor ;;
    let i := i + py_round (float_mul (alignment_deviation evo_params) noise) in
    let i := Z.max 0 i in
    ret (resulting_genome, i, negb use_parent_1)
  else
    match py_index (if use_parent_1 then parent_1 else parent_2) i with
    | None => raise IndexError
    | Some gene => ret (resulting_genome ++ [gene], i + 1, use_parent_1)
    end.

(** The [while] loop of [alternation] with its local variables; [fuel]
    bounds the number of iterations. *)
Fixpoint alternation_while (fuel : nat) (parent_1 parent_2 : list Gene)
    (evo_params : EvoParams) (resulting_genome : list Gene) (i : Z)
    (use_parent_1 : bool) (loop_times : Z) : Run (list Gene) :=
  if (i <? loop_times)
     && (Z.of_nat (length resulting_genome) <? max_points evo_params)
  then
    match fuel with
    | O => fun _ => OutOfFuel
    | S fuel' =>
        st <- alternation_body parent_1 parent_2 evo_params
                resulting_genome i use_parent_1 ;;
        let '(resulting_genome, i, use_parent_1) := st in
        let loop_times :=
          if negb use_parent_1 then Z.of_nat (length parent_2)
          else Z.of_nat (length parent_1) in
        alternation_while fuel' parent_1 parent_2 evo_params
          resulting_genome i use_parent_1 loop_times
    end
  else ret resulting_genome.

Definition alternation (fuel : nat) (parent_1 parent_2 : list Gene)
    (evo_params : EvoParams) : Run (list Gene) :=
  let resulting_genome := [] in
  use_parent_1 <- lift (random_choice true [false]) ;;
  let loop_times :=
    if negb use_parent_1 then Z.of_nat (length parent_2)
    else Z.of_nat (length parent_1) in
  let i := 0 in
  alternation_while fuel parent_1 parent_2 evo_params
    resulting_genome i use_parent_1 loop_times.

(** The length of the parent the loop is reading from, as [loop_times]
    holds it. *)
Definition current_length (p1 p2 : list Gene) (u : bool) : Z :=
  if negb u then Z.of_nat (length p2) else Z.of_nat (length p1).

(** *** Uniform mutation *)

(** The characters [string_tweak] draws from: tab, newline and the
    printable ones, [chr(32)] to [chr(126)]. *)
Definition tweak_chars : list ascii :=
  List.map ascii_of_nat (seq 32 95).

Fixpoint string_tweak_for (s : string) (evo_params : EvoParams)
    (new_s : string) : Rand string :=
  match s with
  | EmptyString => rret new_s
  | String c s' =>
      x <~ random_random ;;
      if Qltb x (uniform_mutation_string_char_change_rate evo_params) then
        c' <~ random_choice "009"%char ("010"%char :: tweak_chars) ;;
        string_tweak_for s' evo_params (new_s ++ String c' EmptyString)%string
      else
        string_tweak_for s' evo_params (new_s ++ String c EmptyString)%string
  end.

Definition string_tweak (s : string) (evo_params : EvoParams) : Rand string :=
  string_tweak_for s evo_params EmptyString.

Definition instruction_mutator (evo_params : EvoParams) : Rand Gene :=
  random_plush_instruction evo_params.

Definition constant_mutator (token : Gene) (evo_params : EvoParams) : Rand Gene :=
  if plush_gene_is_literal token then
    let const := plush_gene_get_instruction token in
    instruction <~
      match const with
      | PyFloat x =>
          y <~ perturb_with_gaussian_noise
                 (uniform_mutation_float_gaussian_standard_deviation evo_params) x ;;
          rret (PyFloat y)
      | PyInt n =>
          y <~ perturb_with_gaussian_noise
                 (uniform_mutation_float_gaussian_standard_deviation evo_params)
                 (inject_Z n) ;;
          rret (PyInt (py_round y))
      | PyStr s =>
          s' <~ string_tweak s evo_params ;; rret (PyStr s')
      | PyBool _ =>
          b <~ random_choice true [false] ;; rret (PyBool b)
      | _ => rret PyNone
      end ;;
    rret (make_plush_gene instruction true
            (plush_gene_get_closes token) (plush_gene_is_silent token))
  else instruction_mutator evo_params.

Definition token_mutator (token : Gene) (evo_params : EvoParams) : Rand Gene :=
  x <~ random_random ;;
  if Qltb x (uniform_mutation_rate evo_params) then
    y <~ random_random ;;
    if Qltb y (uniform_mutation_constant_tweak_rate evo_params)
    then constant_mutator token evo_params
    else instruction_mutator evo_params
  else rret token.

Definition uniform_mutation (genome : list Gene) (evo_params : EvoParams)
    : Rand (list Gene) :=
  rmap (fun gene => token_mutator gene evo_params) genome.

(** *** Uniform close mutation *)

Definition close_mutator (gene : Gene) (evo_params : EvoParams) : Rand Gene :=
  let closes := plush_gene_get_closes gene in
  new_closes <~
    (x <~ random_random ;;
     if Qltb x (uniform_close_mutation_rate evo_params) then
       y <~ random_random ;;
       if Qltb y (close_increment_rate evo_params) then rret (closes + 1)
       else if closes =? 0 then rret 0
       else rret (closes - 1)
     else rret closes) ;;
  rret (make_plush_gene (plush_gene_get_instruction gene)
          (plush_gene_is_literal gene) new_closes (plush_gene_is_silent gene)).

Definition uniform_close_mutation (genome : list Gene) (evo_params : EvoParams)
    : Rand (list Gene) :=
  if negb (existsb (String.eqb "_close") (epigenetic_markers evo_params))
  then rret genome
  else rmap (fun gene => close_mutator gene evo_params) genome.

(** The close count one step down, with its floor at 0. *)
Definition decrement_closes (gene : Gene) : Gene :=
  make_plush_gene (plush_gene_get_instruction gene) (plush_gene_is_literal gene)
    (if plush_gene_get_closes gene =? 0 then 0 else plush_gene_get_closes gene - 1)
    (plush_gene_is_silent gene).

(** Two genes that differ in their close count only, and there by one at
    most. *)
Definition closes_step (old new : Gene) : Prop :=
  plush_gene_get_instruction new = plush_gene_get_instruction old
  /\ plush_gene_is_literal new = plush_gene_is_literal old
  /\ plush_gene_is_silent new = plush_gene_is_silent old
  /\ Z.abs (plush_gene_get_closes new - plush_gene_get_closes old) <= 1.

(** Do two values have the same Python type? *)
Definition same_type (a b : pyval) : bool :=
  match a, b with
  | PyFloat _, PyFloat _ | PyInt _, PyInt _ | PyStr _, PyStr _
  | PyBool _, PyBool _ | PyNone, PyNone | PyInstruction _, PyInstruction _
  | PyList _, PyList _ => true
  | _, _ => false
  end.

(** *** Producing children *)

(** The operator names [produce_child] supports. *)
Definition known_operator (op : string) : bool :=
  String.eqb op "alternation"
  || String.eqb op "uniform_mutation"
  || String.eqb op "uniform_close_mutation".

(** The first name of a composite operator that is not supported. *)
Definition first_unknown_operator (ops : list string) : option string :=
  List.find (fun op => negb (known_operator op)) ops.

(** The names [produce_child] applies: those before the first one that
    is not supported. *)
Fixpoint operators_applied (ops : list string) : list string :=
  match ops with
  | [] => []
  | op :: ops' => if known_operator op then op :: operators_applied ops' else []
  end.

(** The body of [for op in ops] in [produce_child], with the current
    [child]. *)
Definition produce_child_step (fuel : nat) (population : list Individual)
    (evolutionary_params : EvoParams) (child : Individual) (op : string)
    : Run Individual :=
  if String.eqb op "alternation" then
    other_parent <- lift (selection population evolutionary_params) ;;
    child_genome <- alternation fuel (get_genome child)
                      (get_genome other_parent) evolutionary_params ;;
    ret (new_Individual child_genome evolutionary_params)
  else if String.eqb op "uniform_mutation" then
    child_genome <- lift (uniform_mutation (get_genome child) evolutionary_params) ;;
    ret (new_Individual child_genome evolutionary_params)
  else if String.eqb op "uniform_close_mutation" then
    child_genome <- lift (uniform_close_mutation (get_genome child) evolutionary_params) ;;
    ret (new_Individual child_genome evolutionary_params)
  else raise (UnknownGeneticOperator op).

Definition produce_child (fuel : nat) (population : list Individual)
    (genetic_operators : string) (evolutionary_params : EvoParams)
    : Run Individual :=
  child <- lift (selection population evolutionary_params) ;;
  let ops := split genetic_operators " & " in
  run_for (produce_child_step fuel population evolutionary_params) ops child.

Definition produce_n_children (fuel : nat) (n : Z) (population : list Individual)
    (genetic_operators : string) (evolutionary_params : EvoParams)
    : Run (list Individual) :=
  run_map (fun _ => produce_child fuel population genetic_operators
                      evolutionary_params)
    (py_range n).

(** *** The scheduler *)

(** [num_offspring_each_gen_op]: the quota of each operator key,
    [int(round(probability * population_size))]; the product is a float
    and [round] gives the integer nearest to it. *)
Definition num_offspring_each_gen_op (evolutionary_params : EvoParams)
    : gmap string Z :=
  (fun p => py_round (float_mul p (inject_Z (population_size evolutionary_params))))
    <$> genetic_operator_probabilities evolutionary_params.

(** The loop [while i > 0] that carves the quota [i] of [op] into jobs of
    at most [aprox_num_individuals_per_job] children; [fuel] bounds the
    number of iterations. *)
Fixpoint partition_while (fuel : nat) (op : string)
    (aprox_num_individuals_per_job : Z) (i : Z)
    (jobs_n : list Z) (jobs_ops : list string) : Run (list Z * list string) :=
  if 0 <? i then
    match fuel with
    | O => fun _ => OutOfFuel
    | S fuel' =>
        if i <? aprox_num_individuals_per_job then
          partition_while fuel' op aprox_num_individuals_per_job (i - i)
            (jobs_n ++ [i]) (jobs_ops ++ [op])
        else
          partition_while fuel' op aprox_num_individuals_per_job
            (i - aprox_num_individuals_per_job)
            (jobs_n ++ [aprox_num_individuals_per_job]) (jobs_ops ++ [op])
    end
  else ret (jobs_n, jobs_ops).

(** [sizes] are the jobs carved off a quota [i]: each takes
    [min(i, share)] of what remains, until nothing remains. *)
Fixpoint carves (share i : Z) (sizes : list Z) : Prop :=
  match sizes with
  | [] => i = 0
  | n :: sizes' => 0 < i /\ n = Z.min i share /\ carves share (i - n) sizes'
  end.

(** The loop over the operator keys that fills [jobs_n] and [jobs_ops]. *)
Definition partition_jobs (fuel : nat) (quotas : list (string * Z))
    (aprox_num_individuals_per_job : Z) : Run (list Z * list string) :=
  run_for
    (fun jobs '(op, i) =>
       partition_while fuel op aprox_num_individuals_per_job i (fst jobs) (snd jobs))
    quotas ([], []).

(** The entries of [jobs_ops] that go with the job sizes [chunks] of the
    keys: the key of a job, once for each of its jobs. *)
Definition jobs_ops_of (quotas : list (string * Z)) (chunks : list (list Z))
    : list string :=
  concat (zip_with (fun q sizes => repeat (fst q) (length sizes)) quotas chunks).

(** Modelled from the spec: the worker pool's
    [map(function, job_args...) -> list_of_results], here for
    [produce_n_children]: one call for each job, each returning its
    children; a job that fails makes the whole call fail. *)
Definition pool_map_produce_n_children (fuel : nat) (jobs_n : list Z)
    (population : list Individual) (jobs_ops : list string)
    (evolutionary_params : EvoParams) : Run (list (list Individual)) :=
  run_map
    (fun '(n, op) => produce_n_children fuel n population op evolutionary_params)
    (combine jobs_n jobs_ops).

Definition genetics (fuel : nat) (population : list Individual)
    (evolutionary_params : EvoParams) : Run (list Individual) :=
  let offspring := [] in
  let num_offspring := num_offspring_each_gen_op evolutionary_params in
  if parallel_genetics evolutionary_params
     && match max_workers evolutionary_params with
        | None => true
        | Some w => 1 <? w
        end
  then
    let pool := pool evolutionary_params in
    if ncpus pool - 1 =? 0 then raise ZeroDivisionError
    else
      let aprox_num_individuals_per_job :=
        py_int (inject_Z (population_size evolutionary_params)
                / inject_Z (ncpus pool - 1))%Q in
      jobs <- partition_jobs fuel (map_to_list num_offspring)
                aprox_num_individuals_per_job ;;
      let '(jobs_n, jobs_ops) := jobs in
      job_results <- pool_map_produce_n_children fuel jobs_n population
                       jobs_ops evolutionary_params ;;
      ret (fold_left (fun offspring jr => offspring ++ jr) job_results offspring)
  else
    run_for
      (fun offspring '(op, n) =>
         run_for
           (fun offspring _ =>
              child <- produce_child fuel population op evolutionary_params ;;
              ret (offspring ++ [child]))
           (py_range n) offspring)
      (map_to_list num_offspring) offspring.

(** ** Properties of the operators *)

Lemma Qltb_lt (x y : Q) : Qltb x y = true <-> (x < y)%Q.
Proof.
  unfold Qltb. rewrite Qlt_alt. destruct (x ?= y)%Q; split; congruence.
Qed.

Lemma Qltb_random_random_zero (r : Q) (g : G) :
  (r == 0)%Q -> Qltb (fst (random_random g)) r = false.
Proof.
  intros Hr. destruct (Qltb (fst (random_random g)) r) eqn:E; [|reflexivity].
  apply Qltb_lt in E. rewrite Hr in E.
  destruct (random_random_range g) as [H0 _].
  exfalso. apply (Qlt_not_le _ _ E H0).
Qed.

(** What one iteration of the loop of [alternation] does when it returns:
    it either jumps, leaving the genome as it is, or copies the gene at
    [i] of the current parent. *)
Lemma alternation_body_Done p1 p2 ep res i u g res' i' u' g' :
  alternation_body p1 p2 ep res i u g = Done (res', i', u') g' ->
  (res' = res /\ 0 <= i' /\ u' = negb u)
  \/ (exists gene, py_index (if u then p1 else p2) i = Some gene
                   /\ res' = res ++ [gene] /\ i' = i + 1 /\ u' = u).
Proof.
  unfold alternation_body, bind, lift, ret, raise.
  destruct (random_random g) as [x g1].
  destruct (Qltb x (alternation_rate ep)).
  - destruct (gaussian_noise_factor g1) as [noise g2].
    intros [= <- <- <- <-]. left. repeat split. lia.
  - destruct (py_index (if u then p1 else p2) i) as [gene|]; [|discriminate].
    intros [= <- <- <- <-]. right. exists gene. auto.
Qed.

Lemma py_index_in_range {A : Type} (l : list A) (i : Z) :
  0 <= i < Z.of_nat (length l) ->
  py_index l i = nth_error l (Z.to_nat i) /\ exists x, py_index l i = Some x.
Proof.
  intros Hi. unfold py_index.
  replace (0 <=? i) with true by (symmetry; apply Z.leb_le; lia).
  replace (i <? Z.of_nat (length l)) with true by (symmetry; apply Z.ltb_lt; lia).
  simpl. split; [reflexivity|].
  destruct (nth_error l (Z.to_nat i)) as [x|] eqn:E; [eauto|].
  apply nth_error_None in E. lia.
Qed.

(** Inside the loop the index is in range: an iteration returns. *)
Lemma alternation_body_returns p1 p2 ep res i u g :
  0 <= i < current_length p1 p2 u ->
  exists st g', alternation_body p1 p2 ep res i u g = Done st g'.
Proof.
  intros Hi. unfold alternation_body, bind, lift, ret, raise.
  destruct (random_random g) as [x g1].
  destruct (Qltb x (alternation_rate ep)).
  - destruct (gaussian_noise_factor g1) as [noise g2]. eauto.
  - destruct (py_index_in_range (if u then p1 else p2) i) as [_ [gene ->]]; [|eauto].
    unfold current_length in Hi. destruct u; simpl in Hi; lia.
Qed.

(** The loop never raises, and the genome it returns is within the cap
    whenever the genome it started from was. *)
Lemma alternation_while_bound fuel p1 p2 ep : forall res i u g,
  0 <= i ->
  match alternation_while fuel p1 p2 ep res i u (current_length p1 p2 u) g with
  | Done genome _ =>
      Z.of_nat (length genome) <= Z.max (Z.of_nat (length res)) (max_points ep)
  | Raised _ => False
  | OutOfFuel => True
  end.
Proof.
  induction fuel as [|fuel IH]; intros res i u g Hi; simpl.
  - destruct ((i <? current_length p1 p2 u)
              && (Z.of_nat (length res) <? max_points ep)); simpl; [exact I|lia].
  - destruct ((i <? current_length p1 p2 u)
              && (Z.of_nat (length res) <? max_points ep)) eqn:Hc; simpl; [|lia].
    apply andb_true_iff in Hc as [Hlt Hlen].
    apply Z.ltb_lt in Hlt. apply Z.ltb_lt in Hlen.
    unfold bind at 1.
    destruct (alternation_body_returns p1 p2 ep res i u g) as [[[res' i'] u'] [g' Hb]];
      [lia|].
    rewrite Hb.
    apply alternation_body_Done in Hb as [(-> & Hi' & ->)|(gene & _ & -> & -> & ->)].
    + specialize (IH res i' (negb u) g' Hi'). unfold current_length in IH at 1.
      destruct (alternation_while _ _ _ _ _ _ _ _ _); auto.
    + specialize (IH (res ++ [gene]) (i + 1) u g' ltac:(lia)).
      unfold current_length in IH at 1.
      destruct (alternation_while _ _ _ _ _ _ _ _ _); auto.
      rewrite length_app in IH. simpl in IH. lia.
Qed.

Lemma alternation_never_raises fuel p1 p2 ep g e :
  alternation fuel p1 p2 ep g <> Raised e.
Proof.
  unfold alternation, bind, lift.
  destruct (random_choice true [false] g) as [u g1].
  pose proof (alternation_while_bound fuel p1 p2 ep [] 0 u g1 ltac:(lia)) as H.
  unfold current_length in H.
  destruct (alternation_while _ _ _ _ _ _ _ _ _); congruence || tauto.
Qed.

(** C1.  For all parents and parameters with a non-negative cap
    [max_points = N], the genome [alternation] returns has at most [N]
    genes. *)
Theorem alternation_length_le_max_points fuel p1 p2 ep g genome g' :
  0 <= max_points ep ->
  alternation fuel p1 p2 ep g = Done genome g' ->
  Z.of_nat (length genome) <= max_points ep.
Proof.
  intros HN. unfold alternation, bind, lift.
  destruct (random_choice true [false] g) as [u g1].
  pose proof (alternation_while_bound fuel p1 p2 ep [] 0 u g1 ltac:(lia)) as H.
  unfold current_length in H. intros E. rewrite E in H. simpl in H. lia.
Qed.

(** With [alternation_rate = 0] no draw is below the rate: an iteration
    copies the gene at [i]. *)
Lemma alternation_body_no_jump p1 p2 ep (res : list Gene) (i : Z) (u : bool) g gene :
  (alternation_rate ep == 0)%Q ->
  py_index (if u then p1 else p2) i = Some gene ->
  alternation_body p1 p2 ep res i u g
  = Done (res ++ [gene], i + 1, u) (snd (random_random g)).
Proof.
  intros Hr Hg. unfold alternation_body, bind, lift, ret.
  pose proof (Qltb_random_random_zero _ g Hr) as Hx.
  destruct (random_random g) as [x g1]. simpl in Hx. rewrite Hx, Hg. reflexivity.
Qed.

(** Reading parent 1 from the position after [pre] without ever jumping
    copies the remaining genes until the cap is reached. *)
Lemma alternation_while_no_jump p1 p2 ep : forall rest pre fuel (res : list Gene) g,
  (alternation_rate ep == 0)%Q ->
  p1 = pre ++ rest ->
  (length rest <= fuel)%nat ->
  exists g',
    alternation_while fuel p1 p2 ep res (Z.of_nat (length pre)) true
      (Z.of_nat (length p1)) g
    = Done (res ++ firstn (Z.to_nat (max_points ep - Z.of_nat (length res))) rest) g'.
Proof.
  induction rest as [|gene rest IH]; intros pre fuel res g Hr Hp Hf.
  - exists g. subst p1. rewrite app_nil_r, firstn_nil, app_nil_r.
    destruct fuel; simpl; rewrite Z.ltb_irrefl; reflexivity.
  - destruct ((Z.of_nat (length pre) <? Z.of_nat (length p1))
              && (Z.of_nat (length res) <? max_points ep)) eqn:Hc.
    + apply andb_true_iff in Hc as [Hlt Hlen]. apply Z.ltb_lt in Hlen.
      destruct fuel as [|fuel]; [simpl in Hf; lia|].
      simpl. rewrite Hlt. apply Z.ltb_lt in Hlen as Hlen'. rewrite Hlen'. simpl.
      unfold bind at 1.
      rewrite (alternation_body_no_jump p1 p2 ep res _ true g gene Hr).
      * destruct (IH (pre ++ [gene]) fuel (res ++ [gene]) (snd (random_random g)) Hr)
          as [g' Hg'].
        { rewrite <- app_assoc. exact Hp. }
        { simpl in Hf. lia. }
        exists g'. rewrite length_app in Hg'. simpl in Hg'.
        replace (Z.of_nat (length pre) + 1) with (Z.of_nat (length pre + 1)) by lia.
        cbn [negb]. rewrite Hg'. f_equal. rewrite <- app_assoc. f_equal.
        rewrite length_app. simpl.
        replace (Z.to_nat (max_points ep - Z.of_nat (length res)))
          with (S (Z.to_nat (max_points ep - Z.of_nat (length res + 1)))) by lia.
        reflexivity.
      * destruct (py_index_in_range p1 (Z.of_nat (length pre))) as [-> _].
        { subst p1. rewrite length_app. simpl. lia. }
        subst p1. rewrite Nat2Z.id, nth_error_app2 by lia.
        rewrite Nat.sub_diag. reflexivity.
    + exists g.
      assert (Hlen : max_points ep - Z.of_nat (length res) <= 0).
      { apply andb_false_iff in Hc as [Hc|Hc]; apply Z.ltb_ge in Hc; [|lia].
        subst p1. rewrite length_app in Hc. simpl in Hc. lia. }
      replace (Z.to_nat (max_points ep - Z.of_nat (length res))) with 0%nat by lia.
      rewrite firstn_O, app_nil_r.
      destruct fuel; simpl; rewrite Hc; reflexivity.
Qed.

(** With [alternation_rate = 0] and parent 1 chosen first, [alternation]
    returns the genes of parent 1 up to the cap [max_points]. *)
Lemma alternation_rate_zero_firstn fuel p1 p2 ep g :
  (alternation_rate ep == 0)%Q ->
  fst (random_choice true [false] g) = true ->
  (length p1 <= fuel)%nat ->
  exists g',
    alternation fuel p1 p2 ep g = Done (firstn (Z.to_nat (max_points ep)) p1) g'.
Proof.
  intros Hr Hu Hf. unfold alternation, bind, lift.
  destruct (random_choice true [false] g) as [u g1]. simpl in Hu. subst u. simpl.
  destruct (alternation_while_no_jump p1 p2 ep p1 [] fuel [] g1 Hr eq_refl Hf)
    as [g' Hg'].
  exists g'. rewrite <- (Z.sub_0_r (max_points ep)). exact Hg'.
Qed.

(** C5, amended.  With [alternation_rate = 0], parent 1 the initial choice
    and parent 1 no longer than [max_points], [alternation] returns parent 1
    unchanged, for every second parent and every [alignment_deviation]. *)
Theorem alternation_rate_zero_returns_parent_1 fuel p1 p2 ep g :
  (alternation_rate ep == 0)%Q ->
  fst (random_choice true [false] g) = true ->
  Z.of_nat (length p1) <= max_points ep ->
  (length p1 <= fuel)%nat ->
  exists g', alternation fuel p1 p2 ep g = Done p1 g'.
Proof.
  intros Hr Hu Hcap Hf.
  destruct (alternation_rate_zero_firstn fuel p1 p2 ep g Hr Hu Hf) as [g' Hg'].
  exists g'. rewrite Hg'. f_equal. apply firstn_all2. lia.
Qed.

Lemma rmap_length {A B : Type} (f : A -> Rand B) (l : list A) (g : G) :
  length (fst (rmap f l g)) = length l.
Proof.
  revert g. induction l as [|x l IH]; intros g; simpl; [reflexivity|].
  unfold rbind at 1. destruct (f x g) as [y g1].
  unfold rbind at 1. specialize (IH g1). destruct (rmap f l g1) as [ys g2].
  simpl in *. now rewrite IH.
Qed.

(** C6.  For every genome [G] and all parameters, [uniform_mutation(G)] has
    exactly as many genes as [G]. *)
Theorem uniform_mutation_length genome ep g :
  length (fst (uniform_mutation genome ep g)) = length genome.
Proof. unfold uniform_mutation. apply rmap_length. Qed.

(** C7.  For every gene whose close count is not negative, the close count
    [close_mutator] produces is not negative either; a gene with close
    count 0 that is selected for change (the first draw is below
    [uniform_close_mutation_rate]) and for decrement (the second draw is
    not below [close_increment_rate]) keeps close count 0. *)
Theorem close_mutator_closes_nonneg gene ep g :
  0 <= plush_gene_get_closes gene ->
  0 <= plush_gene_get_closes (fst (close_mutator gene ep g))
  /\ (plush_gene_get_closes gene = 0 ->
      (fst (random_random g) < uniform_close_mutation_rate ep)%Q ->
      ~ (fst (random_random (snd (random_random g))) < close_increment_rate ep)%Q ->
      plush_gene_get_closes (fst (close_mutator gene ep g)) = 0).
Proof.
  intros Hc. unfold close_mutator, rbind, rret.
  destruct (random_random g) as [x g1]. simpl.
  destruct (Qltb x (uniform_close_mutation_rate ep)) eqn:Ex.
  - destruct (random_random g1) as [y g2]. simpl.
    destruct (Qltb y (close_increment_rate ep)) eqn:Ey.
    + simpl. split; [lia|]. intros _ _ Hy. exfalso. apply Hy. now apply Qltb_lt.
    + destruct (plush_gene_get_closes gene =? 0) eqn:Ez; simpl.
      * split; [lia|reflexivity].
      * apply Z.eqb_neq in Ez. split; [lia|]. intros H0. contradiction.
  - simpl. split; [lia|]. intros _ Hx. apply Qltb_lt in Hx. congruence.
Qed.

(** C10.  For a literal gene whose payload is not a float, an int, a str or
    a bool, [constant_mutator] returns a literal gene with payload [None]
    and the close count and silent marker of the original; it draws
    nothing from the random source. *)
Theorem constant_mutator_other_payload token ep g :
  plush_gene_is_literal token = true ->
  match plush_gene_get_instruction token with
  | PyFloat _ | PyInt _ | PyStr _ | PyBool _ => False
  | _ => True
  end ->
  constant_mutator token ep g
  = (make_plush_gene PyNone true (plush_gene_get_closes token)
       (plush_gene_is_silent token), g).
Proof.
  intros Hlit Hty. unfold constant_mutator. rewrite Hlit.
  destruct (plush_gene_get_instruction token); try contradiction; reflexivity.
Qed.

Lemma produce_child_step_known fuel population ep child op g :
  known_operator op = true ->
  (exists c g', produce_child_step fuel population ep child op g = Done c g')
  \/ produce_child_step fuel population ep child op g = OutOfFuel.
Proof.
  unfold known_operator, produce_child_step. intros Hk.
  destruct (String.eqb op "alternation").
  - unfold bind, lift, ret.
    destruct (selection population ep g) as [other g1].
    destruct (alternation fuel (get_genome child) (get_genome other) ep g1)
      as [genome g2|e|] eqn:E.
    + left. eauto.
    + exfalso. exact (alternation_never_raises _ _ _ _ _ _ E).
    + right. reflexivity.
  - destruct (String.eqb op "uniform_mutation").
    + left. unfold bind, lift, ret.
      destruct (uniform_mutation (get_genome child) ep g) as [genome g1]. eauto.
    + destruct (String.eqb op "uniform_close_mutation"); [|discriminate].
      left. unfold bind, lift, ret.
      destruct (uniform_close_mutation (get_genome child) ep g) as [genome g1]. eauto.
Qed.

Lemma produce_child_step_unknown fuel population ep child op g :
  known_operator op = false ->
  produce_child_step fuel population ep child op g
  = Raised (UnknownGeneticOperator op).
Proof.
  unfold known_operator, produce_child_step. intros Hk.
  destruct (String.eqb op "alternation"); [discriminate|].
  destruct (String.eqb op "uniform_mutation"); [discriminate|].
  destruct (String.eqb op "uniform_close_mutation"); [discriminate|].
  reflexivity.
Qed.

(** The loop over the operator names stops at the first unknown name, with
    the error that carries it, and completes when there is none. *)
Lemma produce_child_for_ops fuel population ep : forall ops child g,
  run_for (produce_child_step fuel population ep) ops child g = OutOfFuel
  \/ match first_unknown_operator ops with
     | Some op =>
         run_for (produce_child_step fuel population ep) ops child g
         = Raised (UnknownGeneticOperator op)
     | None =>
         exists c g',
           run_for (produce_child_step fuel population ep) ops child g = Done c g'
     end.
Proof.
  induction ops as [|op ops IH]; intros child g; simpl.
  - right. unfold ret. eauto.
  - unfold first_unknown_operator. simpl.
    destruct (known_operator op) eqn:Hk; simpl.
    + unfold bind.
      destruct (produce_child_step_known fuel population ep child op g Hk)
        as [(c & g' & ->)| ->]; [|now left].
      apply IH.
    + right. unfold bind.
      now rewrite (produce_child_step_unknown fuel population ep child op g Hk).
Qed.

Lemma first_unknown_operator_Some ops op :
  first_unknown_operator ops = Some op -> In op ops /\ known_operator op = false.
Proof.
  unfold first_unknown_operator. intros H. apply find_some in H as [Hin Hk].
  split; [exact Hin|]. now apply negb_true_iff.
Qed.

Lemma first_unknown_operator_None ops op :
  first_unknown_operator ops = None -> In op ops -> known_operator op = true.
Proof.
  unfold first_unknown_operator. intros H Hin.
  pose proof (find_none _ _ H op Hin) as Hk. now apply negb_false_iff.
Qed.

(** What a call of [produce_child] that returns comes to. *)
Lemma produce_child_outcome fuel population genetic_operators ep g :
  produce_child fuel population genetic_operators ep g = OutOfFuel
  \/ match first_unknown_operator (split genetic_operators " & ") with
     | Some op =>
         produce_child fuel population genetic_operators ep g
         = Raised (UnknownGeneticOperator op)
     | None =>
         exists c g',
           produce_child fuel population genetic_operators ep g = Done c g'
     end.
Proof.
  unfold produce_child, bind, lift.
  destruct (selection population ep g) as [child g1].
  apply produce_child_for_ops.
Qed.
Lemma known_operator_false (op : string) :
  known_operator op = false
  <-> op <> "alternation"%string /\ op <> "uniform_mutation"%string
      /\ op <> "uniform_close_mutation"%string.
Proof.
  unfold known_operator. rewrite !orb_false_iff, !String.eqb_neq. tauto.
Qed.

Lemma py_range_pos (n : Z) :
  0 < n -> exists l, py_range n = 0 :: l.
Proof.
  intros Hn. unfold py_range.
  destruct (Z.to_nat n) as [|m] eqn:E; [lia|]. simpl. eauto.
Qed.

(** An error of the first child is the error of [produce_n_children]. *)
Lemma produce_n_children_raises fuel n population genetic_operators ep g e :
  0 < n ->
  produce_child fuel population genetic_operators ep g = Raised e ->
  produce_n_children fuel n population genetic_operators ep g = Raised e.
Proof.
  intros Hn He. unfold produce_n_children.
  destruct (py_range_pos n Hn) as [l ->]. simpl. unfold bind at 1.
  now rewrite He.
Qed.

Lemma py_round_nonneg (x : Q) : (0 <= x)%Q -> 0 <= py_round x.
Proof.
  intros Hx. unfold py_round. cbv zeta.
  assert (H : 0 <= Qfloor x) by (change 0 with (Qfloor 0); now apply Qfloor_resp_le).
  revert H. generalize (Qfloor x). intros f Hf. clear Hx.
  destruct (_ ?= _)%Q; [destruct (Z.even _)| |]; lia.
Qed.

Lemma round_binary64_nonneg (x : Q) : (0 <= x)%Q -> (0 <= round_binary64 x)%Q.
Proof.
  intros Hx. unfold round_binary64.
  assert (Hpow : forall e : Z, (0 <= 2 ^ e)%Q)
    by (intros e; apply Qpower_0_le; discriminate).
  assert (H : forall e : Z, (0 <= inject_Z (py_round (x / 2 ^ e)) * 2 ^ e)%Q).
  { intros e. apply Qmult_le_0_compat; [|apply Hpow].
    change 0%Q with (inject_Z 0). rewrite <- Zle_Qle. apply py_round_nonneg.
    apply Qmult_le_0_compat; [exact Hx|]. apply Qinv_le_0_compat, Hpow. }
  destruct (Qnum x); [apply Qle_refl|apply H|apply H].
Qed.

Lemma round_binary64_zero (x : Q) : Qnum x = 0 -> round_binary64 x = 0%Q.
Proof. unfold round_binary64. now intros ->. Qed.

(** The product of two floats that are not negative is not negative, and
    the product with 0 is 0. *)
Lemma float_mul_nonneg (x y : Q) : (0 <= x)%Q -> (0 <= y)%Q -> (0 <= float_mul x y)%Q.
Proof.
  intros Hx Hy. unfold float_mul.
  apply round_binary64_nonneg, Qmult_le_0_compat; now apply round_binary64_nonneg.
Qed.

Lemma float_mul_zero_l (x y : Q) : (x == 0)%Q -> float_mul x y = 0%Q.
Proof.
  intros Hx. unfold float_mul.
  assert (H : Qnum x = 0) by (unfold Qeq in Hx; simpl in Hx; lia).
  rewrite (round_binary64_zero x H). now apply round_binary64_zero.
Qed.

(** A probability and a population size that are not negative give a quota
    that is not negative. *)
Lemma quota_nonneg (p : Q) (size : Z) :
  (0 <= p)%Q -> 0 <= size -> 0 <= py_round (float_mul p (inject_Z size)).
Proof.
  intros Hp Hsize. apply py_round_nonneg, float_mul_nonneg; [exact Hp|].
  change 0%Q with (inject_Z 0). now rewrite <- Zle_Qle.
Qed.

Lemma first_unknown_operator_None_iff (ops : list string) :
  first_unknown_operator ops = None
  <-> Forall (fun op => known_operator op = true) ops.
Proof.
  rewrite List.Forall_forall. split.
  - intros H op. now apply first_unknown_operator_None.
  - intros H. destruct (first_unknown_operator ops) as [op|] eqn:E; [|reflexivity].
    apply first_unknown_operator_Some in E as [Hin Hk].
    specialize (H op Hin). congruence.
Qed.

Lemma length_concat_groups {A B : Type} (h : A -> Z) (l : list A)
    (groups : list (list B)) :
  Forall2 (fun a grp => Z.of_nat (length grp) = h a) l groups ->
  Z.of_nat (length (concat groups)) = sum (List.map h l).
Proof.
  induction 1 as [|a grp l groups Ha _ IH]; [reflexivity|].
  change (sum (List.map h (a :: l))) with (h a + sum (List.map h l)).
  rewrite <- IH, <- Ha. simpl. rewrite length_app. lia.
Qed.

Lemma Forall2_impl_Forall_l {A B : Type} (P : A -> Prop) (R R' : A -> B -> Prop)
    (l : list A) (k : list B) :
  Forall P l -> Forall2 R l k ->
  (forall a b, P a -> R a b -> R' a b) ->
  Forall2 R' l k.
Proof.
  intros HP HR Himpl. revert HP.
  induction HR as [|a b l k Hab _ IH]; intros HP; constructor.
  - apply Himpl; [|exact Hab]. now apply Forall_cons in HP as [? _].
  - apply IH. now apply Forall_cons in HP as [_ ?].
Qed.

(** In sequential mode [genetics] takes its second branch. *)
Lemma sequential_mode_test (ep : EvoParams) :
  parallel_genetics ep = false \/ (exists w, max_workers ep = Some w /\ w <= 1) ->
  parallel_genetics ep
  && match max_workers ep with None => true | Some w => 1 <? w end = false.
Proof.
  intros [->|(w & -> & Hw)]; [reflexivity|].
  apply andb_false_iff. right. apply Z.ltb_ge. lia.
Qed.

(** The loop [while i > 0] on one operator key: with a share of at least
    one child and enough fuel it ends, having appended the carved jobs. *)
Lemma partition_while_carves op share : forall fuel i jobs_n jobs_ops g,
  1 <= share -> 0 <= i -> (Z.to_nat i <= fuel)%nat ->
  exists sizes,
    partition_while fuel op share i jobs_n jobs_ops g
    = Done (jobs_n ++ sizes, jobs_ops ++ repeat op (length sizes)) g
    /\ carves share i sizes /\ sum sizes = i.
Proof.
  induction fuel as [|fuel IH]; intros i jobs_n jobs_ops g Hs Hi Hf.
  - assert (i = 0) by lia. subst i. exists []. simpl.
    rewrite !app_nil_r. auto.
  - simpl. destruct (0 <? i) eqn:Hpos.
    + apply Z.ltb_lt in Hpos. destruct (i <? share) eqn:Hlt.
      * apply Z.ltb_lt in Hlt.
        destruct (IH (i - i) (jobs_n ++ [i]) (jobs_ops ++ [op]) g Hs)
          as (sizes & Hrun & Hc & Hsum); [lia|lia|].
        exists (i :: sizes). rewrite Hrun, <- !app_assoc. simpl.
        split; [reflexivity|]. split.
        -- split; [lia|]. split; [lia|]. exact Hc.
        -- unfold sum in *. simpl. lia.
      * apply Z.ltb_ge in Hlt.
        destruct (IH (i - share) (jobs_n ++ [share]) (jobs_ops ++ [op]) g Hs)
          as (sizes & Hrun & Hc & Hsum); [lia|lia|].
        exists (share :: sizes). rewrite Hrun, <- !app_assoc. simpl.
        split; [reflexivity|]. split.
        -- split; [lia|]. split; [lia|]. exact Hc.
        -- unfold sum in *. simpl. lia.
    + apply Z.ltb_ge in Hpos. assert (i = 0) by lia. subst i.
      exists []. simpl. rewrite !app_nil_r. auto.
Qed.

Lemma partition_for_keys fuel share :
  forall (quotas : list (string * Z)) jobs_n jobs_ops g,
    1 <= share ->
    Forall (fun q => 0 <= snd q /\ (Z.to_nat (snd q) <= fuel)%nat) quotas ->
    exists chunks,
      run_for
        (fun jobs '(op, i) =>
           partition_while fuel op share i (fst jobs) (snd jobs))
        quotas (jobs_n, jobs_ops) g
      = Done (jobs_n ++ concat chunks, jobs_ops ++ jobs_ops_of quotas chunks) g
      /\ Forall2 (fun q sizes => carves share (snd q) sizes /\ sum sizes = snd q)
           quotas chunks.
Proof.
  induction quotas as [|[op i] quotas IH]; intros jobs_n jobs_ops g Hs Hall.
  - exists []. simpl. unfold jobs_ops_of. simpl. rewrite !app_nil_r.
    split; [reflexivity|constructor].
  - apply Forall_cons in Hall as [[Hi Hf] Hall]. simpl in Hi, Hf.
    destruct (partition_while_carves op share fuel i jobs_n jobs_ops g Hs Hi Hf)
      as (sizes & Hrun & Hc & Hsum).
    destruct (IH (jobs_n ++ sizes) (jobs_ops ++ repeat op (length sizes)) g Hs Hall)
      as (chunks & Hrest & Hchunks).
    exists (sizes :: chunks). simpl. unfold bind. simpl. rewrite Hrun, Hrest.
    unfold jobs_ops_of. simpl. rewrite <- !app_assoc.
    split; [reflexivity|]. constructor; [|exact Hchunks]. simpl. auto.
Qed.
(** The share of a job is at least one child exactly when the population
    is at least as large as the number of workers less one. *)
Lemma per_job_share_ge_1 (size workers : Z) :
  1 < workers ->
  1 <= py_int (inject_Z size / inject_Z (workers - 1))%Q <-> workers - 1 <= size.
Proof.
  intros Hw. unfold py_int.
  pose proof (Zdiv_Qdiv size (workers - 1)) as Hfloor.
  assert (Hdiv : 1 <= size / (workers - 1) <-> workers - 1 <= size).
  { clear Hfloor. split; intros H.
    - destruct (Z_lt_le_dec size (workers - 1)) as [Hlt|]; [|assumption].
      assert (size / (workers - 1) < 1)
        by (apply Z.div_lt_upper_bound; lia).
      lia.
    - apply Z.div_le_lower_bound; lia. }
  destruct (Qltb _ 0) eqn:Hneg.
  - apply Qltb_lt, Qlt_le_weak in Hneg.
    pose proof (Qceiling_resp_le _ _ Hneg) as Hc.
    pose proof (Qfloor_resp_le _ _ Hneg) as Hf.
    change (Qceiling 0) with 0 in Hc. change (Qfloor 0) with 0 in Hf.
    rewrite <- Hfloor in Hf. clear Hneg Hfloor.
    revert Hc. generalize (Qceiling (inject_Z size / inject_Z (workers - 1))).
    intros c Hc. lia.
  - rewrite <- Hfloor. exact Hdiv.
Qed.

(** C9.  With a share of at least one child for a job, quotas that are not
    negative and fuel for the largest of them, the job-partition loop of
    [genetics] ends and gives each operator key a sequence of job sizes,
    each the minimum of the remaining quota and the share, that sum to the
    quota of the key; the share [int(population_size / (workers - 1))] is
    at least one exactly when [population_size >= workers - 1]. *)
Theorem partition_jobs_exact :
  (forall fuel (quotas : list (string * Z)) share g,
     1 <= share ->
     Forall (fun q => 0 <= snd q /\ (Z.to_nat (snd q) <= fuel)%nat) quotas ->
     exists chunks,
       partition_jobs fuel quotas share g
       = Done (concat chunks, jobs_ops_of quotas chunks) g
       /\ Forall2 (fun q sizes => carves share (snd q) sizes /\ sum sizes = snd q)
            quotas chunks)
  /\ (forall size workers,
        1 < workers ->
        1 <= py_int (inject_Z size / inject_Z (workers - 1))%Q
        <-> workers - 1 <= size).
Proof.
  split; [|exact per_job_share_ge_1].
  intros fuel quotas share g Hs Hall.
  destruct (partition_for_keys fuel share quotas [] [] g Hs Hall)
    as (chunks & Hrun & Hchunks).
  exists chunks. split; [exact Hrun|exact Hchunks].
Qed.

(** *** More fuel does not change an outcome *)

Lemma with_more_fuel_refl {A : Type} (r : result A) : with_more_fuel r r.
Proof. now right. Qed.

Lemma bind_more_fuel {A B : Type} (m m' : Run A) (k k' : A -> Run B) (g : G) :
  with_more_fuel (m g) (m' g) ->
  (forall a g1, with_more_fuel (k a g1) (k' a g1)) ->
  with_more_fuel (bind m k g) (bind m' k' g).
Proof.
  unfold bind. intros [Hm|Hm] Hk; [rewrite Hm; now left|].
  rewrite <- Hm. destruct (m g) as [a g1| |]; [apply Hk|now right|now left].
Qed.

Lemma run_for_more_fuel {A B : Type} (f f' : B -> A -> Run B) (l : list A) :
  (forall b a g, with_more_fuel (f b a g) (f' b a g)) ->
  forall acc g, with_more_fuel (run_for f l acc g) (run_for f' l acc g).
Proof.
  intros Hf. induction l as [|x l IH]; intros acc g; simpl.
  - apply with_more_fuel_refl.
  - apply bind_more_fuel; [apply Hf|intros; apply IH].
Qed.

Lemma run_map_more_fuel {A B : Type} (f f' : A -> Run B) (l : list A) :
  (forall a g, with_more_fuel (f a g) (f' a g)) ->
  forall g, with_more_fuel (run_map f l g) (run_map f' l g).
Proof.
  intros Hf. induction l as [|x l IH]; intros g; simpl.
  - apply with_more_fuel_refl.
  - apply bind_more_fuel; [apply Hf|]. intros y g1.
    apply bind_more_fuel; [apply IH|]. intros; apply with_more_fuel_refl.
Qed.

Lemma alternation_while_more_fuel p1 p2 ep : forall fuel fuel',
  (fuel <= fuel')%nat ->
  forall res i u lt g,
    with_more_fuel (alternation_while fuel p1 p2 ep res i u lt g)
      (alternation_while fuel' p1 p2 ep res i u lt g).
Proof.
  induction fuel as [|fuel IH]; intros fuel' Hle res i u lt g.
  - destruct fuel'; simpl;
      destruct ((i <? lt) && (Z.of_nat (length res) <? max_points ep));
      (now left) || apply with_more_fuel_refl.
  - destruct fuel' as [|fuel']; [lia|]. simpl.
    destruct ((i <? lt) && (Z.of_nat (length res) <? max_points ep));
      [|apply with_more_fuel_refl].
    apply bind_more_fuel; [apply with_more_fuel_refl|].
    intros [[res' i'] u'] g1. apply IH. lia.
Qed.

Lemma alternation_more_fuel fuel fuel' p1 p2 ep g :
  (fuel <= fuel')%nat ->
  with_more_fuel (alternation fuel p1 p2 ep g) (alternation fuel' p1 p2 ep g).
Proof.
  intros Hle. unfold alternation.
  apply bind_more_fuel; [apply with_more_fuel_refl|].
  intros u g1. now apply alternation_while_more_fuel.
Qed.

Lemma produce_child_more_fuel fuel fuel' population genetic_operators ep g :
  (fuel <= fuel')%nat ->
  with_more_fuel (produce_child fuel population genetic_operators ep g)
    (produce_child fuel' population genetic_operators ep g).
Proof.
  intros Hle. unfold produce_child.
  apply bind_more_fuel; [apply with_more_fuel_refl|].
  intros child g1. apply run_for_more_fuel. clear child g1.
  intros child op g1. unfold produce_child_step.
  destruct (String.eqb op "alternation"); [|apply with_more_fuel_refl].
  apply bind_more_fuel; [apply with_more_fuel_refl|]. intros other g2.
  apply bind_more_fuel; [now apply alternation_more_fuel|].
  intros; apply with_more_fuel_refl.
Qed.

Lemma produce_n_children_more_fuel fuel fuel' n population genetic_operators ep g :
  (fuel <= fuel')%nat ->
  with_more_fuel (produce_n_children fuel n population genetic_operators ep g)
    (produce_n_children fuel' n population genetic_operators ep g).
Proof.
  intros Hle. unfold produce_n_children. apply run_map_more_fuel.
  intros _ g1. now apply produce_child_more_fuel.
Qed.

Lemma partition_while_more_fuel op share : forall fuel fuel',
  (fuel <= fuel')%nat ->
  forall i jobs_n jobs_ops g,
    with_more_fuel (partition_while fuel op share i jobs_n jobs_ops g)
      (partition_while fuel' op share i jobs_n jobs_ops g).
Proof.
  induction fuel as [|fuel IH]; intros fuel' Hle i jobs_n jobs_ops g.
  - destruct fuel'; simpl; destruct (0 <? i);
      (now left) || apply with_more_fuel_refl.
  - destruct fuel' as [|fuel']; [lia|]. simpl.
    destruct (0 <? i); [|apply with_more_fuel_refl].
    destruct (i <? share); apply IH; lia.
Qed.

(** A run of [genetics] that returns or raises does the same with any
    larger bound on the iterations of its loops. *)
Lemma genetics_more_fuel fuel fuel' population ep g :
  (fuel <= fuel')%nat ->
  with_more_fuel (genetics fuel population ep g) (genetics fuel' population ep g).
Proof.
  intros Hle. unfold genetics.
  destruct (parallel_genetics ep && _).
  - destruct (ncpus (pool ep) - 1 =? 0); [apply with_more_fuel_refl|].
    apply bind_more_fuel.
    + unfold partition_jobs. apply run_for_more_fuel.
      intros jobs [op i] g1. now apply partition_while_more_fuel.
    + intros [jobs_n jobs_ops] g1.
      apply bind_more_fuel; [|intros; apply with_more_fuel_refl].
      unfold pool_map_produce_n_children. apply run_map_more_fuel.
      intros [n op] g2. now apply produce_n_children_more_fuel.
  - apply run_for_more_fuel. intros offspring [op n] g1.
    apply run_for_more_fuel. intros offspring' _ g2.
    apply bind_more_fuel; [now apply produce_child_more_fuel|].
    intros; apply with_more_fuel_refl.
Qed.
(** *** Without alternation there is no loop to run out of fuel *)

Lemma run_for_returns {A B : Type} (f : B -> A -> Run B) (l : list A) :
  Forall (fun a => forall b g, f b a g <> OutOfFuel) l ->
  forall acc g, run_for f l acc g <> OutOfFuel.
Proof.
  induction 1 as [|x l Hx _ IH]; intros acc g; simpl; [discriminate|].
  unfold bind. specialize (Hx acc g).
  destruct (f acc x g) as [b g1| |]; [apply IH|discriminate|contradiction].
Qed.

Lemma produce_child_step_returns fuel population ep child op g :
  op <> "alternation"%string ->
  produce_child_step fuel population ep child op g <> OutOfFuel.
Proof.
  intros Hop. unfold produce_child_step. apply String.eqb_neq in Hop. rewrite Hop.
  destruct (String.eqb op "uniform_mutation").
  - unfold bind, lift, ret. now destruct (uniform_mutation _ _ _).
  - destruct (String.eqb op "uniform_close_mutation"); [|discriminate].
    unfold bind, lift, ret. now destruct (uniform_close_mutation _ _ _).
Qed.

Lemma produce_child_returns fuel population genetic_operators ep g :
  ~ In "alternation"%string (split genetic_operators " & ") ->
  produce_child fuel population genetic_operators ep g <> OutOfFuel.
Proof.
  intros Hno. unfold produce_child, bind, lift.
  destruct (selection population ep g) as [child g1].
  apply run_for_returns, List.Forall_forall. intros op Hin c g2.
  apply produce_child_step_returns. intros ->. contradiction.
Qed.

(** Sequential [genetics] whose operator keys do not name alternation
    returns, whatever the fuel. *)
Lemma genetics_sequential_returns fuel population ep g :
  parallel_genetics ep = false \/ (exists w, max_workers ep = Some w /\ w <= 1) ->
  (forall k, is_Some (genetic_operator_probabilities ep !! k) ->
     ~ In "alternation"%string (split k " & ")) ->
  genetics fuel population ep g <> OutOfFuel.
Proof.
  intros Hseq Hkeys. unfold genetics. rewrite (sequential_mode_test ep Hseq).
  apply run_for_returns, List.Forall_forall. intros [op n] Hin offspring g1.
  apply run_for_returns, List.Forall_forall. intros x _ offspring' g2.
  unfold bind.
  assert (Hop : ~ In "alternation"%string (split op " & ")).
  { apply Hkeys. apply list_elem_of_In, elem_of_map_to_list in Hin.
    unfold num_offspring_each_gen_op in Hin. rewrite lookup_fmap in Hin.
    destruct (genetic_operator_probabilities ep !! op); [eauto|discriminate]. }
  pose proof (produce_child_returns fuel population op ep g2 Hop) as Hc.
  destruct (produce_child fuel population op ep g2); [discriminate|discriminate|contradiction].
Qed.

(** *** Loops that end, and one that does not *)

Lemma Qltb_random_random_nonpos (r : Q) (g : G) :
  (r <= 0)%Q -> Qltb (fst (random_random g)) r = false.
Proof.
  intros Hr. destruct (Qltb (fst (random_random g)) r) eqn:E; [|reflexivity].
  apply Qltb_lt in E. destruct (random_random_range g) as [H0 _].
  exfalso. apply (Qlt_not_le _ _ E). now apply Qle_trans with 0%Q.
Qed.

Lemma Qltb_random_random_ge_one (r : Q) (g : G) :
  (1 <= r)%Q -> Qltb (fst (random_random g)) r = true.
Proof.
  intros Hr. apply Qltb_lt. apply Qlt_le_trans with 1%Q; [|exact Hr].
  apply (random_random_range g).
Qed.

(** With a rate of 0 or less the loop of [alternation] copies a gene in
    every iteration, so it ends when the current parent is read through. *)
Lemma alternation_while_returns p1 p2 ep :
  (alternation_rate ep <= 0)%Q ->
  forall fuel (res : list Gene) i (u : bool) g,
    0 <= i ->
    (Z.to_nat (current_length p1 p2 u - i) <= fuel)%nat ->
    exists genome g',
      alternation_while fuel p1 p2 ep res i u (current_length p1 p2 u) g
      = Done genome g'.
Proof.
  intros Hr. induction fuel as [|fuel IH]; intros res i u g Hi Hf.
  - simpl. replace (i <? current_length p1 p2 u) with false
      by (symmetry; apply Z.ltb_ge; lia).
    simpl. unfold ret. eauto.
  - simpl.
    destruct ((i <? current_length p1 p2 u)
              && (Z.of_nat (length res) <? max_points ep)) eqn:Hc;
      [|unfold ret; eauto].
    apply andb_true_iff in Hc as [Hlt _]. apply Z.ltb_lt in Hlt.
    unfold bind at 1. unfold alternation_body, bind, lift, ret, raise.
    pose proof (Qltb_random_random_nonpos _ g Hr) as Hx.
    destruct (random_random g) as [x g1]. simpl in Hx. rewrite Hx.
    destruct (py_index_in_range (if u then p1 else p2) i) as [_ [gene ->]].
    { unfold current_length in Hlt. destruct u; simpl in Hlt; lia. }
    apply (IH (res ++ [gene]) (i + 1) u g1); lia.
Qed.

Lemma alternation_returns fuel p1 p2 ep g :
  (alternation_rate ep <= 0)%Q ->
  (length p1 <= fuel)%nat -> (length p2 <= fuel)%nat ->
  exists genome g', alternation fuel p1 p2 ep g = Done genome g'.
Proof.
  intros Hr H1 H2. unfold alternation, bind, lift.
  destruct (random_choice true [false] g) as [u g1].
  apply (alternation_while_returns p1 p2 ep Hr fuel [] 0 u g1); [lia|].
  unfold current_length. destruct u; simpl; lia.
Qed.

(** With a rate of 1 or more and a deviation of 0 every iteration jumps,
    by 0 positions and without copying a gene: on two parents that are not
    empty and below a positive cap the loop goes on for ever. *)
Lemma alternation_while_stalls p1 p2 ep :
  (1 <= alternation_rate ep)%Q -> (alignment_deviation ep == 0)%Q ->
  0 < max_points ep -> p1 <> [] -> p2 <> [] ->
  forall fuel (u : bool) g,
    alternation_while fuel p1 p2 ep [] 0 u (current_length p1 p2 u) g = OutOfFuel.
Proof.
  intros Hr Hd Hcap Hp1 Hp2.
  assert (Hlen : forall u : bool, (0 <? current_length p1 p2 u) = true).
  { intros u. apply Z.ltb_lt. unfold current_length.
    destruct u, p1, p2; simpl; try contradiction; lia. }
  apply Z.ltb_lt in Hcap.
  induction fuel as [|fuel IH]; intros u g; simpl; rewrite Hlen;
    change (Z.of_nat 0) with 0; rewrite Hcap; simpl; [reflexivity|].
  unfold bind at 1. unfold alternation_body, bind, lift, ret.
  pose proof (Qltb_random_random_ge_one _ g Hr) as Hx.
  destruct (random_random g) as [x g1]. simpl in Hx. rewrite Hx.
  destruct (gaussian_noise_factor g1) as [noise g2].
  rewrite (float_mul_zero_l _ noise Hd). simpl.
  apply (IH (negb u) g2).
Qed.

Lemma alternation_stalls fuel p1 p2 ep g :
  (1 <= alternation_rate ep)%Q -> (alignment_deviation ep == 0)%Q ->
  0 < max_points ep -> p1 <> [] -> p2 <> [] ->
  alternation fuel p1 p2 ep g = OutOfFuel.
Proof.
  intros Hr Hd Hcap Hp1 Hp2. unfold alternation, bind, lift.
  destruct (random_choice true [false] g) as [u g1].
  apply (alternation_while_stalls p1 p2 ep Hr Hd Hcap Hp1 Hp2 fuel u g1).
Qed.

(** [produce_child] does not come to the end of a composite operator that
    begins with such an alternation. *)
Lemma produce_child_stalls fuel population genetic_operators ep g :
  (1 <= alternation_rate ep)%Q -> (alignment_deviation ep == 0)%Q ->
  0 < max_points ep ->
  (forall g0, get_genome (fst (selection population ep g0)) <> []) ->
  (exists rest, split genetic_operators " & " = "alternation"%string :: rest) ->
  produce_child fuel population genetic_operators ep g = OutOfFuel.
Proof.
  intros Hr Hd Hcap Hsel [rest Hops]. unfold produce_child, bind at 1, lift.
  pose proof (Hsel g) as Hc. destruct (selection population ep g) as [child g1].
  simpl in Hc. rewrite Hops. simpl. unfold bind at 1. unfold produce_child_step.
  simpl. unfold bind at 1, lift.
  pose proof (Hsel g1) as Ho. destruct (selection population ep g1) as [other g2].
  simpl in Ho. unfold bind at 1.
  now rewrite (alternation_stalls fuel _ _ ep g2 Hr Hd Hcap Hc Ho).
Qed.

(** An outcome other than [OutOfFuel] is the outcome with more fuel. *)
Lemma with_more_fuel_same {A : Type} (r r' : result A) :
  with_more_fuel r r' -> r <> OutOfFuel -> r' = r.
Proof. intros [H|H] Hr; [contradiction|now symmetry]. Qed.

(** A loop whose iterations each end with enough fuel ends with enough
    fuel. *)
Lemma run_for_eventually {A B : Type} (f : nat -> B -> A -> Run B) (l : list A) :
  (forall fuel fuel' b a g,
     (fuel <= fuel')%nat -> with_more_fuel (f fuel b a g) (f fuel' b a g)) ->
  (forall a b g, exists fuel0, f fuel0 b a g <> OutOfFuel) ->
  forall acc g, exists fuel0, run_for (f fuel0) l acc g <> OutOfFuel.
Proof.
  intros Hmono Hend. induction l as [|x l IH]; intros acc g; simpl.
  - exists 0%nat. discriminate.
  - destruct (Hend x acc g) as [fuel1 H1].
    destruct (f fuel1 acc x g) as [b g1|e|] eqn:E1; [| |contradiction].
    + destruct (IH b g1) as [fuel2 H2].
      exists (Nat.max fuel1 fuel2). unfold bind.
      rewrite (with_more_fuel_same _ _
                 (Hmono fuel1 (Nat.max fuel1 fuel2) acc x g (Nat.le_max_l _ _)))
        by (rewrite E1; discriminate).
      rewrite E1.
      rewrite (with_more_fuel_same _ _
                 (run_for_more_fuel (f fuel2) (f (Nat.max fuel1 fuel2)) l
                    (fun b0 a0 g0 =>
                       Hmono fuel2 (Nat.max fuel1 fuel2) b0 a0 g0 (Nat.le_max_r _ _))
                    b g1) H2).
      exact H2.
    + exists fuel1. unfold bind. rewrite E1. discriminate.
Qed.

Lemma produce_child_step_more_fuel fuel fuel' population ep child op g :
  (fuel <= fuel')%nat ->
  with_more_fuel (produce_child_step fuel population ep child op g)
    (produce_child_step fuel' population ep child op g).
Proof.
  intros Hle. unfold produce_child_step.
  destruct (String.eqb op "alternation"); [|apply with_more_fuel_refl].
  apply bind_more_fuel; [apply with_more_fuel_refl|]. intros other g2.
  apply bind_more_fuel; [now apply alternation_more_fuel|].
  intros; apply with_more_fuel_refl.
Qed.

Lemma produce_child_step_eventually population ep child op g :
  (alternation_rate ep <= 0)%Q ->
  exists fuel0, produce_child_step fuel0 population ep child op g <> OutOfFuel.
Proof.
  intros Hr. destruct (String.eqb op "alternation") eqn:Hop.
  - unfold produce_child_step. rewrite Hop. unfold bind at 1, lift.
    destruct (selection population ep g) as [other g1].
    exists (Nat.max (length (get_genome child)) (length (get_genome other))).
    unfold bind at 1.
    destruct (alternation_returns
                (Nat.max (length (get_genome child)) (length (get_genome other)))
                (get_genome child) (get_genome other) ep g1 Hr
                (Nat.le_max_l _ _) (Nat.le_max_r _ _)) as (genome & g2 & ->).
    discriminate.
  - exists 0%nat. apply produce_child_step_returns. now apply String.eqb_neq.
Qed.

(** The loop over the operator names ends, whatever the fuel, when no name
    that is applied is alternation. *)
Lemma produce_child_for_ops_returns fuel population ep : forall ops child g,
  ~ In "alternation"%string (operators_applied ops) ->
  run_for (produce_child_step fuel population ep) ops child g <> OutOfFuel.
Proof.
  induction ops as [|op ops IH]; intros child g Hno; simpl; [discriminate|].
  simpl in Hno. unfold bind. destruct (known_operator op) eqn:Hk.
  - assert (Hop : op <> "alternation"%string) by (intros ->; apply Hno; now left).
    pose proof (produce_child_step_returns fuel population ep child op g Hop) as Hs.
    destruct (produce_child_step fuel population ep child op g) as [c g1|e|];
      [|discriminate|contradiction].
    apply IH. intros Hin. apply Hno. now right.
  - now rewrite (produce_child_step_unknown fuel population ep child op g Hk).
Qed.

(** [produce_child] ends with enough fuel when the alternation rate is 0
    or less, and whatever the fuel when it applies no alternation. *)
Lemma produce_child_eventually population genetic_operators ep g :
  (alternation_rate ep <= 0)%Q
  \/ ~ In "alternation"%string (operators_applied (split genetic_operators " & ")) ->
  exists fuel0, forall fuel, (fuel0 <= fuel)%nat ->
    produce_child fuel population genetic_operators ep g <> OutOfFuel.
Proof.
  intros [Hr|Hno].
  - assert (H : exists fuel0,
               produce_child fuel0 population genetic_operators ep g <> OutOfFuel).
    { unfold produce_child, bind at 1, lift.
      destruct (selection population ep g) as [child g1].
      apply (run_for_eventually
               (fun fuel => produce_child_step fuel population ep)).
      - intros; now apply produce_child_step_more_fuel.
      - intros op c g0. now apply produce_child_step_eventually. }
    destruct H as [fuel0 H]. exists fuel0. intros fuel Hle.
    now rewrite (with_more_fuel_same _ _
                   (produce_child_more_fuel fuel0 fuel population
                      genetic_operators ep g Hle) H).
  - exists 0%nat. intros fuel _. unfold produce_child, bind, lift.
    destruct (selection population ep g) as [child g1].
    now apply produce_child_for_ops_returns.
Qed.

Lemma operators_applied_incl (ops : list string) (op : string) :
  In op (operators_applied ops) -> In op ops.
Proof.
  induction ops as [|x ops IH]; simpl; [tauto|].
  destruct (known_operator x); simpl; [|tauto]. intros [->|H]; auto.
Qed.

(** What a call of [produce_child] that comes to an end does about
    unsupported names. *)
Lemma produce_child_raises_unknown fuel population genetic_operators ep g :
  produce_child fuel population genetic_operators ep g <> OutOfFuel ->
  ((exists op, produce_child fuel population genetic_operators ep g
               = Raised (UnknownGeneticOperator op))
   <-> (exists op, In op (split genetic_operators " & ")
                   /\ op <> "alternation"%string
                   /\ op <> "uniform_mutation"%string
                   /\ op <> "uniform_close_mutation"%string))
  /\ (forall e,
        produce_child fuel population genetic_operators ep g = Raised e ->
        (exists op, e = UnknownGeneticOperator op
                    /\ first_unknown_operator (split genetic_operators " & ")
                       = Some op
                    /\ In op (split genetic_operators " & ")
                    /\ op <> "alternation"%string
                    /\ op <> "uniform_mutation"%string
                    /\ op <> "uniform_close_mutation"%string)
        /\ forall n, 0 < n ->
             produce_n_children fuel n population genetic_operators ep g
             = Raised e).
Proof.
  intros Hfuel.
  destruct (produce_child_outcome fuel population genetic_operators ep g)
    as [Hout|Hout]; [contradiction|].
  destruct (first_unknown_operator (split genetic_operators " & ")) as [op0|] eqn:Hfu.
  - apply first_unknown_operator_Some in Hfu as [Hin Hk].
    apply known_operator_false in Hk.
    split; [split; eauto|].
    intros e He. split; [|intros n Hn; now apply produce_n_children_raises].
    rewrite Hout in He. injection He as <-. exists op0. tauto.
  - destruct Hout as (c & g' & Hout). split.
    + split.
      * intros [op Hop]. congruence.
      * intros (op & Hin & Hk). apply known_operator_false in Hk.
        pose proof (first_unknown_operator_None _ op Hfu Hin). congruence.
    + intros e He. congruence.
Qed.

(** C8, amended.  When the alternation rate is 0 or less, or no operator
    named before the first unsupported name is alternation, [produce_child]
    comes to an end with enough fuel, and then it raises
    [UnknownGeneticOperator] if and only if the composite operator, split
    on [" & "], contains a name other than ["alternation"],
    ["uniform_mutation"] and ["uniform_close_mutation"]; the error carries
    the first such name of the specification, it is the only error raised,
    and it is passed on unchanged by the caller [produce_n_children].
    Whatever the alternation rate, the same holds of every call that comes
    to an end. *)
Theorem produce_child_unknown_operator population genetic_operators ep g :
  ((alternation_rate ep <= 0)%Q
   \/ ~ In "alternation"%string
          (operators_applied (split genetic_operators " & ")) ->
   exists fuel0, forall fuel, (fuel0 <= fuel)%nat ->
     produce_child fuel population genetic_operators ep g <> OutOfFuel
     /\ ((exists op, produce_child fuel population genetic_operators ep g
                     = Raised (UnknownGeneticOperator op))
         <-> (exists op, In op (split genetic_operators " & ")
                         /\ op <> "alternation"%string
                         /\ op <> "uniform_mutation"%string
                         /\ op <> "uniform_close_mutation"%string))
     /\ (forall e,
           produce_child fuel population genetic_operators ep g = Raised e ->
           (exists op, e = UnknownGeneticOperator op
                       /\ first_unknown_operator (split genetic_operators " & ")
                          = Some op
                       /\ In op (split genetic_operators " & ")
                       /\ op <> "alternation"%string
                       /\ op <> "uniform_mutation"%string
                       /\ op <> "uniform_close_mutation"%string)
           /\ forall n, 0 < n ->
                produce_n_children fuel n population genetic_operators ep g
                = Raised e))
  /\ (forall fuel,
        produce_child fuel population genetic_operators ep g <> OutOfFuel ->
        ((exists op, produce_child fuel population genetic_operators ep g
                     = Raised (UnknownGeneticOperator op))
         <-> (exists op, In op (split genetic_operators " & ")
                         /\ op <> "alternation"%string
                         /\ op <> "uniform_mutation"%string
                         /\ op <> "uniform_close_mutation"%string))
        /\ (forall e,
              produce_child fuel population genetic_operators ep g = Raised e ->
              (exists op, e = UnknownGeneticOperator op
                          /\ first_unknown_operator (split genetic_operators " & ")
                             = Some op
                          /\ In op (split genetic_operators " & ")
                          /\ op <> "alternation"%string
                          /\ op <> "uniform_mutation"%string
                          /\ op <> "uniform_close_mutation"%string)
              /\ forall n, 0 < n ->
                   produce_n_children fuel n population genetic_operators ep g
                   = Raised e)).
Proof.
  split.
  - intros Hend.
    destruct (produce_child_eventually population genetic_operators ep g Hend)
      as [fuel0 Hfuel0].
    exists fuel0. intros fuel Hle. specialize (Hfuel0 fuel Hle).
    split; [exact Hfuel0|].
    now apply produce_child_raises_unknown.
  - intros fuel. apply produce_child_raises_unknown.
Qed.

(** *** The offspring of sequential production *)

(** The loop [for i in range(n)] of sequential mode appends the children
    that [produce_n_children] returns. *)
Lemma genetics_for_range_map fuel population ep op :
  forall (l : list Z) (offspring : list Individual) g,
    run_for
      (fun offspring (_ : Z) =>
         child <- produce_child fuel population op ep ;;
         ret (offspring ++ [child])) l offspring g
    = (children <- run_map (fun _ => produce_child fuel population op ep) l ;;
       ret (offspring ++ children)) g.
Proof.
  induction l as [|x l IH]; intros offspring g; simpl.
  - unfold bind, ret. now rewrite app_nil_r.
  - unfold bind.
    destruct (produce_child fuel population op ep g) as [c g1| |];
      [|reflexivity|reflexivity].
    unfold ret at 1. rewrite IH. unfold bind.
    destruct (run_map _ l g1) as [cs g2| |]; [|reflexivity|reflexivity].
    unfold ret. now rewrite <- app_assoc.
Qed.

(** The loop over the operator keys appends, key after key, the children
    [produce_n_children] returns for the key and its quota. *)
Lemma genetics_for_keys_map fuel population ep :
  forall (quotas : list (string * Z)) (offspring : list Individual) g,
    run_for
      (fun offspring '(op, n) =>
         run_for
           (fun offspring (_ : Z) =>
              child <- produce_child fuel population op ep ;;
              ret (offspring ++ [child]))
           (py_range n) offspring)
      quotas offspring g
    = (groups <- run_map
                   (fun kn => produce_n_children fuel (snd kn) population
                                (fst kn) ep) quotas ;;
       ret (offspring ++ concat groups)) g.
Proof.
  induction quotas as [|[op n] quotas IH]; intros offspring g; simpl.
  - unfold bind, ret. now rewrite app_nil_r.
  - unfold bind at 1. rewrite genetics_for_range_map.
    unfold produce_n_children at 1. unfold bind.
    destruct (run_map _ (py_range n) g) as [cs g1| |]; [|reflexivity|reflexivity].
    unfold ret at 1. rewrite IH. unfold bind.
    destruct (run_map _ quotas g1) as [groups g2| |]; [|reflexivity|reflexivity].
    unfold ret. simpl. now rewrite app_assoc.
Qed.

(** The children of supported operators, key by key: as many as the
    quota, and no error. *)
Lemma produce_n_children_known fuel population ep op :
  first_unknown_operator (split op " & ") = None ->
  forall (l : list Z) g,
    match run_map (fun _ => produce_child fuel population op ep) l g with
    | Done children _ => length children = length l
    | Raised _ => False
    | OutOfFuel => True
    end.
Proof.
  intros Hop. induction l as [|x l IH]; intros g; simpl; [reflexivity|].
  unfold bind at 1.
  destruct (produce_child_outcome fuel population op ep g) as [->|Hout]; [exact I|].
  rewrite Hop in Hout. destruct Hout as (c & g1 & ->).
  unfold bind at 1. specialize (IH g1).
  destruct (run_map _ l g1) as [cs g2| |]; auto.
  unfold ret. simpl. now rewrite IH.
Qed.

Lemma produce_n_children_for_keys fuel population ep :
  forall (quotas : list (string * Z)) g,
    Forall (fun q => first_unknown_operator (split (fst q) " & ") = None) quotas ->
    match run_map
            (fun kn => produce_n_children fuel (snd kn) population (fst kn) ep)
            quotas g with
    | Done groups _ =>
        Forall2 (fun q grp => length grp = Z.to_nat (snd q)) quotas groups
    | Raised _ => False
    | OutOfFuel => True
    end.
Proof.
  induction quotas as [|[op n] quotas IH]; intros g Hall; simpl; [constructor|].
  apply Forall_cons in Hall as [Hop Hall]. simpl in Hop.
  unfold bind at 1. unfold produce_n_children at 1.
  pose proof (produce_n_children_known fuel population ep op Hop (py_range n) g) as Hr.
  destruct (run_map _ (py_range n) g) as [cs g1| |]; auto.
  unfold bind at 1. specialize (IH g1 Hall).
  destruct (run_map _ quotas g1) as [groups g2| |]; auto.
  unfold ret. constructor; [|exact IH]. simpl.
  rewrite Hr. unfold py_range. now rewrite length_map, length_seq.
Qed.

(** The offspring of a sequential [genetics] that returns, by operator
    key. *)
Lemma genetics_sequential_groups fuel population ep g :
  parallel_genetics ep = false \/ (exists w, max_workers ep = Some w /\ w <= 1) ->
  0 <= population_size ep ->
  (forall k p, genetic_operator_probabilities ep !! k = Some p ->
     (0 <= p)%Q /\ Forall (fun op => known_operator op = true) (split k " & ")) ->
  genetics fuel population ep g <> OutOfFuel ->
  exists groups g',
    genetics fuel population ep g = Done (concat groups) g'
    /\ run_map
         (fun kn => produce_n_children fuel (snd kn) population (fst kn) ep)
         (map_to_list (num_offspring_each_gen_op ep)) g
       = Done groups g'
    /\ Forall2
         (fun kp grp =>
            Z.of_nat (length grp)
            = py_round (float_mul (snd kp) (inject_Z (population_size ep))))
         (map_to_list (genetic_operator_probabilities ep)) groups
    /\ Z.of_nat (length (concat groups))
       = sum (List.map
                (fun kp => py_round (float_mul (snd kp)
                                       (inject_Z (population_size ep))))
                (map_to_list (genetic_operator_probabilities ep))).
Proof.
  intros Hseq Hsize Hkeys. unfold genetics.
  rewrite (sequential_mode_test ep Hseq), genetics_for_keys_map.
  pose proof (produce_n_children_for_keys fuel population ep
                (map_to_list (num_offspring_each_gen_op ep)) g) as Hloop.
  match type of Hloop with
  | ?H -> _ => assert (Hall : H)
  end.
  { apply List.Forall_forall. intros [k n] Hin. simpl.
    apply first_unknown_operator_None_iff.
    apply list_elem_of_In, elem_of_map_to_list in Hin.
    unfold num_offspring_each_gen_op in Hin. rewrite lookup_fmap in Hin.
    destruct (genetic_operator_probabilities ep !! k) as [p|] eqn:Hk;
      [|discriminate].
    exact (proj2 (Hkeys k p Hk)). }
  specialize (Hloop Hall). unfold bind.
  destruct (run_map _ (map_to_list (num_offspring_each_gen_op ep)) g)
    as [groups g'| |]; [|contradiction|congruence].
  intros _. exists groups, g'. unfold ret. simpl.
  split; [reflexivity|]. split; [reflexivity|].
  assert (Hgroups : Forall2
            (fun kp grp =>
               Z.of_nat (length grp)
               = py_round (float_mul (snd kp) (inject_Z (population_size ep))))
            (map_to_list (genetic_operator_probabilities ep)) groups).
  { unfold num_offspring_each_gen_op in Hloop.
    rewrite map_to_list_fmap in Hloop. apply Forall2_fmap_l in Hloop.
    apply (Forall2_impl_Forall_l
             (fun kp => genetic_operator_probabilities ep !! fst kp = Some (snd kp))
             _ _ _ _) with (2 := Hloop).
    - apply List.Forall_forall. intros [k p] Hin.
      now apply list_elem_of_In, elem_of_map_to_list in Hin.
    - intros [k p] grp Hk Hlen. simpl in *. rewrite Hlen.
      apply Z2Nat.id, quota_nonneg; [exact (proj1 (Hkeys k p Hk))|exact Hsize]. }
  split; [exact Hgroups|]. now apply length_concat_groups.
Qed.

(** Sequential [genetics] ends with enough fuel when the alternation rate
    is 0 or less, and whatever the fuel when no operator key names
    alternation. *)
Lemma genetics_sequential_eventually population ep g :
  parallel_genetics ep = false \/ (exists w, max_workers ep = Some w /\ w <= 1) ->
  (alternation_rate ep <= 0)%Q
  \/ (forall k, is_Some (genetic_operator_probabilities ep !! k) ->
        ~ In "alternation"%string (split k " & ")) ->
  exists fuel0, forall fuel, (fuel0 <= fuel)%nat ->
    genetics fuel population ep g <> OutOfFuel.
Proof.
  intros Hseq [Hr|Hno].
  - assert (H : exists fuel0, genetics fuel0 population ep g <> OutOfFuel).
    { unfold genetics. rewrite (sequential_mode_test ep Hseq).
      apply (run_for_eventually
               (fun fuel offspring '(op, n) =>
                  run_for
                    (fun offspring (_ : Z) =>
                       child <- produce_child fuel population op ep ;;
                       ret (offspring ++ [child]))
                    (py_range n) offspring)).
      - intros fuel fuel' offspring [op n] g0 Hle.
        apply run_for_more_fuel. intros o _ g1.
        apply bind_more_fuel; [now apply produce_child_more_fuel|].
        intros; apply with_more_fuel_refl.
      - intros [op n] offspring g0.
        apply (run_for_eventually
                 (fun fuel offspring (_ : Z) =>
                    child <- produce_child fuel population op ep ;;
                    ret (offspring ++ [child]))).
        + intros fuel fuel' o _ g1 Hle.
          apply bind_more_fuel; [now apply produce_child_more_fuel|].
          intros; apply with_more_fuel_refl.
        + intros _ o g1.
          destruct (produce_child_eventually population op ep g1 (or_introl Hr))
            as [fuel0 Hfuel0].
          exists fuel0. unfold bind. specialize (Hfuel0 fuel0 (Nat.le_refl _)).
          destruct (produce_child fuel0 population op ep g1);
            [discriminate|discriminate|contradiction]. }
    destruct H as [fuel0 H]. exists fuel0. intros fuel Hle.
    now rewrite (with_more_fuel_same _ _
                   (genetics_more_fuel fuel0 fuel population ep g Hle) H).
  - exists 0%nat. intros fuel _. now apply genetics_sequential_returns.
Qed.

(** Sequential production does not come to an end when an operator key
    with a quota above 0 begins with an alternation that goes on for ever
    and the other keys name supported operators. *)
Lemma genetics_sequential_stalls fuel population ep g :
  parallel_genetics ep = false \/ (exists w, max_workers ep = Some w /\ w <= 1) ->
  (1 <= alternation_rate ep)%Q -> (alignment_deviation ep == 0)%Q ->
  0 < max_points ep ->
  (forall g0, get_genome (fst (selection population ep g0)) <> []) ->
  Forall (fun q => first_unknown_operator (split (fst q) " & ") = None)
    (map_to_list (num_offspring_each_gen_op ep)) ->
  Exists (fun q => 0 < snd q
                   /\ exists rest, split (fst q) " & " = "alternation"%string :: rest)
    (map_to_list (num_offspring_each_gen_op ep)) ->
  genetics fuel population ep g = OutOfFuel.
Proof.
  intros Hseq Hr Hd Hcap Hsel. unfold genetics.
  rewrite (sequential_mode_test ep Hseq), genetics_for_keys_map.
  generalize (map_to_list (num_offspring_each_gen_op ep)). intros quotas.
  revert g. induction quotas as [|[op n] quotas IH]; intros g Hall Hex.
  - inversion Hex.
  - apply Forall_cons in Hall as [Hop Hall]. simpl in Hop.
    simpl. unfold bind at 1. unfold bind at 1.
    apply Exists_cons in Hex as [(Hn & Hrest)|Hex].
    + simpl in Hn, Hrest.
      destruct (py_range_pos n Hn) as [l Hl].
      unfold produce_n_children. rewrite Hl. simpl. unfold bind at 1.
      now rewrite (produce_child_stalls fuel population op ep g Hr Hd Hcap Hsel Hrest).
    + pose proof (produce_n_children_known fuel population ep op Hop (py_range n) g)
        as Hk.
      unfold produce_n_children.
      destruct (run_map _ (py_range n) g) as [cs g1| |];
        [|contradiction|reflexivity].
      specialize (IH g1 Hall Hex). unfold bind in IH. unfold bind at 1.
      destruct (run_map _ quotas g1) as [groups g2| |];
        [discriminate IH|discriminate IH|reflexivity].
Qed.

(** C2, amended.  In sequential mode (parallel genetics disabled, or at
    most one worker), with probabilities that are not negative and
    supported operator names:
    - when the alternation rate is 0 or less, or no operator key names
      alternation, [genetics] returns with enough fuel, and for each
      operator key its offspring are the
      [round(probability * population_size)] children that
      [produce_n_children] returns for the key, the product being the float
      the interpreter computes; the number of offspring is the sum of
      these roundings;
    - for [population_size = 100] and the probabilities
      [{alternation: 0.7, uniform_mutation: 0.3}] every call that returns
      yields exactly 70 + 30 = 100 offspring, and with an alternation rate
      of 0 or less [genetics] returns them with enough fuel;
    - whatever the alternation rate, every call that returns has the
      offspring of the first item. *)
Theorem genetics_sequential_quota :
  (forall population ep g,
     parallel_genetics ep = false
     \/ (exists w, max_workers ep = Some w /\ w <= 1) ->
     0 <= population_size ep ->
     (forall k p, genetic_operator_probabilities ep !! k = Some p ->
        (0 <= p)%Q
        /\ Forall (fun op => known_operator op = true) (split k " & ")) ->
     (alternation_rate ep <= 0)%Q
     \/ (forall k, is_Some (genetic_operator_probabilities ep !! k) ->
           ~ In "alternation"%string (split k " & ")) ->
     exists fuel0, forall fuel, (fuel0 <= fuel)%nat ->
       exists groups g',
         genetics fuel population ep g = Done (concat groups) g'
         /\ run_map
              (fun kn => produce_n_children fuel (snd kn) population (fst kn) ep)
              (map_to_list (num_offspring_each_gen_op ep)) g
            = Done groups g'
         /\ Forall2
              (fun kp grp =>
                 Z.of_nat (length grp)
                 = py_round (float_mul (snd kp) (inject_Z (population_size ep))))
              (map_to_list (genetic_operator_probabilities ep)) groups
         /\ Z.of_nat (length (concat groups))
            = sum (List.map
                     (fun kp => py_round (float_mul (snd kp)
                                            (inject_Z (population_size ep))))
                     (map_to_list (genetic_operator_probabilities ep))))
  /\ (forall population ep g,
        parallel_genetics ep = false
        \/ (exists w, max_workers ep = Some w /\ w <= 1) ->
        population_size ep = 100 ->
        genetic_operator_probabilities ep
        = {[ "alternation"%string := 7 # 10; "uniform_mutation"%string := 3 # 10 ]} ->
        (forall fuel,
           genetics fuel population ep g <> OutOfFuel ->
           exists offspring g',
             genetics fuel population ep g = Done offspring g'
             /\ length offspring = 100%nat)
        /\ ((alternation_rate ep <= 0)%Q ->
            exists fuel0, forall fuel, (fuel0 <= fuel)%nat ->
              exists offspring g',
                genetics fuel population ep g = Done offspring g'
                /\ length offspring = 100%nat))
  /\ (forall fuel population ep g,
        parallel_genetics ep = false
        \/ (exists w, max_workers ep = Some w /\ w <= 1) ->
        0 <= population_size ep ->
        (forall k p, genetic_operator_probabilities ep !! k = Some p ->
           (0 <= p)%Q
           /\ Forall (fun op => known_operator op = true) (split k " & ")) ->
        genetics fuel population ep g <> OutOfFuel ->
        exists groups g',
          genetics fuel population ep g = Done (concat groups) g'
          /\ run_map
               (fun kn => produce_n_children fuel (snd kn) population (fst kn) ep)
               (map_to_list (num_offspring_each_gen_op ep)) g
             = Done groups g'
          /\ Forall2
               (fun kp grp =>
                  Z.of_nat (length grp)
                  = py_round (float_mul (snd kp) (inject_Z (population_size ep))))
               (map_to_list (genetic_operator_probabilities ep)) groups
          /\ Z.of_nat (length (concat groups))
             = sum (List.map
                      (fun kp => py_round (float_mul (snd kp)
                                             (inject_Z (population_size ep))))
                      (map_to_list (genetic_operator_probabilities ep)))).
Proof.
  split; [|split].
  - intros population ep g Hseq Hsize Hkeys Hend.
    destruct (genetics_sequential_eventually population ep g Hseq Hend)
      as [fuel0 Hfuel0].
    exists fuel0. intros fuel Hle.
    exact (genetics_sequential_groups fuel population ep g Hseq Hsize Hkeys
             (Hfuel0 fuel Hle)).
  - intros population ep g Hseq Hsize Hprobs.
    assert (Hany : forall fuel,
              genetics fuel population ep g <> OutOfFuel ->
              exists offspring g',
                genetics fuel population ep g = Done offspring g'
                /\ length offspring = 100%nat).
    { intros fuel Hfuel.
      destruct (genetics_sequential_groups fuel population ep g Hseq)
        as (groups & g' & Hrun & _ & _ & Hlen); [lia| |exact Hfuel|].
      - rewrite Hprobs. intros k p Hk.
        apply lookup_insert_Some in Hk as [[<- <-]|[_ Hk]].
        + split; [discriminate|]. repeat constructor.
        + apply lookup_singleton_Some in Hk as [<- <-].
          split; [discriminate|]. repeat constructor.
      - exists (concat groups), g'. split; [exact Hrun|].
        rewrite Hprobs, Hsize in Hlen.
        apply Nat2Z.inj. rewrite Hlen. vm_compute. reflexivity. }
    split; [exact Hany|]. intros Hr.
    destruct (genetics_sequential_eventually population ep g Hseq (or_introl Hr))
      as [fuel0 Hfuel0].
    exists fuel0. intros fuel Hle. exact (Hany fuel (Hfuel0 fuel Hle)).
  - intros fuel population ep g. apply genetics_sequential_groups.
Qed.

(** ** Further properties of the operators *)

Lemma py_index_In {A : Type} (l : list A) (i : Z) (x : A) :
  py_index l i = Some x -> In x l.
Proof.
  unfold py_index.
  destruct ((0 <=? i) && (i <? Z.of_nat (length l)));
    [apply nth_error_In|].
  destruct ((- Z.of_nat (length l) <=? i) && (i <? 0));
    [apply nth_error_In|discriminate].
Qed.

Lemma alternation_while_from_parents fuel p1 p2 ep : forall res i u lt g genome g',
  Forall (fun gene => In gene p1 \/ In gene p2) res ->
  alternation_while fuel p1 p2 ep res i u lt g = Done genome g' ->
  Forall (fun gene => In gene p1 \/ In gene p2) genome.
Proof.
  induction fuel as [|fuel IH]; intros res i u lt g genome g' Hres; simpl.
  - destruct ((i <? lt) && (Z.of_nat (length res) <? max_points ep));
      [discriminate|]. now intros [= <- <-].
  - destruct ((i <? lt) && (Z.of_nat (length res) <? max_points ep));
      [|now intros [= <- <-]].
    unfold bind at 1.
    destruct (alternation_body p1 p2 ep res i u g) as [[[res' i'] u'] g1| |] eqn:Hb;
      try discriminate.
    apply IH.
    apply alternation_body_Done in Hb as [(-> & _ & _)|(gene & Hg & -> & _ & _)];
      [exact Hres|].
    apply Forall_app. split; [exact Hres|]. constructor; [|constructor].
    apply py_index_In in Hg. destruct u; auto.
Qed.

(** X8.  Every gene of the genome [alternation] returns is a gene of one
    of the two parents. *)
Theorem alternation_genes_from_parents fuel p1 p2 ep g genome g' :
  alternation fuel p1 p2 ep g = Done genome g' ->
  Forall (fun gene => In gene p1 \/ In gene p2) genome.
Proof.
  unfold alternation, bind, lift.
  destruct (random_choice true [false] g) as [u g1].
  apply alternation_while_from_parents. constructor.
Qed.

(** X9.  [alternation] never raises: inside the loop the index is within
    the parent being read, so that a call either returns a genome or is
    still looping when the fuel runs out. *)
Theorem alternation_index_in_range fuel p1 p2 ep g :
  alternation fuel p1 p2 ep g = OutOfFuel
  \/ exists genome g', alternation fuel p1 p2 ep g = Done genome g'.
Proof.
  destruct (alternation fuel p1 p2 ep g) as [genome g'|e|] eqn:E; eauto.
  exfalso. exact (alternation_never_raises _ _ _ _ _ _ E).
Qed.

Lemma alternation_while_exit fuel p1 p2 ep (res : list Gene) i (u : bool) lt g :
  (i <? lt) && (Z.of_nat (length res) <? max_points ep) = false ->
  alternation_while fuel p1 p2 ep res i u lt g = Done res g.
Proof. intros Hc. destruct fuel; simpl; rewrite Hc; reflexivity. Qed.

(** X10.  With a cap [max_points] of 0 or less, or when the parent chosen
    first is empty, [alternation] returns the empty genome, having made
    the one draw that chooses the parent. *)
Theorem alternation_empty fuel p1 p2 ep g :
  max_points ep <= 0
  \/ (if fst (random_choice true [false] g) then p1 else p2) = [] ->
  alternation fuel p1 p2 ep g = Done [] (snd (random_choice true [false] g)).
Proof.
  intros H. unfold alternation, bind, lift.
  destruct (random_choice true [false] g) as [u g1]. simpl in *.
  apply alternation_while_exit.
  apply andb_false_iff. destruct H as [H|H].
  - right. apply Z.ltb_ge. simpl. lia.
  - left. apply Z.ltb_ge. destruct u; simpl; rewrite H; simpl; lia.
Qed.

Lemma string_tweak_for_length ep : forall s new_s g,
  String.length (fst (string_tweak_for s ep new_s g))
  = (String.length new_s + String.length s)%nat.
Proof.
  assert (Hsnoc : forall (t : string) c,
            String.length (t ++ String c EmptyString) = S (String.length t)).
  { induction t as [|a t IH]; intros c; simpl; [reflexivity|]. now rewrite IH. }
  induction s as [|c s IH]; intros new_s g; simpl.
  - unfold rret. simpl. lia.
  - unfold rbind at 1. destruct (random_random g) as [x g1].
    destruct (Qltb x (uniform_mutation_string_char_change_rate ep)).
    + unfold rbind at 1.
      destruct (random_choice "009"%char ("010"%char :: tweak_chars) g1) as [c' g2].
      rewrite IH, Hsnoc. lia.
    + rewrite IH, Hsnoc. lia.
Qed.

(** X11.  [string_tweak] returns a string of the length of its argument:
    characters are replaced one for one. *)
Theorem string_tweak_length s ep g :
  String.length (fst (string_tweak s ep g)) = String.length s.
Proof. unfold string_tweak. now rewrite string_tweak_for_length. Qed.

Lemma rmap_id {A : Type} (f : A -> Rand A) (l : list A) :
  (forall a g, fst (f a g) = a) -> forall g, fst (rmap f l g) = l.
Proof.
  intros Hf. induction l as [|a l IH]; intros g; simpl; [reflexivity|].
  unfold rbind at 1. specialize (Hf a g). destruct (f a g) as [y g1].
  unfold rbind at 1. specialize (IH g1). destruct (rmap f l g1) as [ys g2].
  simpl in *. now subst.
Qed.

(** X12.  With [uniform_mutation_rate = 0] no token is selected:
    [uniform_mutation] returns the genome unchanged. *)
Theorem uniform_mutation_rate_zero genome ep g :
  (uniform_mutation_rate ep == 0)%Q ->
  fst (uniform_mutation genome ep g) = genome.
Proof.
  intros Hr. unfold uniform_mutation. apply rmap_id. clear g.
  intros token g. unfold token_mutator, rbind.
  pose proof (Qltb_random_random_zero _ g Hr) as Hx.
  destruct (random_random g) as [x g1]. simpl in Hx. now rewrite Hx.
Qed.
Lemma rmap_fst_map {A B : Type} (f : A -> Rand B) (h : A -> B) (l : list A) :
  (forall a g, fst (f a g) = h a) -> forall g, fst (rmap f l g) = List.map h l.
Proof.
  intros Hf. induction l as [|a l IH]; intros g; simpl; [reflexivity|].
  unfold rbind at 1. specialize (Hf a g). destruct (f a g) as [y g1].
  unfold rbind at 1. specialize (IH g1). destruct (rmap f l g1) as [ys g2].
  simpl in *. now subst.
Qed.

Lemma rmap_Forall2 {A B : Type} (f : A -> Rand B) (R : A -> B -> Prop) (l : list A) :
  (forall a g, R a (fst (f a g))) -> forall g, Forall2 R l (fst (rmap f l g)).
Proof.
  intros Hf. induction l as [|a l IH]; intros g; simpl; [constructor|].
  unfold rbind at 1. specialize (Hf a g). destruct (f a g) as [y g1].
  unfold rbind at 1. specialize (IH g1). destruct (rmap f l g1) as [ys g2].
  simpl in *. now constructor.
Qed.

Lemma Qltb_random_random_one (r : Q) (g : G) :
  (r == 1)%Q -> Qltb (fst (random_random g)) r = true.
Proof.
  intros Hr. apply Qltb_lt. rewrite Hr. apply (random_random_range g).
Qed.

Lemma close_mutator_step gene ep g :
  closes_step gene (fst (close_mutator gene ep g)).
Proof.
  unfold close_mutator, rbind, rret, closes_step.
  destruct (random_random g) as [x g1].
  destruct (Qltb x (uniform_close_mutation_rate ep)); simpl.
  - destruct (random_random g1) as [y g2].
    destruct (Qltb y (close_increment_rate ep)); simpl; [repeat split; lia|].
    destruct (plush_gene_get_closes gene =? 0) eqn:E; simpl; repeat split; lia.
  - repeat split; lia.
Qed.

(** X13.  Without the ["_close"] marker among [epigenetic_markers],
    [uniform_close_mutation] returns the genome as it is and draws nothing
    from the random source; with the marker and
    [uniform_close_mutation_rate = 0] the genome comes back unchanged as
    well. *)
Theorem uniform_close_mutation_unchanged genome ep g :
  (~ In "_close"%string (epigenetic_markers ep) ->
   uniform_close_mutation genome ep g = (genome, g))
  /\ ((uniform_close_mutation_rate ep == 0)%Q ->
      fst (uniform_close_mutation genome ep g) = genome).
Proof.
  unfold uniform_close_mutation. split.
  - intros Hno.
    destruct (existsb (String.eqb "_close") (epigenetic_markers ep)) eqn:E;
      [|reflexivity].
    apply existsb_exists in E as (m & Hin & Hm). apply String.eqb_eq in Hm.
    subst m. contradiction.
  - intros Hr. destruct (existsb _ _); [|reflexivity]. simpl.
    rewrite (rmap_fst_map _ (fun gene => gene)); [apply map_id|].
    intros gene g0. unfold close_mutator, rbind, rret.
    pose proof (Qltb_random_random_zero _ g0 Hr) as Hx.
    destruct (random_random g0) as [x g1]. simpl in Hx. rewrite Hx.
    now destruct gene.
Qed.

(** X14.  [uniform_close_mutation] changes nothing but close counts, and
    each of them by one at most: the genes of the result are, one for one,
    those of the genome with the same payload, literal flag and silent
    marker. *)
Theorem uniform_close_mutation_step genome ep g :
  Forall2 closes_step genome (fst (uniform_close_mutation genome ep g)).
Proof.
  unfold uniform_close_mutation.
  destruct (existsb _ _); simpl.
  - apply rmap_Forall2. intros gene g0. apply close_mutator_step.
  - apply Forall2_same_length_lookup_2; [reflexivity|].
    intros i x y Hx Hy. assert (x = y) by congruence. subst y.
    unfold closes_step. repeat split. rewrite Z.sub_diag. simpl. lia.
Qed.

(** X15.  With the ["_close"] marker, [uniform_close_mutation_rate = 1] and
    [close_increment_rate = 0], whatever the random source draws every
    close count is decremented, with its floor at 0. *)
Theorem uniform_close_mutation_decrements genome ep g :
  In "_close"%string (epigenetic_markers ep) ->
  (uniform_close_mutation_rate ep == 1)%Q ->
  (close_increment_rate ep == 0)%Q ->
  fst (uniform_close_mutation genome ep g) = List.map decrement_closes genome.
Proof.
  intros Hm Hr Hi. unfold uniform_close_mutation.
  replace (existsb (String.eqb "_close") (epigenetic_markers ep)) with true.
  - simpl. apply rmap_fst_map. intros gene g0.
    unfold close_mutator, rbind, rret.
    pose proof (Qltb_random_random_one _ g0 Hr) as Hx.
    destruct (random_random g0) as [x g1]. simpl in Hx. rewrite Hx.
    pose proof (Qltb_random_random_zero _ g1 Hi) as Hy.
    destruct (random_random g1) as [y g2]. simpl in Hy. rewrite Hy.
    unfold decrement_closes.
    destruct (plush_gene_get_closes gene =? 0); reflexivity.
  - symmetry. apply existsb_exists. exists "_close"%string.
    split; [exact Hm|apply String.eqb_refl].
Qed.

Lemma constant_mutator_literal token ep g :
  plush_gene_is_literal token = true ->
  exists instruction g',
    constant_mutator token ep g
    = (make_plush_gene instruction true (plush_gene_get_closes token)
         (plush_gene_is_silent token), g')
    /\ (match plush_gene_get_instruction token with
        | PyFloat _ | PyInt _ | PyStr _ | PyBool _ => True
        | _ => False
        end ->
        same_type (plush_gene_get_instruction token) instruction = true).
Proof.
  intros Hlit. unfold constant_mutator. rewrite Hlit. unfold rbind at 1.
  match goal with
  | |- context [let (_, _) := ?tweak g in _] =>
      destruct (tweak g) as [instruction g'] eqn:E
  end.
  exists instruction, g'. split; [reflexivity|].
  destruct (plush_gene_get_instruction token) as [x|n|s|b| | |];
    try contradiction; intros _;
    unfold perturb_with_gaussian_noise, random_choice in E;
    unfold rbind, rret in E.
  - destruct (gaussian_noise_factor g). now inversion E.
  - destruct (gaussian_noise_factor g). now inversion E.
  - destruct (string_tweak s ep g). now inversion E.
  - destruct (randbelow _ g). now inversion E.
Qed.

(** X16.  The constant tweak of a literal gene returns a literal gene with
    the close count and silent marker of the original, and, for a float,
    int, str or bool payload, with a payload of the same type; a gene that
    is not a literal is replaced by what the instruction sampler returns. *)
Theorem constant_mutator_keeps_markers token ep g :
  (plush_gene_is_literal token = true ->
   plush_gene_is_literal (fst (constant_mutator token ep g)) = true
   /\ plush_gene_get_closes (fst (constant_mutator token ep g))
      = plush_gene_get_closes token
   /\ plush_gene_is_silent (fst (constant_mutator token ep g))
      = plush_gene_is_silent token
   /\ (match plush_gene_get_instruction token with
       | PyFloat _ | PyInt _ | PyStr _ | PyBool _ => True
       | _ => False
       end ->
       same_type (plush_gene_get_instruction token)
         (plush_gene_get_instruction (fst (constant_mutator token ep g)))
       = true))
  /\ (plush_gene_is_literal token = false ->
      constant_mutator token ep g = random_plush_instruction ep g).
Proof.
  split; intros Hlit.
  - destruct (constant_mutator_literal token ep g Hlit)
      as (instruction & g' & -> & Hty).
    simpl. auto.
  - unfold constant_mutator. now rewrite Hlit.
Qed.

Lemma uniform_close_mutation_length genome ep g :
  length (fst (uniform_close_mutation genome ep g)) = length genome.
Proof.
  unfold uniform_close_mutation. destruct (existsb _ _); simpl;
    [apply rmap_length|reflexivity].
Qed.

Lemma produce_child_for_mutations fuel population ep : forall ops child g,
  Forall (fun op => op = "uniform_mutation"%string
                    \/ op = "uniform_close_mutation"%string) ops ->
  exists c g',
    run_for (produce_child_step fuel population ep) ops child g = Done c g'
    /\ length (get_genome c) = length (get_genome child).
Proof.
  induction ops as [|op ops IH]; intros child g Hops; simpl.
  - unfold ret. eauto.
  - apply Forall_cons in Hops as [Hop Hops]. unfold bind.
    assert (Hstep : exists c g1,
              produce_child_step fuel population ep child op g = Done c g1
              /\ length (get_genome c) = length (get_genome child)).
    { unfold produce_child_step. destruct Hop as [-> | ->]; simpl.
      - unfold bind, lift, ret.
        pose proof (rmap_length (fun gene => token_mutator gene ep) (get_genome child) g) as Hl.
        fold (uniform_mutation (get_genome child) ep) in Hl.
        destruct (uniform_mutation (get_genome child) ep g) as [genome g1].
        exists (new_Individual genome ep), g1. auto.
      - unfold bind, lift, ret.
        pose proof (uniform_close_mutation_length (get_genome child) ep g) as Hl.
        destruct (uniform_close_mutation (get_genome child) ep g) as [genome g1].
        exists (new_Individual genome ep), g1. auto. }
    destruct Hstep as (c & g1 & -> & Hlen).
    destruct (IH c g1 Hops) as (c' & g' & -> & Hlen').
    exists c', g'. split; [reflexivity|congruence].
Qed.

(** X17.  A composite operator made of [uniform_mutation] and
    [uniform_close_mutation] only always yields a child, whatever the
    fuel, and its genome has the length of the genome of the individual
    that selection returned. *)
Theorem produce_child_mutations_keep_length fuel population genetic_operators ep g :
  Forall (fun op => op = "uniform_mutation"%string
                    \/ op = "uniform_close_mutation"%string)
    (split genetic_operators " & ") ->
  exists child g',
    produce_child fuel population genetic_operators ep g = Done child g'
    /\ length (get_genome child)
       = length (get_genome (fst (selection population ep g))).
Proof.
  intros Hops. unfold produce_child, bind, lift.
  destruct (selection population ep g) as [parent g1]. simpl.
  apply produce_child_for_mutations. exact Hops.
Qed.

Lemma run_map_length {A B : Type} (f : A -> Run B) (l : list A) :
  forall g ys g', run_map f l g = Done ys g' -> length ys = length l.
Proof.
  induction l as [|x l IH]; intros g ys g'; simpl.
  - unfold ret. now intros [= <- <-].
  - unfold bind at 1. destruct (f x g) as [y g1| |]; try discriminate.
    unfold bind at 1. destruct (run_map f l g1) as [ys' g2| |] eqn:E; try discriminate.
    unfold ret. intros [= <- <-]. simpl. f_equal. now apply (IH g1 ys' g2).
Qed.

(** X18.  A call of [produce_n_children] that returns yields exactly [n]
    children, and none, without any draw, when [n] is 0 or negative. *)
Theorem produce_n_children_count fuel n population genetic_operators ep g :
  (forall children g',
     produce_n_children fuel n population genetic_operators ep g
     = Done children g' ->
     length children = Z.to_nat n)
  /\ (n <= 0 ->
      produce_n_children fuel n population genetic_operators ep g = Done [] g).
Proof.
  unfold produce_n_children. split.
  - intros children g' Hrun. apply run_map_length in Hrun. rewrite Hrun.
    unfold py_range. now rewrite length_map, length_seq.
  - intros Hn. unfold py_range. replace (Z.to_nat n) with 0%nat by lia. reflexivity.
Qed.
Lemma parallel_mode_test (ep : EvoParams) :
  parallel_genetics ep = true ->
  max_workers ep = None \/ (exists w, max_workers ep = Some w /\ 1 < w) ->
  parallel_genetics ep
  && match max_workers ep with None => true | Some w => 1 <? w end = true.
Proof.
  intros -> [->|(w & -> & Hw)]; [reflexivity|].
  simpl. apply Z.ltb_lt. exact Hw.
Qed.

(** X19.  In parallel mode a pool of exactly one cpu makes [genetics] fail
    with [ZeroDivisionError], before any child is produced: the share of a
    job is computed as [population_size / (ncpus - 1)]. *)
Theorem genetics_parallel_one_cpu fuel population ep g :
  parallel_genetics ep = true ->
  max_workers ep = None \/ (exists w, max_workers ep = Some w /\ 1 < w) ->
  ncpus (pool ep) = 1 ->
  genetics fuel population ep g = Raised ZeroDivisionError.
Proof.
  intros Hpar Hw Hcpu. unfold genetics.
  rewrite (parallel_mode_test ep Hpar Hw), Hcpu. reflexivity.
Qed.

Lemma partition_while_stuck op share : forall fuel i jobs_n jobs_ops g,
  share <= 0 -> 0 < i ->
  partition_while fuel op share i jobs_n jobs_ops g = OutOfFuel.
Proof.
  induction fuel as [|fuel IH]; intros i jobs_n jobs_ops g Hs Hi; simpl;
    replace (0 <? i) with true by (symmetry; apply Z.ltb_lt; lia);
    [reflexivity|].
  replace (i <? share) with false by (symmetry; apply Z.ltb_ge; lia).
  apply IH; lia.
Qed.

Lemma partition_while_never_raises op share : forall fuel i jobs_n jobs_ops g e,
  partition_while fuel op share i jobs_n jobs_ops g <> Raised e.
Proof.
  induction fuel as [|fuel IH]; intros i jobs_n jobs_ops g e; simpl;
    destruct (0 <? i); try discriminate.
  destruct (i <? share); apply IH.
Qed.

Lemma partition_jobs_stuck fuel share : forall quotas jobs g,
  share <= 0 ->
  Exists (fun q => 0 < snd q) quotas ->
  run_for
    (fun jobs '(op, i) => partition_while fuel op share i (fst jobs) (snd jobs))
    quotas jobs g
  = OutOfFuel.
Proof.
  induction quotas as [|[op i] quotas IH]; intros jobs g Hs Hex.
  - inversion Hex.
  - simpl. unfold bind.
    destruct (Z_lt_le_dec 0 i) as [Hpos|Hle].
    + now rewrite partition_while_stuck.
    + apply Exists_cons in Hex as [Hex|Hex]; [simpl in Hex; lia|].
      destruct (partition_while fuel op share i jobs.1 jobs.2 g) as [jobs' g'|e|] eqn:E;
        [now apply IH| |reflexivity].
      exfalso. exact (partition_while_never_raises _ _ _ _ _ _ _ _ E).
Qed.

(** X20.  In parallel mode with more than one cpu, a population smaller
    than [ncpus - 1] gives a share of no child for a job: if some operator
    key has a quota above 0, the partition loop never ends and [genetics]
    does not return, whatever the fuel. *)
Theorem genetics_parallel_never_returns fuel population ep g :
  parallel_genetics ep = true ->
  max_workers ep = None \/ (exists w, max_workers ep = Some w /\ 1 < w) ->
  1 < ncpus (pool ep) ->
  population_size ep < ncpus (pool ep) - 1 ->
  (exists k n, num_offspring_each_gen_op ep !! k = Some n /\ 0 < n) ->
  genetics fuel population ep g = OutOfFuel.
Proof.
  intros Hpar Hw Hcpu Hsize (k & n & Hk & Hn). unfold genetics.
  rewrite (parallel_mode_test ep Hpar Hw).
  replace (ncpus (pool ep) - 1 =? 0) with false by (symmetry; apply Z.eqb_neq; lia).
  unfold bind, partition_jobs. rewrite partition_jobs_stuck; [reflexivity| |].
  - pose proof (per_job_share_ge_1 (population_size ep) (ncpus (pool ep)) Hcpu) as H.
    destruct (Z_lt_le_dec
                (py_int (inject_Z (population_size ep)
                         / inject_Z (ncpus (pool ep) - 1))) 1) as [Hlt|Hge];
      [lia|]. apply H in Hge. lia.
  - apply List.Exists_exists. exists (k, n). split; [|exact Hn].
    apply list_elem_of_In, elem_of_map_to_list. exact Hk.
Qed.
Lemma run_map_Forall2 {A B : Type} (f : A -> Run B) (l : list A) :
  forall g ys g', run_map f l g = Done ys g' ->
    Forall2 (fun x y => exists g1 g2, f x g1 = Done y g2) l ys.
Proof.
  induction l as [|x l IH]; intros g ys g'; simpl.
  - unfold ret. intros [= <- <-]. constructor.
  - unfold bind at 1. destruct (f x g) as [y g1| |] eqn:Ef; try discriminate.
    unfold bind at 1. destruct (run_map f l g1) as [ys' g2| |] eqn:E; try discriminate.
    unfold ret. intros [= <- <-]. constructor; [eauto|]. now apply (IH g1 ys' g2).
Qed.

Lemma fold_left_app_length {A : Type} (ls : list (list A)) (acc : list A) :
  length (fold_left (fun offspring jr => offspring ++ jr) ls acc)
  = (length acc + list_sum (List.map (@length A) ls))%nat.
Proof.
  revert acc. induction ls as [|l ls IH]; intros acc; simpl; [lia|].
  rewrite IH, length_app. lia.
Qed.

Lemma carves_positive share : forall sizes i,
  1 <= share -> carves share i sizes -> Forall (fun n => 0 < n) sizes.
Proof.
  induction sizes as [|n sizes IH]; intros i Hs Hc; [constructor|].
  destruct Hc as (Hi & Hn & Hc). constructor; [lia|]. now apply (IH (i - n)).
Qed.

Lemma sum_app (l1 l2 : list Z) : sum (l1 ++ l2) = sum l1 + sum l2.
Proof. unfold sum. induction l1 as [|a l1 IH]; simpl; lia. Qed.

(** The jobs of the partition: as many operators as sizes, sizes above 0,
    and the quotas as their total. *)
Lemma partition_chunks_total share (quotas : list (string * Z)) chunks :
  1 <= share ->
  Forall2 (fun q sizes => carves share (snd q) sizes /\ sum sizes = snd q)
    quotas chunks ->
  length (jobs_ops_of quotas chunks) = length (concat chunks)
  /\ Forall (fun n => 0 < n) (concat chunks)
  /\ sum (concat chunks) = sum (List.map snd quotas).
Proof.
  intros Hs. unfold jobs_ops_of.
  induction 1 as [|q sizes quotas chunks [Hc Hsum] _ (IH1 & IH2 & IH3)]; simpl.
  - repeat split. constructor.
  - rewrite !length_app, IH1, repeat_length. split; [reflexivity|]. split.
    + apply Forall_app. split; [now apply (carves_positive share sizes (snd q))|exact IH2].
    + rewrite sum_app. unfold sum in *. simpl. lia.
Qed.

(** The children of the jobs, counted. *)
Lemma pool_map_count fuel population ep : forall jobs_n jobs_ops g results g',
  length jobs_ops = length jobs_n ->
  Forall (fun n => 0 < n) jobs_n ->
  pool_map_produce_n_children fuel jobs_n population jobs_ops ep g
  = Done results g' ->
  Z.of_nat (list_sum (List.map (@length Individual) results)) = sum jobs_n.
Proof.
  unfold pool_map_produce_n_children.
  induction jobs_n as [|n jobs_n IH]; intros jobs_ops g results g' Hlen Hpos.
  - simpl. unfold ret. now intros [= <- <-].
  - destruct jobs_ops as [|op jobs_ops]; [discriminate|]. simpl.
    unfold bind at 1.
    destruct (produce_n_children fuel n population op ep g) as [children g1| |] eqn:E;
      try discriminate.
    unfold bind at 1.
    destruct (run_map _ (combine jobs_n jobs_ops) g1) as [rest g2| |] eqn:Er;
      try discriminate.
    unfold ret. intros [= <- <-]. simpl.
    apply Forall_cons in Hpos as [Hn Hpos].
    unfold produce_n_children in E. apply run_map_length in E.
    unfold py_range in E. rewrite length_map, length_seq in E.
    rewrite Nat2Z.inj_add, E.
    rewrite (IH jobs_ops g1 rest g2); [unfold sum; simpl; lia| |exact Hpos|exact Er].
    simpl in Hlen. lia.
Qed.

(** X21.  In parallel mode with more than one cpu, a population of at
    least [ncpus - 1] and probabilities that are not negative, a call of
    [genetics] that returns yields as many offspring as the quotas
    [round(probability * population_size)] of the operator keys add up
    to, the product being the float the interpreter computes; it is the
    number sequential production yields. *)
Theorem genetics_parallel_count fuel population ep g offspring g' :
  parallel_genetics ep = true ->
  max_workers ep = None \/ (exists w, max_workers ep = Some w /\ 1 < w) ->
  1 < ncpus (pool ep) ->
  ncpus (pool ep) - 1 <= population_size ep ->
  (forall k p, genetic_operator_probabilities ep !! k = Some p -> (0 <= p)%Q) ->
  genetics fuel population ep g = Done offspring g' ->
  Z.of_nat (length offspring)
  = sum (List.map
           (fun kp => py_round (float_mul (snd kp) (inject_Z (population_size ep))))
           (map_to_list (genetic_operator_probabilities ep))).
Proof.
  intros Hpar Hw Hcpu Hsize Hprobs. unfold genetics.
  rewrite (parallel_mode_test ep Hpar Hw).
  replace (ncpus (pool ep) - 1 =? 0) with false by (symmetry; apply Z.eqb_neq; lia).
  set (share := py_int (inject_Z (population_size ep)
                        / inject_Z (ncpus (pool ep) - 1))).
  assert (Hshare : 1 <= share)
    by (apply (per_job_share_ge_1 _ _ Hcpu); exact Hsize).
  set (quotas := map_to_list (num_offspring_each_gen_op ep)).
  assert (Hquotas : Forall (fun q => 0 <= snd q) quotas).
  { apply List.Forall_forall. intros [k n] Hin. simpl.
    apply list_elem_of_In, elem_of_map_to_list in Hin.
    unfold num_offspring_each_gen_op in Hin. rewrite lookup_fmap in Hin.
    destruct (genetic_operator_probabilities ep !! k) as [p|] eqn:Hk;
      [|discriminate].
    injection Hin as <-. apply quota_nonneg; [exact (Hprobs k p Hk)|lia]. }
  pose (big := Z.to_nat (sum (List.map snd quotas))).
  assert (Hbig : Forall (fun q => 0 <= snd q /\ (Z.to_nat (snd q) <= fuel + big)%nat)
                   quotas).
  { subst big. clear -Hquotas. induction Hquotas as [|q l Hq Hl IH]; [constructor|].
    assert (Hsum : 0 <= sum (List.map snd l)).
    { clear -Hl. induction Hl as [|a l Ha _ IH]; unfold sum in *; simpl; lia. }
    change (sum (List.map snd (q :: l))) with (snd q + sum (List.map snd l)).
    constructor; [split; [exact Hq|lia]|].
    eapply Forall_impl; [exact IH|]. intros a [H1 H2]. simpl in H2. split; [exact H1|lia]. }
  destruct (partition_for_keys (fuel + big) share quotas [] [] g Hshare Hbig)
    as (chunks & Hrun & Hchunks).
  destruct (partition_chunks_total share quotas chunks Hshare Hchunks)
    as (Hlen & Hpos & Htotal).
  unfold bind at 1.
  pose proof (run_for_more_fuel
                (fun jobs '(op, i) =>
                   partition_while fuel op share i (fst jobs) (snd jobs))
                (fun jobs '(op, i) =>
                   partition_while (fuel + big) op share i (fst jobs) (snd jobs))
                quotas) as Hmore.
  specialize (Hmore ltac:(intros jobs [op i] g0; apply partition_while_more_fuel; lia)
                ([], []) g).
  unfold partition_jobs. rewrite Hrun in Hmore.
  destruct Hmore as [-> | ->]; [discriminate|]. simpl.
  unfold bind at 1.
  destruct (pool_map_produce_n_children fuel (concat chunks) population
              (jobs_ops_of quotas chunks) ep g) as [results g1| |] eqn:Epool;
    try discriminate.
  unfold ret. intros [= <- <-].
  rewrite fold_left_app_length. simpl.
  rewrite (pool_map_count _ _ _ _ _ _ _ _ Hlen Hpos Epool), Htotal.
  subst quotas. unfold num_offspring_each_gen_op.
  rewrite map_to_list_fmap. f_equal.
  rewrite <- list_fmap_compose. apply map_ext. now intros [k p].
Qed.
(** The children of one key in sequential mode: the loop ends with an
    [UnknownGeneticOperator] error, or with children, and with children
    only when there was none to produce or the key names supported
    operators. *)
Lemma genetics_for_range_outcome fuel population ep op :
  forall (l : list Z) (offspring : list Individual) g,
    match run_for
            (fun offspring (_ : Z) =>
               child <- produce_child fuel population op ep ;;
               ret (offspring ++ [child])) l offspring g with
    | Done _ _ => l = [] \/ first_unknown_operator (split op " & ") = None
    | Raised e => exists x, e = UnknownGeneticOperator x /\ known_operator x = false
    | OutOfFuel => True
    end.
Proof.
  induction l as [|x l IH]; intros offspring g; simpl; [now left|].
  unfold bind at 1. unfold bind at 1.
  destruct (produce_child_outcome fuel population op ep g) as [->|Hout]; [exact I|].
  destruct (first_unknown_operator (split op " & ")) as [bad|] eqn:Hfu.
  - rewrite Hout. apply first_unknown_operator_Some in Hfu as [_ Hk]. eauto.
  - destruct Hout as (c & g1 & ->). unfold ret at 1.
    specialize (IH (offspring ++ [c]) g1).
    destruct (run_for _ l (offspring ++ [c]) g1); auto.
Qed.

Lemma genetics_for_keys_outcome fuel population ep :
  forall (quotas : list (string * Z)) (offspring : list Individual) g,
    match run_for
            (fun offspring '(op, n) =>
               run_for
                 (fun offspring (_ : Z) =>
                    child <- produce_child fuel population op ep ;;
                    ret (offspring ++ [child]))
                 (py_range n) offspring)
            quotas offspring g with
    | Done _ _ =>
        Forall (fun q => snd q <= 0
                         \/ first_unknown_operator (split (fst q) " & ") = None)
          quotas
    | Raised e => exists x, e = UnknownGeneticOperator x /\ known_operator x = false
    | OutOfFuel => True
    end.
Proof.
  induction quotas as [|[op n] quotas IH]; intros offspring g; simpl;
    [constructor|].
  unfold bind at 1.
  pose proof (genetics_for_range_outcome fuel population ep op (py_range n)
                offspring g) as Hr.
  destruct (run_for _ (py_range n) offspring g) as [o1 g1| |]; auto.
  specialize (IH o1 g1).
  destruct (run_for _ quotas o1 g1) as [o g'| |]; auto.
  constructor; [|exact IH]. simpl. destruct Hr as [Hr|Hr]; [|now right].
  left. unfold py_range in Hr. apply (f_equal (@length Z)) in Hr.
  rewrite length_map, length_seq in Hr. simpl in Hr. lia.
Qed.

(** X22.  In sequential mode, when some operator key with a quota above 0
    names an operator that is not supported, a call of [genetics] that
    returns raises [UnknownGeneticOperator] with an unsupported name: no
    offspring is returned, and no other error is raised. *)
Theorem genetics_sequential_unknown_operator fuel population ep g :
  parallel_genetics ep = false \/ (exists w, max_workers ep = Some w /\ w <= 1) ->
  (exists k n, num_offspring_each_gen_op ep !! k = Some n /\ 0 < n
               /\ first_unknown_operator (split k " & ") <> None) ->
  genetics fuel population ep g <> OutOfFuel ->
  exists op,
    genetics fuel population ep g = Raised (UnknownGeneticOperator op)
    /\ op <> "alternation"%string /\ op <> "uniform_mutation"%string
    /\ op <> "uniform_close_mutation"%string.
Proof.
  intros Hseq (k & n & Hk & Hn & Hbad). unfold genetics.
  rewrite (sequential_mode_test ep Hseq).
  pose proof (genetics_for_keys_outcome fuel population ep
                (map_to_list (num_offspring_each_gen_op ep)) [] g) as Hr.
  destruct (run_for _ (map_to_list (num_offspring_each_gen_op ep)) [] g)
    as [o g'|e|]; intros Hfuel.
  - exfalso. rewrite List.Forall_forall in Hr.
    specialize (Hr (k, n)). simpl in Hr.
    destruct Hr as [Hr|Hr]; [|lia|contradiction].
    apply list_elem_of_In, elem_of_map_to_list. exact Hk.
  - destruct Hr as (x & -> & Hx). exists x. split; [reflexivity|].
    now apply known_operator_false.
  - contradiction.
Qed.

End Operators.

Arguments Done {G A} a g.
Arguments Raised {G A} e.
Arguments OutOfFuel {G A}.

(** ** Properties of the program tree *)

Section AtomsFacts.

Import Atoms.

Lemma code_at_point_block (els : list Atom) (ndx : Z) :
  code_at_point els ndx
  = if ndx =? 0 then Some (CodeBlock els) else code_at_point_loop els ndx.
Proof.
  unfold code_at_point. simpl. destruct (ndx =? 0); reflexivity.
Qed.

Lemma code_at_point_rec_block (c : list Atom) (i : Z) :
  i <> 0 -> code_at_point_rec (CodeBlock c) i = code_at_point_loop c i.
Proof.
  intros Hi. change (code_at_point_rec (CodeBlock c) i) with (code_at_point c i).
  rewrite code_at_point_block. apply Z.eqb_neq in Hi. now rewrite Hi.
Qed.

(** The [depth] argument of [size] has no effect on the result. *)
Lemma size_term_depth (el : Atom) : forall d d', size_term d el = size_term d' el.
Proof.
  induction el as [| | | |els IH] using Atom_ind; intros d d'; try reflexivity.
  simpl. f_equal. f_equal.
  induction IH as [|x xs Hx _ IHxs]; simpl; [reflexivity|].
  f_equal; [apply Hx|apply IHxs].
Qed.

Lemma size_cons (el : Atom) (rest : list Atom) :
  size (el :: rest)
  = (match el with CodeBlock c => size c + 1 | _ => 1 end) + size rest.
Proof.
  unfold size, size_at. simpl. f_equal.
  destruct el; try reflexivity. simpl. f_equal. f_equal.
  apply map_ext. intros a. apply size_term_depth.
Qed.

Lemma size_nil : size [] = 0.
Proof. reflexivity. Qed.

Lemma size_nonneg (l : list Atom) : 0 <= size l.
Proof.
  enough (H : forall a, match a with CodeBlock c => 0 <= size c | _ => True end).
  { induction l as [|a l IH]; [rewrite size_nil; lia|].
    rewrite size_cons. specialize (H a). destruct a; lia. }
  induction a as [| | | |els IH] using Atom_ind; try exact I.
  induction IH as [|x xs Hx _ IHxs]; [rewrite size_nil; lia|].
  rewrite size_cons. destruct x; lia.
Qed.

Lemma loop_in_range_cons (el : Atom) (rest : list Atom) :
  match el with CodeBlock c => loop_in_range c | _ => True end ->
  loop_in_range rest ->
  loop_in_range (el :: rest).
Proof.
  intros Hel Hrest i. rewrite size_cons.
  pose proof (size_nonneg rest) as Hr.
  simpl. destruct (i - 1 =? 0) eqn:E1.
  - apply Z.eqb_eq in E1. split; [eauto|].
    intros [H|H]; [lia|]. destruct el; try lia.
    pose proof (size_nonneg elements). lia.
  - apply Z.eqb_neq in E1. destruct el as [| | | |c].
    1-4: split; intros H; apply (Hrest (i - 1)); lia.
    pose proof (size_nonneg c) as Hc.
    rewrite code_at_point_rec_block by exact E1.
    destruct (Hel (i - 1)) as [Hin Hout].
    destruct (Z_le_gt_dec (i - 1) 0) as [Hneg|Hpos].
    + rewrite Hout by (left; exact Hneg).
      split; intros H; apply (Hrest (i - 1 - size c)); lia.
    + destruct (Z_le_gt_dec (i - 1) (size c)) as [Hle|Hgt].
      * destruct Hin as [a Ha]; [lia|]. rewrite Ha.
        split; [eauto|]. intros H; lia.
      * rewrite Hout by (right; lia).
        split; intros H; apply (Hrest (i - 1 - size c)); lia.
Qed.

Lemma loop_in_range_all (l : list Atom) : loop_in_range l.
Proof.
  enough (H : forall a, match a with CodeBlock c => loop_in_range c | _ => True end).
  { induction l as [|a l IH].
    - intros i. rewrite size_nil. simpl. split; [lia|reflexivity].
    - apply loop_in_range_cons; [apply H|exact IH]. }
  induction a as [| | | |els IH] using Atom_ind; try exact I.
  induction IH as [|x xs Hx _ IHxs].
  - intros i. rewrite size_nil. simpl. split; [lia|reflexivity].
  - apply loop_in_range_cons; [exact Hx|exact IHxs].
Qed.

(** The points of a block are those at the indices from 0 to its size. *)
Lemma code_at_point_is_Some (T : list Atom) (n : Z) :
  is_Some (code_at_point T n) <-> 0 <= n <= size T.
Proof.
  rewrite code_at_point_block. pose proof (size_nonneg T) as Hs.
  destruct (n =? 0) eqn:E.
  - apply Z.eqb_eq in E. split; [lia|eauto].
  - apply Z.eqb_neq in E. destruct (loop_in_range_all T n) as [Hin Hout]. split.
    + intros Hsome. destruct (Z_le_gt_dec n 0) as [Hn|Hn].
      * rewrite Hout in Hsome by (left; exact Hn). now destruct Hsome.
      * destruct (Z_le_gt_dec n (size T)) as [Hle|Hgt]; [lia|].
        rewrite Hout in Hsome by (right; lia). now destruct Hsome.
    + intros Hn. apply Hin. lia.
Qed.

(** C3, amended.  For every block [T], [code_at_point(0)] returns [T]
    itself and [code_at_point(size(T) + 1)] is out of range (returns
    nothing); the indices in range are exactly those from 0 to [size(T)],
    so that [code_at_point(size(T))] is in range. *)
Theorem code_at_point_size_consistency (T : list Atom) :
  code_at_point T 0 = Some (CodeBlock T)
  /\ code_at_point T (size T + 1) = None
  /\ (forall n, is_Some (code_at_point T n) <-> 0 <= n <= size T).
Proof.
  split; [reflexivity|]. split; [|apply code_at_point_is_Some].
  destruct (code_at_point T (size T + 1)) as [a|] eqn:E; [|reflexivity].
  assert (H : is_Some (code_at_point T (size T + 1))) by (rewrite E; eauto).
  apply code_at_point_is_Some in H. lia.
Qed.

(** C3 as stated fails: the index [size(T)] is in range, it is the index of
    the last point. *)
Lemma code_at_point_size_in_range :
  code_at_point literal_5_add (size literal_5_add)
  = Some (InstructionMeta "add" 0)
  /\ code_at_point literal_5_add (size literal_5_add) <> None.
Proof. split; [reflexivity|discriminate]. Qed.

Lemma depth_nil : depth [] = 0.
Proof. reflexivity. Qed.

Lemma depth_cons (x : Atom) (l : list Atom) :
  depth (x :: l) = depth_loop 1 (chain_from_iterable (x :: l)).
Proof. unfold depth. now rewrite depth_loop_equation_2. Qed.

Lemma chain_from_iterable_leaves (l : list Atom) :
  Forall (fun a => is_Sequence a = false) l -> chain_from_iterable l = [].
Proof.
  unfold chain_from_iterable.
  induction 1 as [|a k Ha _ IH]; [reflexivity|]. simpl. now rewrite Ha.
Qed.

(** A block that is not empty and holds leaves only has depth 1. *)
Lemma depth_leaves (l : list Atom) :
  l <> [] -> Forall (fun a => is_Sequence a = false) l -> depth l = 1.
Proof.
  intros Hne Hleaves. destruct l as [|x l]; [contradiction|].
  rewrite depth_cons, (chain_from_iterable_leaves _ Hleaves). reflexivity.
Qed.

(** C4, amended.  The block of the two leaves [Literal(5)] and
    [InstructionReference("add")] has size 2 and depth 1. *)
Theorem literal_5_add_size_depth :
  size literal_5_add = 2 /\ depth literal_5_add = 1.
Proof. split; reflexivity. Qed.

(** C4 as stated fails: the depth of the block is 1, not 0. *)
Lemma literal_5_add_depth_not_0 :
  size literal_5_add = 2 /\ depth literal_5_add <> 0.
Proof. split; [reflexivity|discriminate]. Qed.

End AtomsFacts.

(** ** The runtime functions on small inputs *)

Example split_two_operators :
  split "alternation & uniform_mutation" " & "
  = ["alternation"%string; "uniform_mutation"%string].
Proof. reflexivity. Qed.

Example split_empty_string : split "" " & " = [""%string].
Proof. reflexivity. Qed.

Example split_empty_pieces :
  split "a &  & b & " " & " = ["a"%string; ""%string; "b"%string; ""%string].
Proof. reflexivity. Qed.

Example py_round_ties :
  List.map py_round [1 # 2; 3 # 2; 5 # 2; -1 # 2; -3 # 2; 7 # 10; -7 # 10]%Q
  = [0; 2; 2; 0; -2; 1; -1].
Proof. reflexivity. Qed.

Example round_binary64_nearest :
  (Qred (round_binary64 (1 # 10)), Qred (round_binary64 (inject_Z (2 ^ 53 + 1))),
   Qred (round_binary64 (1 # 2)))
  = (3602879701896397 # 36028797018963968, inject_Z (2 ^ 53), 1 # 2)%Q.
Proof. vm_compute. reflexivity. Qed.

(** [round(0.575 * 100)] is 57 and [round(0.35 * 10)] is 4: the float
    products are 57.49999999999999 and 3.5, where the decimals multiply to
    57.5 and the floats nearest to them to a number below 3.5. *)
Example float_mul_quotas :
  List.map (fun pn : Q * Z => py_round (float_mul (fst pn) (inject_Z (snd pn))))
    [((23 # 40)%Q, 100); ((35 # 100)%Q, 10); ((7 # 10)%Q, 100); ((3 # 10)%Q, 100)]
  = [57; 4; 70; 30]
  /\ py_round ((23 # 40) * inject_Z 100) = 58
  /\ py_round (round_binary64 (35 # 100) * inject_Z 10) = 3.
Proof. repeat split; vm_compute; reflexivity. Qed.

Example py_int_truncates : (py_int (7 # 2), py_int (-7 # 2)) = (3, -3).
Proof. reflexivity. Qed.

Example py_index_negative :
  (py_index [10; 20; 30] (-1), py_index [10; 20; 30] 3, py_index [10; 20; 30] (-4))
  = (Some 30, None, None).
Proof. reflexivity. Qed.

Example quotas_of_sample_params :
  map_to_list (num_offspring_each_gen_op (sample_params 3 0))
  = [("uniform_mutation"%string, 30); ("alternation"%string, 70)].
Proof. reflexivity. Qed.

Example depth_of_nested_blocks :
  (Atoms.depth [], Atoms.depth [Atoms.CodeBlock []],
   Atoms.depth [Atoms.CodeBlock [Atoms.Input 0; Atoms.CodeBlock []]; Atoms.Closer])
  = (0, 1, 2).
Proof. reflexivity. Qed.

(** ** Runs on the sample inputs *)

(** The run of [alternation] under [jump_script] returns two genes, within
    the cap of three. *)
Lemma alternation_length_le_max_points_witness :
  0 <= max_points (sample_params 3 (1 # 2))
  /\ alternation 10 sample_parent_1 sample_parent_2 (sample_params 3 (1 # 2))
       jump_script
     = Done [int_gene 1; int_gene 9]
         {| script_random := [9 # 10; 9 # 10; 9 # 10; 1 # 10; 9 # 10];
            script_below := [0%nat]; script_gauss := [1 # 1] |}
  /\ Z.of_nat (length [int_gene 1; int_gene 9])
     <= max_points (sample_params 3 (1 # 2)).
Proof.
  assert (H0 : 0 <= max_points (sample_params 3 (1 # 2))) by (simpl; lia).
  assert (Hrun : alternation 10 sample_parent_1 sample_parent_2
                   (sample_params 3 (1 # 2)) jump_script
                 = Done [int_gene 1; int_gene 9]
                     {| script_random := [9 # 10; 9 # 10; 9 # 10; 1 # 10; 9 # 10];
                        script_below := [0%nat]; script_gauss := [1 # 1] |})
    by reflexivity.
  split; [exact H0|]. split; [exact Hrun|].
  exact (alternation_length_le_max_points 10 sample_parent_1 sample_parent_2
           (sample_params 3 (1 # 2)) jump_script _ _ H0 Hrun).
Defined.

(** The scripted selection returns a member of the sample population,
    whose genomes are not empty. *)
Lemma script_selection_sample_population (ep : EvoParams) (g : Script) :
  get_genome (fst (script_selection sample_population ep g)) <> [].
Proof.
  unfold script_selection, script_randbelow.
  destruct (script_below g) as [|k ks]; [discriminate|].
  change (length sample_population) with 2%nat.
  cbv beta iota zeta delta [fst].
  pose proof (Nat.mod_upper_bound k 2 ltac:(lia)) as Hk.
  destruct (k mod 2)%nat as [|[|n]]; [discriminate|discriminate|lia].
Qed.

Lemma quotas_of_stalled_params :
  map_to_list (num_offspring_each_gen_op stalled_params)
  = [("uniform_mutation"%string, 30); ("alternation"%string, 70)].
Proof. reflexivity. Qed.

(** C2 as stated fails: in sequential mode, for a population of 100 and
    the probabilities [{alternation: 0.7, uniform_mutation: 0.3}], with an
    alternation rate of 1 and a deviation of 0 no call of [genetics]
    returns, whatever the fuel and the draws: after the 30 mutants the
    first alternation goes on for ever. *)
Lemma genetics_sequential_never_returns :
  parallel_genetics stalled_params = false
  /\ population_size stalled_params = 100
  /\ genetic_operator_probabilities stalled_params
     = {[ "alternation"%string := 7 # 10; "uniform_mutation"%string := 3 # 10 ]}
  /\ forall fuel (g : Script),
       genetics script_selection script_random_plush_instruction fuel
         sample_population stalled_params g
       = OutOfFuel.
Proof.
  split; [reflexivity|]. split; [reflexivity|]. split; [reflexivity|].
  intros fuel g. apply genetics_sequential_stalls.
  - left. reflexivity.
  - discriminate.
  - reflexivity.
  - simpl. lia.
  - intros g0. apply script_selection_sample_population.
  - rewrite quotas_of_stalled_params.
    apply List.Forall_cons; [reflexivity|].
    apply List.Forall_cons; [reflexivity|]. apply List.Forall_nil.
  - rewrite quotas_of_stalled_params.
    apply Exists_cons. right. apply Exists_cons. left.
    split; [simpl; lia|]. exists []. reflexivity.
Qed.

(** Sequential [genetics] on the sample population: with an alternation
    rate of 0 it returns 100 children, 30 and 70 by operator key, for all
    fuel from some bound on; at a rate of 1/2 the run under [jump_script]
    with fuel 10 returns, and has 100 children, in groups that add up to
    100. *)
Lemma genetics_sequential_quota_witness :
  ((alternation_rate (sample_params 5 0) <= 0)%Q
   /\ 0 <= population_size (sample_params 5 0)
   /\ exists fuel0, forall fuel, (fuel0 <= fuel)%nat ->
        exists groups g',
          genetics script_selection script_random_plush_instruction fuel
            sample_population (sample_params 5 0) empty_script
          = Done (concat groups) g'
          /\ List.map (@length Individual) groups = [30%nat; 70%nat]
          /\ Z.of_nat (length (concat groups)) = 100)
  /\ (exists fuel0, forall fuel, (fuel0 <= fuel)%nat ->
        exists offspring g',
          genetics script_selection script_random_plush_instruction fuel
            sample_population (sample_params 5 0) empty_script
          = Done offspring g'
          /\ length offspring = 100%nat)
  /\ (exists offspring g',
        genetics script_selection script_random_plush_instruction 10
          sample_population (sample_params 5 (1 # 2)) jump_script
        = Done offspring g'
        /\ length offspring = 100%nat)
  /\ (genetics script_selection script_random_plush_instruction 10
        sample_population (sample_params 5 (1 # 2)) jump_script <> OutOfFuel
      /\ exists groups g',
           genetics script_selection script_random_plush_instruction 10
             sample_population (sample_params 5 (1 # 2)) jump_script
           = Done (concat groups) g'
           /\ Z.of_nat (length (concat groups)) = 100).
Proof.
  assert (Hkeys : forall rate k p,
            genetic_operator_probabilities (sample_params 5 rate) !! k = Some p ->
            (0 <= p)%Q
            /\ Forall (fun op => known_operator op = true) (split k " & ")).
  { intros rate k p Hk. unfold sample_params in Hk. simpl in Hk.
    apply lookup_insert_Some in Hk as [[<- <-]|[_ Hk]].
    - split; [discriminate|].
      change (split "alternation" " & ") with ["alternation"%string].
      apply List.Forall_cons; [reflexivity|apply List.Forall_nil].
    - apply lookup_singleton_Some in Hk as [<- <-].
      split; [discriminate|].
      change (split "uniform_mutation" " & ") with ["uniform_mutation"%string].
      apply List.Forall_cons; [reflexivity|apply List.Forall_nil]. }
  assert (Hr : (alternation_rate (sample_params 5 0) <= 0)%Q) by discriminate.
  assert (Hsize : forall rate, 0 <= population_size (sample_params 5 rate))
    by (intros rate; simpl; lia).
  assert (Hfuel : genetics script_selection script_random_plush_instruction 10
                    sample_population (sample_params 5 (1 # 2)) jump_script
                  <> OutOfFuel) by (vm_compute; discriminate).
  destruct (genetics_sequential_quota script_selection
              script_random_plush_instruction) as (Hreturns & Htable & Hshape).
  split; [|split; [|split]].
  - split; [exact Hr|]. split; [exact (Hsize 0%Q)|].
    destruct (Hreturns sample_population (sample_params 5 0) empty_script
                (or_introl eq_refl) (Hsize 0%Q) (Hkeys 0%Q) (or_introl Hr))
      as [fuel0 H].
    exists fuel0. intros fuel Hle.
    destruct (H fuel Hle) as (groups & g' & Hrun & _ & Hgroups & Hlen).
    exists groups, g'. split; [exact Hrun|]. split; [|exact Hlen].
    clear -Hgroups.
    change (map_to_list (genetic_operator_probabilities (sample_params 5 0)))
      with [("uniform_mutation"%string, 3 # 10); ("alternation"%string, 7 # 10)]
      in Hgroups.
    inversion Hgroups as [|kp1 grp1 l1 k1 H1 Hrest]; subst.
    inversion Hrest as [|kp2 grp2 l2 k2 H2 Hnil]; subst.
    inversion Hnil; subst. simpl.
    change (Z.of_nat (length grp1) = 30) in H1.
    change (Z.of_nat (length grp2) = 70) in H2.
    f_equal; [lia|]. f_equal. lia.
  - exact (proj2 (Htable sample_population (sample_params 5 0) empty_script
                    (or_introl eq_refl) eq_refl eq_refl) Hr).
  - exact (proj1 (Htable sample_population (sample_params 5 (1 # 2)) jump_script
                    (or_introl eq_refl) eq_refl eq_refl) 10%nat Hfuel).
  - split; [exact Hfuel|].
    destruct (Hshape 10%nat sample_population (sample_params 5 (1 # 2)) jump_script
                (or_introl eq_refl) (Hsize (1 # 2)) (Hkeys (1 # 2)) Hfuel)
      as (groups & g' & Hrun & _ & _ & Hlen).
    exists groups, g'. split; [exact Hrun|]. exact Hlen.
Defined.

(** C5 as stated fails: with a cap of 3 and no jumps, the four genes of
    parent 1 come back as the first three. *)
Lemma alternation_rate_zero_truncates_parent_1 :
  (alternation_rate (sample_params 3 0) == 0)%Q
  /\ fst (random_choice true [false] empty_script) = true
  /\ alternation 10 sample_parent_1 sample_parent_2 (sample_params 3 0)
       empty_script
     = Done [int_gene 1; int_gene 2; int_gene 3] empty_script
  /\ [int_gene 1; int_gene 2; int_gene 3] <> sample_parent_1.
Proof.
  split; [reflexivity|]. split; [reflexivity|]. split; [reflexivity|].
  discriminate.
Qed.

(** With a cap of 5 the four genes of parent 1 come back unchanged. *)
Lemma alternation_rate_zero_returns_parent_1_witness :
  (alternation_rate (sample_params 5 0) == 0)%Q
  /\ fst (random_choice true [false] empty_script) = true
  /\ Z.of_nat (length sample_parent_1) <= max_points (sample_params 5 0)
  /\ (length sample_parent_1 <= 10)%nat
  /\ exists g',
       alternation 10 sample_parent_1 sample_parent_2 (sample_params 5 0)
         empty_script
       = Done sample_parent_1 g'.
Proof.
  assert (Hr : (alternation_rate (sample_params 5 0) == 0)%Q) by reflexivity.
  assert (Hu : fst (random_choice true [false] empty_script) = true)
    by reflexivity.
  assert (Hcap : Z.of_nat (length sample_parent_1)
                 <= max_points (sample_params 5 0)) by (simpl; lia).
  assert (Hf : (length sample_parent_1 <= 10)%nat) by (simpl; lia).
  repeat (split; [assumption|]).
  exact (alternation_rate_zero_returns_parent_1 10 sample_parent_1
           sample_parent_2 (sample_params 5 0) empty_script Hr Hu Hcap Hf).
Defined.

(** A gene with close count 0, selected for change and for decrement,
    keeps close count 0. *)
Lemma close_mutator_closes_nonneg_witness :
  0 <= plush_gene_get_closes (int_gene 1)
  /\ 0 <= plush_gene_get_closes
            (fst (close_mutator (int_gene 1) (sample_params 5 0)
                    decrement_script))
  /\ plush_gene_get_closes
       (fst (close_mutator (int_gene 1) (sample_params 5 0) decrement_script))
     = 0.
Proof.
  assert (H0 : 0 <= plush_gene_get_closes (int_gene 1)) by (simpl; lia).
  destruct (close_mutator_closes_nonneg (int_gene 1) (sample_params 5 0)
              decrement_script H0) as [Hge Hzero].
  split; [exact H0|]. split; [exact Hge|].
  apply Hzero; [reflexivity|reflexivity|].
  intros H. vm_compute in H. discriminate H.
Defined.

(** C8 as stated fails: ["alternation & crossover"] contains the
    unsupported name ["crossover"], yet with an alternation rate of 1 and a
    deviation of 0 no call of [produce_child] raises, whatever the fuel and
    the draws: the alternation before it goes on for ever. *)
Lemma produce_child_unknown_operator_not_raised :
  (In "crossover"%string (split "alternation & crossover" " & ")
   /\ "crossover"%string <> "alternation"%string
   /\ "crossover"%string <> "uniform_mutation"%string
   /\ "crossover"%string <> "uniform_close_mutation"%string)
  /\ forall fuel (g : Script),
       produce_child script_selection script_random_plush_instruction fuel
         sample_population "alternation & crossover" stalled_params g
       = OutOfFuel.
Proof.
  split.
  - split; [right; left; reflexivity|]. repeat split; discriminate.
  - intros fuel g. apply produce_child_stalls.
    + discriminate.
    + reflexivity.
    + simpl. lia.
    + intros g0. apply script_selection_sample_population.
    + exists ["crossover"%string]. reflexivity.
Qed.

(** Composite operators with the unsupported name ["crossover"]: after an
    alternation at rate 0, and after a mutation at rate 1/2, the error is
    raised for all fuel from some bound on, and it names ["crossover"];
    after an alternation at rate 1/2 the run under [jump_script] with fuel
    10 comes to an end, and raises it. *)
Lemma produce_child_unknown_operator_witness :
  ((alternation_rate (sample_params 3 0) <= 0)%Q
   /\ exists fuel0, forall fuel, (fuel0 <= fuel)%nat ->
        produce_child script_selection script_random_plush_instruction fuel
          sample_population "alternation & crossover" (sample_params 3 0)
          jump_script
        = Raised (UnknownGeneticOperator "crossover"))
  /\ (~ In "alternation"%string
          (operators_applied (split "uniform_mutation & crossover" " & "))
      /\ exists fuel0, forall fuel, (fuel0 <= fuel)%nat ->
           produce_child script_selection script_random_plush_instruction fuel
             sample_population "uniform_mutation & crossover"
             (sample_params 3 (1 # 2)) jump_script
           = Raised (UnknownGeneticOperator "crossover")
           /\ produce_n_children script_selection script_random_plush_instruction
                fuel 2 sample_population "uniform_mutation & crossover"
                (sample_params 3 (1 # 2)) jump_script
              = Raised (UnknownGeneticOperator "crossover"))
  /\ (produce_child script_selection script_random_plush_instruction 10
        sample_population "alternation & crossover" (sample_params 3 (1 # 2))
        jump_script <> OutOfFuel
      /\ produce_child script_selection script_random_plush_instruction 10
           sample_population "alternation & crossover" (sample_params 3 (1 # 2))
           jump_script
         = Raised (UnknownGeneticOperator "crossover")).
Proof.
  assert (Hr : (alternation_rate (sample_params 3 0) <= 0)%Q) by discriminate.
  assert (Hno : ~ In "alternation"%string
                    (operators_applied (split "uniform_mutation & crossover" " & "))).
  { change (operators_applied (split "uniform_mutation & crossover" " & "))
      with ["uniform_mutation"%string].
    intros [H|[]]. discriminate H. }
  assert (Hfuel : produce_child script_selection script_random_plush_instruction
                    10 sample_population "alternation & crossover"
                    (sample_params 3 (1 # 2)) jump_script <> OutOfFuel)
    by (vm_compute; discriminate).
  split; [|split].
  - split; [exact Hr|].
    destruct (proj1 (produce_child_unknown_operator script_selection
                       script_random_plush_instruction sample_population
                       "alternation & crossover" (sample_params 3 0) jump_script)
                (or_introl Hr)) as [fuel0 H].
    exists fuel0. intros fuel Hle.
    destruct (H fuel Hle) as (_ & Hiff & Hall).
    destruct (proj2 Hiff) as [op Hop].
    { exists "crossover"%string. split; [right; left; reflexivity|].
      repeat split; discriminate. }
    destruct (Hall _ Hop) as ((op' & He & Hfirst & _) & _).
    change (first_unknown_operator (split "alternation & crossover" " & "))
      with (Some "crossover"%string) in Hfirst.
    injection Hfirst as Hname. subst op'. rewrite Hop, He. reflexivity.
  - split; [exact Hno|].
    destruct (proj1 (produce_child_unknown_operator script_selection
                       script_random_plush_instruction sample_population
                       "uniform_mutation & crossover" (sample_params 3 (1 # 2))
                       jump_script) (or_intror Hno)) as [fuel0 H].
    exists fuel0. intros fuel Hle.
    destruct (H fuel Hle) as (_ & Hiff & Hall).
    destruct (proj2 Hiff) as [op Hop].
    { exists "crossover"%string. split; [right; left; reflexivity|].
      repeat split; discriminate. }
    destruct (Hall _ Hop) as ((op' & He & Hfirst & _) & Hn).
    change (first_unknown_operator (split "uniform_mutation & crossover" " & "))
      with (Some "crossover"%string) in Hfirst.
    injection Hfirst as Hname. subst op'.
    split; [rewrite Hop, He; reflexivity|].
    rewrite <- He. apply Hn. lia.
  - split; [exact Hfuel|].
    destruct (proj2 (produce_child_unknown_operator script_selection
                       script_random_plush_instruction sample_population
                       "alternation & crossover" (sample_params 3 (1 # 2))
                       jump_script) 10%nat Hfuel) as (Hiff & Hall).
    destruct (proj2 Hiff) as [op Hop].
    { exists "crossover"%string. split; [right; left; reflexivity|].
      repeat split; discriminate. }
    destruct (Hall _ Hop) as ((op' & He & Hfirst & _) & _).
    change (first_unknown_operator (split "alternation & crossover" " & "))
      with (Some "crossover"%string) in Hfirst.
    injection Hfirst as Hname. subst op'. rewrite Hop, He. reflexivity.
Defined.

(** Quotas of 70 and 30 carved with a share of 33. *)
Lemma partition_jobs_exact_witness :
  1 <= 33
  /\ Forall (fun q => 0 <= snd q /\ (Z.to_nat (snd q) <= 70)%nat)
       [("alternation"%string, 70); ("uniform_mutation"%string, 30)]
  /\ exists chunks,
       partition_jobs 70
         [("alternation"%string, 70); ("uniform_mutation"%string, 30)] 33
         empty_script
       = Done
           (concat chunks,
            jobs_ops_of
              [("alternation"%string, 70); ("uniform_mutation"%string, 30)]
              chunks)
           empty_script
       /\ Forall2
            (fun q sizes => carves 33 (snd q) sizes /\ sum sizes = snd q)
            [("alternation"%string, 70); ("uniform_mutation"%string, 30)]
            chunks.
Proof.
  assert (Hs : 1 <= 33) by lia.
  assert (Hq : Forall (fun q => 0 <= snd q /\ (Z.to_nat (snd q) <= 70)%nat)
                 [("alternation"%string, 70); ("uniform_mutation"%string, 30)])
    by (repeat constructor; simpl; lia).
  split; [exact Hs|]. split; [exact Hq|].
  exact (proj1 (partition_jobs_exact (G:=Script)) 70%nat _ 33 empty_script Hs Hq).
Defined.

(** A literal gene whose payload is a list. *)
Lemma constant_mutator_other_payload_witness :
  plush_gene_is_literal (make_plush_gene (PyList [PyInt 1]) true 2 true) = true
  /\ constant_mutator script_random_plush_instruction
       (make_plush_gene (PyList [PyInt 1]) true 2 true) (sample_params 5 0)
       jump_script
     = (make_plush_gene PyNone true 2 true, jump_script).
Proof.
  split; [reflexivity|].
  exact (constant_mutator_other_payload script_random_plush_instruction
           (make_plush_gene (PyList [PyInt 1]) true 2 true) (sample_params 5 0)
           jump_script eq_refl I).
Defined.

(** ** More on the program tree *)

Section AtomsTraversal.

Import Atoms.

Lemma size_app (l1 l2 : list Atom) : size (l1 ++ l2) = size l1 + size l2.
Proof.
  induction l1 as [|a l1 IH]; [rewrite size_nil; simpl; lia|].
  simpl. rewrite !size_cons, IH. lia.
Qed.

Lemma length_points (a : Atom) :
  Z.of_nat (length (points a)) = size_of_element a
  /\ match a with
     | CodeBlock c => Z.of_nat (length (List.flat_map points c)) = size c
     | _ => True
     end.
Proof.
  induction a as [| | | |els IH] using Atom_ind; try (split; [reflexivity|exact I]).
  assert (H : Z.of_nat (length (List.flat_map points els)) = size els).
  { induction IH as [|x xs [Hx _] _ IHxs]; [reflexivity|].
    change (List.flat_map points (x :: xs))
      with (points x ++ List.flat_map points xs).
    rewrite length_app, size_cons, Nat2Z.inj_add, Hx, IHxs. reflexivity. }
  split; [|exact H]. simpl. unfold size_of_element. lia.
Qed.

Lemma length_flat_map_points (l : list Atom) :
  Z.of_nat (length (List.flat_map points l)) = size l.
Proof. exact (proj2 (length_points (CodeBlock l))). Qed.

Lemma loop_reads_points_cons (el : Atom) (rest : list Atom) :
  match el with CodeBlock c => loop_reads_points c | _ => True end ->
  loop_reads_points rest ->
  loop_reads_points (el :: rest).
Proof.
  intros Hel Hrest i. simpl code_at_point_loop.
  change (List.flat_map points (el :: rest))
    with (points el ++ List.flat_map points rest).
  destruct (i - 1 =? 0) eqn:E1.
  - apply Z.eqb_eq in E1. replace (0 <? i) with true by (symmetry; apply Z.ltb_lt; lia).
    rewrite E1. destruct el; reflexivity.
  - apply Z.eqb_neq in E1.
    destruct (0 <? i) eqn:Hi.
    + apply Z.ltb_lt in Hi.
      assert (Hrest' : forall j, 0 < j ->
                code_at_point_loop rest j
                = nth_error (List.flat_map points rest) (Z.to_nat (j - 1))).
      { intros j Hj. rewrite Hrest.
        now replace (0 <? j) with true by (symmetry; apply Z.ltb_lt; lia). }
      destruct el as [| | | |c].
      1-4: rewrite Hrest' by lia; simpl;
           replace (Z.to_nat (i - 1)) with (S (Z.to_nat (i - 1 - 1))) by lia;
           reflexivity.
      rewrite code_at_point_rec_block by exact E1. rewrite Hel.
      replace (0 <? i - 1) with true by (symmetry; apply Z.ltb_lt; lia).
      pose proof (length_flat_map_points c) as Hlen.
      pose proof (size_nonneg c) as Hc.
      simpl points.
      replace (Z.to_nat (i - 1)) with (S (Z.to_nat (i - 1 - 1))) by lia.
      simpl nth_error.
      destruct (nth_error (List.flat_map points c) (Z.to_nat (i - 1 - 1)))
        as [a|] eqn:En.
      * rewrite nth_error_app1; [now rewrite En|].
        apply nth_error_Some. congruence.
      * apply nth_error_None in En.
        rewrite nth_error_app2 by exact En.
        rewrite Hrest' by lia. f_equal. lia.
    + apply Z.ltb_ge in Hi.
      assert (Hrest' : forall j, j <= 0 -> code_at_point_loop rest j = None).
      { intros j Hj. rewrite Hrest.
        now replace (0 <? j) with false by (symmetry; apply Z.ltb_ge; lia). }
      destruct el as [| | | |c].
      1-4: apply Hrest'; lia.
      rewrite code_at_point_rec_block by exact E1. rewrite Hel.
      replace (0 <? i - 1) with false by (symmetry; apply Z.ltb_ge; lia).
      apply Hrest'. pose proof (size_nonneg c). lia.
Qed.

Lemma loop_reads_points_all (l : list Atom) : loop_reads_points l.
Proof.
  enough (H : forall a, match a with CodeBlock c => loop_reads_points c | _ => True end).
  { induction l as [|a l IH].
    - intros i. simpl. destruct (0 <? i); [now destruct (Z.to_nat (i - 1))|reflexivity].
    - apply loop_reads_points_cons; [apply H|exact IH]. }
  induction a as [| | | |els IH] using Atom_ind; try exact I.
  induction IH as [|x xs Hx _ IHxs].
  - intros i. simpl. destruct (0 <? i); [now destruct (Z.to_nat (i - 1))|reflexivity].
  - apply loop_reads_points_cons; [exact Hx|exact IHxs].
Qed.

Lemma code_at_point_points (T : list Atom) (ndx : Z) :
  code_at_point T ndx
  = if 0 <=? ndx then nth_error (points (CodeBlock T)) (Z.to_nat ndx) else None.
Proof.
  rewrite code_at_point_block. destruct (ndx =? 0) eqn:E.
  - apply Z.eqb_eq in E. subst ndx. reflexivity.
  - apply Z.eqb_neq in E. rewrite (loop_reads_points_all T ndx).
    destruct (0 <? ndx) eqn:Hpos.
    + apply Z.ltb_lt in Hpos.
      replace (0 <=? ndx) with true by (symmetry; apply Z.leb_le; lia).
      simpl points.
      replace (Z.to_nat ndx) with (S (Z.to_nat (ndx - 1))) by lia. reflexivity.
    + apply Z.ltb_ge in Hpos.
      now replace (0 <=? ndx) with false by (symmetry; apply Z.leb_gt; lia).
Qed.

(** X1.  [code_at_point(ndx)] is the point at position [ndx] of the
    depth-first traversal of the block, the block itself first; a negative
    [ndx] gives nothing. *)
Theorem code_at_point_depth_first (T : list Atom) (ndx : Z) :
  code_at_point T ndx
  = if 0 <=? ndx then nth_error (points (CodeBlock T)) (Z.to_nat ndx) else None.
Proof. apply code_at_point_points. Qed.

(** X2.  [size()] is the number of points of the block below the block
    itself, whatever the [depth] argument it is called with. *)
Theorem size_counts_points (T : list Atom) (depth : Z) :
  size_at T depth = Z.of_nat (length (points (CodeBlock T))) - 1.
Proof.
  transitivity (size T).
  - unfold size, size_at. f_equal. apply map_ext. intros a. apply size_term_depth.
  - simpl. rewrite <- (length_flat_map_points T). lia.
Qed.

End AtomsTraversal.

Section AtomsDepth.

Import Atoms.

Lemma max_nesting_nonneg (l : list Atom) : 0 <= max_nesting l.
Proof. unfold max_nesting. induction l; simpl; lia. Qed.

Lemma max_nesting_app (l1 l2 : list Atom) :
  max_nesting (l1 ++ l2) = Z.max (max_nesting l1) (max_nesting l2).
Proof.
  pose proof (max_nesting_nonneg l2) as H2. unfold max_nesting in *.
  induction l1 as [|a l1 IH]; simpl; [lia|]. rewrite IH. lia.
Qed.

Lemma nesting_block (l : list Atom) :
  nesting (CodeBlock l) = match l with [] => 0 | _ :: _ => 1 + max_nesting l end.
Proof. destruct l; reflexivity. Qed.

Lemma nesting_block_app (l1 l2 : list Atom) :
  nesting (CodeBlock (l1 ++ l2))
  = Z.max (nesting (CodeBlock l1)) (nesting (CodeBlock l2)).
Proof.
  pose proof (max_nesting_nonneg l1) as H1.
  pose proof (max_nesting_nonneg l2) as H2.
  rewrite !nesting_block.
  destruct l1 as [|x xs]; [simpl app; destruct l2; lia|].
  destruct l2 as [|y ys]; [rewrite app_nil_r; lia|].
  change ((x :: xs) ++ y :: ys) with (x :: (xs ++ y :: ys)).
  change (x :: (xs ++ y :: ys)) with ((x :: xs) ++ y :: ys) at 2.
  rewrite max_nesting_app. lia.
Qed.

(** The deepest element of a level is as deep as the block of the next
    level, the one [depth] chains together. *)
Lemma max_nesting_chain (l : list Atom) :
  max_nesting l = nesting (CodeBlock (chain_from_iterable l)).
Proof.
  induction l as [|a l IH]; [reflexivity|].
  change (max_nesting (a :: l)) with (Z.max (nesting a) (max_nesting l)).
  pose proof (max_nesting_nonneg l).
  destruct a as [| | | |c];
    try (change (chain_from_iterable (_ :: l)) with (chain_from_iterable l);
         rewrite <- IH; simpl nesting; lia).
  change (chain_from_iterable (CodeBlock c :: l)) with (c ++ chain_from_iterable l).
  rewrite nesting_block_app, <- IH. reflexivity.
Qed.

Lemma depth_loop_nesting (level : Z) (i : list Atom) :
  depth_loop level i = level + nesting (CodeBlock i).
Proof.
  funelim (depth_loop level i).
  - simpl. lia.
  - match goal with IH : depth_loop _ _ = _ + nesting _ |- _ => rewrite IH end.
    rewrite <- max_nesting_chain, nesting_block. lia.
Qed.

(** X3.  [depth()] is the nesting depth of the block: 0 for the empty
    block, and otherwise one more than the depth of its deepest nested
    block (one, when it holds leaves only). *)
Theorem depth_is_nesting (T : list Atom) :
  depth T = nesting (CodeBlock T)
  /\ (depth T = 0 <-> T = [])
  /\ (T <> [] ->
      depth T
      = 1 + fold_right Z.max 0
              (List.map (fun el => match el with CodeBlock c => depth c | _ => 0 end) T)).
Proof.
  assert (Hd : forall l, depth l = nesting (CodeBlock l)).
  { intros l. unfold depth. rewrite depth_loop_nesting. lia. }
  split; [apply Hd|]. split.
  - rewrite Hd, nesting_block. pose proof (max_nesting_nonneg T).
    destruct T; split; intros; try reflexivity; try discriminate; lia.
  - intros Hne. rewrite Hd, nesting_block. destruct T as [|x xs]; [contradiction|].
    f_equal. unfold max_nesting. f_equal. apply map_ext.
    intros [| | | |c]; try reflexivity. symmetry. apply Hd.
Qed.

End AtomsDepth.

Section AtomsInsertion.

Import Atoms.

Variable code : Atom.

Lemma attempt_code_insert_block (els : list Atom) (i : Z) :
  _attempt_code_insert (CodeBlock els) code i
  = attempt_code_insert_loop els code 0 els i.
Proof. reflexivity. Qed.

Lemma attempt_code_insert_loop_nil (els : list Atom) (idx : nat) (i : Z) :
  attempt_code_insert_loop els code idx [] i
  = if i =? 0 then (true, els ++ [code]) else (false, els).
Proof. reflexivity. Qed.

Lemma attempt_code_insert_loop_cons (els : list Atom) (idx : nat) (el : Atom)
    (rest : list Atom) (i : Z) :
  attempt_code_insert_loop els code idx (el :: rest) i
  = if i =? 0 then (true, firstn idx els ++ [code] ++ skipn idx els)
    else
      match el with
      | CodeBlock c =>
          let (inserted, new) := _attempt_code_insert el code (i - 1) in
          if inserted then (true, <[idx := CodeBlock new]> els)
          else attempt_code_insert_loop els code (S idx) rest (i - (size c + 1) - 1)
      | _ => attempt_code_insert_loop els code (S idx) rest (i - 1)
      end.
Proof. reflexivity. Qed.

Lemma size_singleton (a : Atom) : size [a] = size_of_element a.
Proof. rewrite size_cons, size_nil. unfold size_of_element. destruct a; lia. Qed.

Lemma size_of_element_pos (a : Atom) : 1 <= size_of_element a.
Proof. destruct a; simpl; try lia. pose proof (size_nonneg elements). lia. Qed.

(** A negative index is never found: the receiver comes back as it is. *)
Lemma attempt_code_insert_negative (a : Atom) :
  forall i, i < 0 -> _attempt_code_insert a code i = (false, iter a).
Proof.
  induction a as [| | | |els IH] using Atom_ind; try reflexivity.
  intros i Hi. rewrite attempt_code_insert_block. simpl iter.
  generalize 0%nat. revert i Hi.
  enough (H : forall l, Forall (fun a => forall i, i < 0 ->
                                  _attempt_code_insert a code i = (false, iter a)) l ->
                forall i, i < 0 -> forall idx,
                  attempt_code_insert_loop els code idx l i = (false, els)).
  { intros i Hi idx. now apply H. }
  clear IH. induction 1 as [|el rest Hel _ IHrest]; intros i Hi idx;
    [rewrite attempt_code_insert_loop_nil|rewrite attempt_code_insert_loop_cons].
  - now replace (i =? 0) with false by (symmetry; apply Z.eqb_neq; lia).
  - replace (i =? 0) with false by (symmetry; apply Z.eqb_neq; lia).
    destruct el as [| | | |c]; try (apply IHrest; lia).
    rewrite Hel by lia. apply IHrest. pose proof (size_nonneg c). lia.
Qed.

Lemma inserted_into_middle (pre l : list Atom) :
  inserted_into code (pre ++ l) (pre ++ [code] ++ l).
Proof.
  split.
  - rewrite !size_app, size_singleton. lia.
  - rewrite !flat_map_app. apply in_or_app. right. apply in_or_app. left.
    simpl. rewrite app_nil_r. destruct code; left; reflexivity.
Qed.

Lemma inserted_into_nested (pre rest c new : list Atom) :
  inserted_into code c new ->
  inserted_into code (pre ++ CodeBlock c :: rest) (pre ++ CodeBlock new :: rest).
Proof.
  intros [Hsize Hin]. split.
  - rewrite !size_app, !size_cons. lia.
  - rewrite flat_map_app. apply in_or_app. right. simpl. right.
    apply in_or_app. left. exact Hin.
Qed.

Lemma attempt_code_insert_loop_ok (els : list Atom) :
  forall l,
    Forall (fun a => match a with
                     | CodeBlock c =>
                         forall i, 0 <= i ->
                           attempt_ok code c c i (_attempt_code_insert a code i)
                     | _ => True
                     end) l ->
    forall pre i, els = pre ++ l -> 0 <= i ->
      attempt_ok code els l i (attempt_code_insert_loop els code (length pre) l i).
Proof.
  induction 1 as [|el rest Hel _ IHrest]; intros pre i Hels Hi.
  - rewrite attempt_code_insert_loop_nil.
    destruct (i =? 0) eqn:E; split; simpl; try discriminate.
    + intros _. rewrite app_nil_r in Hels. subst pre.
      rewrite <- (app_nil_r (els ++ [code])), <- app_assoc.
      rewrite <- (app_nil_r els) at 1. apply inserted_into_middle.
    + reflexivity.
    + apply Z.eqb_neq in E. rewrite size_nil. lia.
  - rewrite attempt_code_insert_loop_cons. destruct (i =? 0) eqn:E.
    + split; [|reflexivity]. intros _. simpl snd. subst els.
      rewrite take_app_length, drop_app_length. apply inserted_into_middle.
    + apply Z.eqb_neq in E.
      assert (Hnext : forall j, 0 <= j ->
                attempt_ok code els rest j
                  (attempt_code_insert_loop els code (S (length pre)) rest j)).
      { intros j Hj. replace (S (length pre)) with (length (pre ++ [el]))
          by (rewrite length_app; simpl; lia).
        apply IHrest; [|exact Hj]. rewrite <- app_assoc. exact Hels. }
      destruct el as [| | | |c].
      1-4: destruct (Hnext (i - 1) ltac:(lia)) as [H1 H2]; split; [exact H1|];
           rewrite size_cons; intros; apply H2; lia.
      specialize (Hel (i - 1) ltac:(lia)).
      destruct (_attempt_code_insert (CodeBlock c) code (i - 1)) as [inserted new].
      destruct Hel as [Hins Hsucc]. simpl in Hins, Hsucc.
      destruct inserted.
      * split; [|reflexivity]. intros _. simpl snd. subst els.
        replace (<[length pre:=CodeBlock new]> (pre ++ CodeBlock c :: rest))
          with (pre ++ CodeBlock new :: rest).
        -- apply inserted_into_nested. now apply Hins.
        -- rewrite insert_app_r_alt by lia. now rewrite Nat.sub_diag.
      * assert (Hgt : size c < i - 1).
        { destruct (Z_lt_le_dec (size c) (i - 1)) as [?|Hle]; [assumption|].
          specialize (Hsucc Hle). discriminate. }
        pose proof (size_nonneg c).
        destruct (Hnext (i - (size c + 1) - 1) ltac:(lia)) as [H1 H2].
        split; [exact H1|]. rewrite size_cons. intros. apply H2. lia.
Qed.

Lemma attempt_code_insert_ok (a : Atom) :
  match a with
  | CodeBlock c =>
      forall i, 0 <= i -> attempt_ok code c c i (_attempt_code_insert a code i)
  | _ => True
  end.
Proof.
  induction a as [| | | |els IH] using Atom_ind; try exact I.
  intros i Hi. rewrite attempt_code_insert_block.
  apply (attempt_code_insert_loop_ok els els IH []); [reflexivity|exact Hi].
Qed.

(** X4.  The edges of [with_code_inserted_at_point]: an index above
    [size()] appends the code at the top level, index 0 puts it first, and
    a negative index returns the block unchanged. *)
Theorem with_code_inserted_at_point_edges (T : list Atom) (index : Z) :
  (size T < index -> with_code_inserted_at_point T code index = T ++ [code])
  /\ (index = 0 -> with_code_inserted_at_point T code index = code :: T)
  /\ (index < 0 -> with_code_inserted_at_point T code index = T).
Proof.
  pose proof (size_nonneg T) as Hs. unfold with_code_inserted_at_point.
  split; [|split]; intros Hi.
  - now replace (size T <? index) with true by (symmetry; apply Z.ltb_lt; lia).
  - replace (size T <? index) with false by (symmetry; apply Z.ltb_ge; lia).
    subst index. destruct T; reflexivity.
  - replace (size T <? index) with false by (symmetry; apply Z.ltb_ge; lia).
    now rewrite attempt_code_insert_negative.
Qed.

Lemma with_code_inserted_at_point_inserted (T : list Atom) (index : Z) :
  0 <= index -> inserted_into code T (with_code_inserted_at_point T code index).
Proof.
  intros Hi. unfold with_code_inserted_at_point.
  destruct (size T <? index) eqn:E.
  - rewrite <- (app_nil_r (T ++ [code])), <- app_assoc.
    rewrite <- (app_nil_r T) at 1. apply inserted_into_middle.
  - apply Z.ltb_ge in E.
    destruct (attempt_code_insert_ok (CodeBlock T) index Hi) as [Hins Hsucc].
    apply Hins, Hsucc, E.
Qed.


(** X6.  For an index that is not negative, the inserted code is a point
    of the new block: [code_at_point] reads it back at some index from 1
    to the size of the new block. *)
Theorem with_code_inserted_at_point_readable (T : list Atom) (index : Z) :
  0 <= index ->
  exists ndx,
    1 <= ndx <= size (with_code_inserted_at_point T code index)
    /\ code_at_point (with_code_inserted_at_point T code index) ndx = Some code.
Proof.
  intros Hi.
  destruct (with_code_inserted_at_point_inserted T index Hi) as [_ Hin].
  apply In_nth_error in Hin as [n Hn].
  exists (Z.of_nat n + 1).
  assert (Hlt : (n < length (List.flat_map points
                               (with_code_inserted_at_point T code index)))%nat)
    by (apply nth_error_Some; congruence).
  apply Nat2Z.inj_lt in Hlt. rewrite length_flat_map_points in Hlt.
  split; [lia|].
  rewrite code_at_point_points.
  replace (0 <=? Z.of_nat n + 1) with true by (symmetry; apply Z.leb_le; lia).
  replace (Z.to_nat (Z.of_nat n + 1)) with (S n) by lia. exact Hn.
Qed.

Lemma size_leaves (l : list Atom) :
  Forall (fun a => is_CodeBlock a = false) l -> size l = Z.of_nat (length l).
Proof.
  induction 1 as [|a l Ha _ IH]; [reflexivity|].
  rewrite size_cons, IH. simpl length. destruct a; try discriminate; lia.
Qed.

Lemma flat_map_points_leaves (l : list Atom) :
  Forall (fun a => is_CodeBlock a = false) l -> List.flat_map points l = l.
Proof.
  induction 1 as [|a l Ha _ IH]; [reflexivity|].
  simpl. rewrite IH. destruct a; try discriminate; reflexivity.
Qed.

Lemma attempt_code_insert_loop_leaves (els : list Atom) :
  forall l, Forall (fun a => is_CodeBlock a = false) l ->
    forall pre i, els = pre ++ l -> 0 <= i <= Z.of_nat (length l) ->
      attempt_code_insert_loop els code (length pre) l i
      = (true, firstn (length pre + Z.to_nat i) els ++ [code]
               ++ skipn (length pre + Z.to_nat i) els).
Proof.
  induction 1 as [|el rest Hel _ IHrest]; intros pre i Hels Hi.
  - simpl in Hi. assert (i = 0) by lia. subst i.
    rewrite attempt_code_insert_loop_nil. simpl.
    rewrite app_nil_r in Hels. subst pre.
    now rewrite Nat.add_0_r, firstn_all, skipn_all.
  - rewrite attempt_code_insert_loop_cons. destruct (i =? 0) eqn:E.
    + apply Z.eqb_eq in E. subst i. now rewrite Nat.add_0_r.
    + apply Z.eqb_neq in E. simpl length in Hi.
      replace (S (length pre)) with (length (pre ++ [el]))
        by (rewrite length_app; simpl; lia).
      destruct el; try discriminate;
        (rewrite IHrest; [|rewrite <- app_assoc; exact Hels|lia]);
        rewrite length_app; simpl length;
        replace (length pre + 1 + Z.to_nat (i - 1))%nat
          with (length pre + Z.to_nat i)%nat by lia;
        reflexivity.
Qed.

(** X7.  In a block of leaves the index is a list position: for an index
    that is not negative, [with_code_inserted_at_point] puts the code
    before the element at that position, or last when there is none, and
    [code_at_point] then finds it at the index after it. *)
Theorem with_code_inserted_at_point_leaves (T : list Atom) (index : Z) :
  Forall (fun a => is_CodeBlock a = false) T ->
  0 <= index ->
  with_code_inserted_at_point T code index
  = firstn (Z.to_nat index) T ++ code :: skipn (Z.to_nat index) T
  /\ (index <= Z.of_nat (length T) ->
      code_at_point (with_code_inserted_at_point T code index) (index + 1)
      = Some code).
Proof.
  intros Hleaves Hi.
  assert (Hres : with_code_inserted_at_point T code index
                 = firstn (Z.to_nat index) T ++ code :: skipn (Z.to_nat index) T).
  { unfold with_code_inserted_at_point. rewrite (size_leaves T Hleaves).
    destruct (Z.of_nat (length T) <? index) eqn:E.
    - apply Z.ltb_lt in E. rewrite firstn_all2, skipn_all2 by lia. reflexivity.
    - apply Z.ltb_ge in E. rewrite attempt_code_insert_block.
      change 0%nat with (length (@nil Atom)) at 1.
      rewrite (attempt_code_insert_loop_leaves T T Hleaves [] index eq_refl);
        [reflexivity|lia]. }
  split; [exact Hres|]. intros Hle. rewrite Hres, code_at_point_points.
  replace (0 <=? index + 1) with true by (symmetry; apply Z.leb_le; lia).
  replace (Z.to_nat (index + 1)) with (S (Z.to_nat index)) by lia.
  simpl points. simpl nth_error. rewrite flat_map_app.
  rewrite flat_map_points_leaves by (apply Forall_take; exact Hleaves).
  rewrite nth_error_app2 by (rewrite length_take; lia).
  rewrite length_take.
  replace (Z.to_nat index - Z.to_nat index `min` length T)%nat with 0%nat by lia.
  destruct code; reflexivity.
Qed.

End AtomsInsertion.

(** ** Properties of the instruction registry *)

Section RegistryFacts.

Context {Instruction : Type}.
Variable name : Instruction -> string.

Lemma dict_register_lookup (i : Instruction) (reg : gmap string Instruction) k :
  fst (RegistryDict.register_instruction name i reg) !! k
  = match reg !! k with
    | Some j => Some j
    | None => if String.eqb (name i) k then Some i else None
    end.
Proof.
  unfold RegistryDict.register_instruction.
  destruct (reg !! name i) as [j|] eqn:Hi; simpl.
  - destruct (reg !! k) as [j'|] eqn:Hk; [reflexivity|].
    destruct (String.eqb (name i) k) eqn:E; [|reflexivity].
    apply String.eqb_eq in E. congruence.
  - destruct (String.eqb (name i) k) eqn:E.
    + apply String.eqb_eq in E. subst k. now rewrite lookup_insert_eq, Hi.
    + apply String.eqb_neq in E. rewrite lookup_insert_ne by exact E.
      now destruct (reg !! k).
Qed.

Lemma dict_register_all_lookup (l : list Instruction) :
  forall (reg : gmap string Instruction) k,
    RegistryDict.register_all name l reg !! k
    = match reg !! k with
      | Some j => Some j
      | None => find_named name k l
      end.
Proof.
  unfold RegistryDict.register_all.
  induction l as [|i l IH]; intros reg k; simpl; [now destruct (reg !! k)|].
  rewrite IH, dict_register_lookup.
  destruct (reg !! k); [reflexivity|]. now destruct (String.eqb (name i) k).
Qed.

Lemma get_underscore (n : string) (reg : gmap string Instruction) :
  RegistryDict.get_instruction_by_name (String "_" n) reg
  = match reg !! n with
    | Some i => inr i
    | None =>
        inl (RegistryDict.Exception
               ("No registered instruction with name: " ++ n)%string)
    end.
Proof. reflexivity. Qed.

Lemma get_plain (n : string) (reg : gmap string Instruction) :
  n <> EmptyString -> (forall rest, n <> String "_" rest) ->
  RegistryDict.get_instruction_by_name n reg
  = match reg !! n with
    | Some i => inr i
    | None =>
        inl (RegistryDict.Exception
               ("No registered instruction with name: " ++ n)%string)
    end.
Proof.
  intros Hne Hun. destruct n as [|c rest]; [contradiction|].
  unfold RegistryDict.get_instruction_by_name.
  destruct (Ascii.eqb c "_") eqn:E; [|reflexivity].
  apply Ascii.eqb_eq in E. subst c. now destruct (Hun rest).
Qed.

(** X23.  Registering and looking up: after [register_instruction], the
    name of the instruction with one underscore before it finds the
    instruction registered under that name, the new one or the one that
    was there before; the name itself finds it too, unless it is empty or
    starts with an underscore. *)
Theorem register_then_get (i : Instruction) (reg : gmap string Instruction) :
  let found := match reg !! name i with Some j => j | None => i end in
  RegistryDict.get_instruction_by_name (String "_" (name i))
    (fst (RegistryDict.register_instruction name i reg)) = inr found
  /\ (name i <> EmptyString -> (forall rest, name i <> String "_" rest) ->
      RegistryDict.get_instruction_by_name (name i)
        (fst (RegistryDict.register_instruction name i reg)) = inr found).
Proof.
  assert (H : fst (RegistryDict.register_instruction name i reg) !! name i
              = Some (match reg !! name i with Some j => j | None => i end)).
  { rewrite dict_register_lookup, String.eqb_refl. now destruct (reg !! name i). }
  split.
  - now rewrite get_underscore, H.
  - intros Hne Hun. now rewrite get_plain, H.
Qed.

(** X24.  The first registration of a name wins: after the instructions
    of a list are registered in order in the empty dictionary, a name maps
    to the first instruction of the list with that name, and to nothing
    when there is none. *)
Theorem register_all_first_wins (l : list Instruction) (k : string) :
  RegistryDict.register_all name l ∅ !! k = find_named name k l.
Proof. now rewrite dict_register_all_lookup, lookup_empty. Qed.

(** X25.  Exactly one leading underscore is dropped: for a name that is
    not empty and does not start with an underscore, looking up the name
    with an underscore before it gives what looking up the name gives, the
    instruction or the error. *)
Theorem get_instruction_by_name_underscore (n : string)
    (reg : gmap string Instruction) :
  n <> EmptyString -> (forall rest, n <> String "_" rest) ->
  RegistryDict.get_instruction_by_name (String "_" n) reg
  = RegistryDict.get_instruction_by_name n reg.
Proof. intros Hne Hun. now rewrite get_underscore, get_plain. Qed.

Lemma string_cons_neq (c : ascii) (s : string) : s <> String c s.
Proof.
  induction s as [|a s IH]; [discriminate|]. intros [= -> H]. now apply IH.
Qed.

(** X26.  Names that cannot be looked up as they are: in a registry that
    holds every instruction under its name, looking up the empty name
    raises [IndexError] even if an instruction has that name, and looking
    up a name that starts with an underscore never returns an instruction
    of that name. *)
Theorem get_instruction_by_name_unreachable (reg : gmap string Instruction) :
  RegistryDict.keyed_by_name name reg ->
  RegistryDict.get_instruction_by_name EmptyString reg
  = inl RegistryDict.StringIndexError
  /\ (forall rest i,
        RegistryDict.get_instruction_by_name (String "_" rest) reg = inr i ->
        name i <> String "_" rest).
Proof.
  intros Hkeyed. split; [reflexivity|]. intros rest i. rewrite get_underscore.
  destruct (reg !! rest) as [j|] eqn:Hj; [|discriminate].
  intros [= <-]. rewrite (Hkeyed rest j Hj). apply string_cons_neq.
Qed.

(** X27.  [register_instruction] keeps the registry keyed by name, and it
    never removes or replaces an entry: a lookup that found an instruction
    before finds the same one after. *)
Theorem register_instruction_keeps (i : Instruction)
    (reg : gmap string Instruction) :
  (RegistryDict.keyed_by_name name reg ->
   RegistryDict.keyed_by_name name
     (fst (RegistryDict.register_instruction name i reg)))
  /\ (forall n j,
        RegistryDict.get_instruction_by_name n reg = inr j ->
        RegistryDict.get_instruction_by_name n
          (fst (RegistryDict.register_instruction name i reg)) = inr j).
Proof.
  split.
  - intros Hkeyed k j. rewrite dict_register_lookup.
    destruct (reg !! k) as [j'|] eqn:Hk.
    + intros [= <-]. now apply Hkeyed.
    + destruct (String.eqb (name i) k) eqn:E; [|discriminate].
      intros [= <-]. now apply String.eqb_eq.
  - intros n j. unfold RegistryDict.get_instruction_by_name.
    destruct n as [|c rest]; [discriminate|].
    rewrite dict_register_lookup.
    destruct (reg !! (if Ascii.eqb c "_" then rest else String c rest));
      [auto|discriminate].
Qed.

Lemma find_named_app (k : string) (l1 l2 : list Instruction) :
  find_named name k (l1 ++ l2)
  = match find_named name k l1 with
    | Some j => Some j
    | None => find_named name k l2
    end.
Proof.
  unfold find_named. induction l1 as [|a l1 IH]; simpl; [reflexivity|].
  now destruct (String.eqb (name a) k).
Qed.

Lemma filter_named_find (k : string) (l : list Instruction) :
  (0 <? length (List.filter (fun x => String.eqb (name x) k) l))%nat
  = match find_named name k l with Some _ => true | None => false end.
Proof.
  unfold find_named. induction l as [|a l IH]; simpl; [reflexivity|].
  destruct (String.eqb (name a) k); [reflexivity|exact IH].
Qed.

Lemma find_named_In (k : string) (l : list Instruction) :
  find_named name k l = None <-> ~ In k (List.map name l).
Proof.
  unfold find_named. induction l as [|a l IH]; simpl; [tauto|].
  destruct (String.eqb (name a) k) eqn:E.
  - apply String.eqb_eq in E. split; [discriminate|]. tauto.
  - apply String.eqb_neq in E. rewrite IH. tauto.
Qed.

Lemma list_register_cases (i : Instruction) (l : list Instruction) :
  RegistryList.register_instruction name i l
  = match find_named name (name i) l with
    | Some _ => (l, Some (duplicate_warning (name i)))
    | None => (l ++ [i], None)
    end.
Proof.
  unfold RegistryList.register_instruction. rewrite filter_named_find.
  now destruct (find_named name (name i) l).
Qed.

(** X28.  The list registry: [register_instruction] appends an
    instruction whose name is new and leaves the list as it is, with a
    warning, when the name is taken; names that were distinct stay
    distinct. *)
Theorem list_register_instruction_distinct (i : Instruction)
    (l : list Instruction) :
  (In (name i) (List.map name l) ->
   RegistryList.register_instruction name i l
   = (l, Some (duplicate_warning (name i))))
  /\ (~ In (name i) (List.map name l) ->
      RegistryList.register_instruction name i l = (l ++ [i], None))
  /\ (List.NoDup (List.map name l) ->
      List.NoDup (List.map name (fst (RegistryList.register_instruction name i l)))).
Proof.
  rewrite list_register_cases.
  destruct (find_named name (name i) l) as [j|] eqn:E.
  - assert (Hin : In (name i) (List.map name l)).
    { destruct (In_dec string_dec (name i) (List.map name l)) as [H|H];
        [exact H|]. apply find_named_In in H. congruence. }
    repeat split; auto. intros; contradiction.
  - apply find_named_In in E. repeat split; [intros; contradiction|].
    intros Hnd. simpl. rewrite List.map_app. simpl.
    apply List.NoDup_app; repeat split; auto.
    + repeat constructor. simpl. tauto.
    + intros x Hx [<-|[]]. contradiction.
Qed.

Lemma registries_agree_step (l : list Instruction) :
  forall (registered : list Instruction) (reg : gmap string Instruction),
    (forall k, reg !! k = find_named name k registered) ->
    forall k,
      RegistryDict.register_all name l reg !! k
      = find_named name k (RegistryList.register_all name l registered).
Proof.
  unfold RegistryDict.register_all, RegistryList.register_all.
  induction l as [|i l IH]; intros registered reg Hrel k; simpl; [apply Hrel|].
  apply IH. clear k. intros k. rewrite dict_register_lookup, list_register_cases.
  destruct (find_named name (name i) registered) as [j|] eqn:E; simpl.
  - rewrite <- Hrel. destruct (reg !! k) as [j'|] eqn:Hk; [reflexivity|].
    destruct (String.eqb (name i) k) eqn:Ek; [|reflexivity].
    apply String.eqb_eq in Ek. subst k. rewrite Hrel in Hk. congruence.
  - rewrite find_named_app, <- Hrel. destruct (reg !! k); [reflexivity|].
    unfold find_named. simpl. now destruct (String.eqb (name i) k).
Qed.

(** X29.  The two versions of the registry agree: after the same
    instructions are registered in the same order, starting from the
    empty registries, the dictionary maps a name to the first instruction
    of that name in the list registry, and to nothing when the list has
    none. *)
Theorem registries_agree (l : list Instruction) (k : string) :
  RegistryDict.register_all name l ∅ !! k
  = find_named name k (RegistryList.register_all name l []).
Proof. apply registries_agree_step. intros k'. apply lookup_empty. Qed.

End RegistryFacts.


(** ** More runs on the sample inputs *)

Lemma depth_is_nesting_witness :
  nested_block <> []
  /\ Atoms.depth nested_block = 2
  /\ Atoms.depth nested_block
     = 1 + fold_right Z.max 0
             (List.map
                (fun el => match el with
                           | Atoms.CodeBlock c => Atoms.depth c
                           | _ => 0
                           end) nested_block).
Proof.
  assert (Hne : nested_block <> []) by discriminate.
  split; [exact Hne|]. split; [reflexivity|].
  exact (proj2 (proj2 (depth_is_nesting nested_block)) Hne).
Defined.

Lemma with_code_inserted_at_point_edges_witness :
  Atoms.size nested_block < 7
  /\ Atoms.with_code_inserted_at_point nested_block atom_c 7
     = nested_block ++ [atom_c]
  /\ -1 < 0
  /\ Atoms.with_code_inserted_at_point nested_block atom_c (-1) = nested_block.
Proof.
  assert (H1 : Atoms.size nested_block < 7) by (vm_compute; reflexivity).
  assert (H2 : -1 < 0) by lia.
  split; [exact H1|]. split.
  - exact (proj1 (with_code_inserted_at_point_edges atom_c nested_block 7) H1).
  - split; [exact H2|].
    exact (proj2 (proj2 (with_code_inserted_at_point_edges atom_c nested_block (-1))) H2).
Defined.


Lemma with_code_inserted_at_point_readable_witness :
  0 <= 2
  /\ exists ndx,
       1 <= ndx <= Atoms.size (Atoms.with_code_inserted_at_point nested_block atom_c 2)
       /\ Atoms.code_at_point
            (Atoms.with_code_inserted_at_point nested_block atom_c 2) ndx
          = Some atom_c.
Proof.
  assert (H : 0 <= 2) by lia.
  split; [exact H|].
  exact (with_code_inserted_at_point_readable atom_c nested_block 2 H).
Defined.

Lemma with_code_inserted_at_point_leaves_witness :
  Forall (fun a => Atoms.is_CodeBlock a = false) [atom_a; atom_b]
  /\ 0 <= 1
  /\ Atoms.with_code_inserted_at_point [atom_a; atom_b] atom_c 1
     = [atom_a; atom_c; atom_b]
  /\ Atoms.code_at_point
       (Atoms.with_code_inserted_at_point [atom_a; atom_b] atom_c 1) (1 + 1)
     = Some atom_c.
Proof.
  assert (Hl : Forall (fun a => Atoms.is_CodeBlock a = false) [atom_a; atom_b])
    by (repeat constructor).
  assert (H : 0 <= 1) by lia.
  destruct (with_code_inserted_at_point_leaves atom_c [atom_a; atom_b] 1 Hl H)
    as [Hres Hread].
  split; [exact Hl|]. split; [exact H|]. split; [exact Hres|].
  apply Hread. simpl. lia.
Defined.

Lemma alternation_genes_from_parents_witness :
  alternation 10 sample_parent_1 sample_parent_2 (sample_params 3 (1 # 2))
    jump_script
  = Done [int_gene 1; int_gene 9]
      {| script_random := [9 # 10; 9 # 10; 9 # 10; 1 # 10; 9 # 10];
         script_below := [0%nat]; script_gauss := [1 # 1] |}
  /\ Forall (fun gene => In gene sample_parent_1 \/ In gene sample_parent_2)
       [int_gene 1; int_gene 9].
Proof.
  assert (Hrun : alternation 10 sample_parent_1 sample_parent_2
                   (sample_params 3 (1 # 2)) jump_script
                 = Done [int_gene 1; int_gene 9]
                     {| script_random := [9 # 10; 9 # 10; 9 # 10; 1 # 10; 9 # 10];
                        script_below := [0%nat]; script_gauss := [1 # 1] |})
    by reflexivity.
  split; [exact Hrun|].
  exact (alternation_genes_from_parents 10 sample_parent_1 sample_parent_2
           (sample_params 3 (1 # 2)) jump_script _ _ Hrun).
Defined.

Lemma alternation_empty_witness :
  (max_points (sample_params 0 (1 # 2)) <= 0
   \/ (if fst (random_choice true [false] jump_script)
       then sample_parent_1 else sample_parent_2) = [])
  /\ alternation 0 sample_parent_1 sample_parent_2 (sample_params 0 (1 # 2))
       jump_script
     = Done [] (snd (random_choice true [false] jump_script)).
Proof.
  assert (H : max_points (sample_params 0 (1 # 2)) <= 0
              \/ (if fst (random_choice true [false] jump_script)
                  then sample_parent_1 else sample_parent_2) = [])
    by (left; simpl; lia).
  split; [exact H|].
  exact (alternation_empty 0 sample_parent_1 sample_parent_2
           (sample_params 0 (1 # 2)) jump_script H).
Defined.

Lemma uniform_mutation_rate_zero_witness :
  (uniform_mutation_rate quiet_params == 0)%Q
  /\ fst (uniform_mutation script_random_plush_instruction sample_parent_1
            quiet_params jump_script)
     = sample_parent_1.
Proof.
  assert (H : (uniform_mutation_rate quiet_params == 0)%Q) by reflexivity.
  split; [exact H|].
  exact (uniform_mutation_rate_zero script_random_plush_instruction
           sample_parent_1 quiet_params jump_script H).
Defined.

Lemma uniform_close_mutation_unchanged_witness :
  ~ In "_close"%string (epigenetic_markers quiet_params)
  /\ uniform_close_mutation sample_parent_1 quiet_params jump_script
     = (sample_parent_1, jump_script).
Proof.
  assert (H : ~ In "_close"%string (epigenetic_markers quiet_params))
    by (simpl; tauto).
  split; [exact H|].
  exact (proj1 (uniform_close_mutation_unchanged sample_parent_1 quiet_params
                  jump_script) H).
Defined.

Lemma uniform_close_mutation_decrements_witness :
  In "_close"%string (epigenetic_markers (sample_params 5 0))
  /\ (uniform_close_mutation_rate (sample_params 5 0) == 1)%Q
  /\ (close_increment_rate (sample_params 5 0) == 0)%Q
  /\ fst (uniform_close_mutation
            [make_plush_gene (PyInt 1) true 3 false; int_gene 2]
            (sample_params 5 0) jump_script)
     = [make_plush_gene (PyInt 1) true 2 false; int_gene 2].
Proof.
  assert (H1 : In "_close"%string (epigenetic_markers (sample_params 5 0)))
    by (left; reflexivity).
  assert (H2 : (uniform_close_mutation_rate (sample_params 5 0) == 1)%Q)
    by reflexivity.
  assert (H3 : (close_increment_rate (sample_params 5 0) == 0)%Q) by reflexivity.
  repeat (split; [assumption|]).
  exact (uniform_close_mutation_decrements
           [make_plush_gene (PyInt 1) true 3 false; int_gene 2]
           (sample_params 5 0) jump_script H1 H2 H3).
Defined.

Lemma constant_mutator_keeps_markers_witness :
  plush_gene_is_literal (make_plush_gene (PyStr "ab") true 2 true) = true
  /\ plush_gene_get_closes
       (fst (constant_mutator script_random_plush_instruction
               (make_plush_gene (PyStr "ab") true 2 true) (sample_params 5 0)
               jump_script))
     = 2
  /\ same_type (PyStr "ab")
       (plush_gene_get_instruction
          (fst (constant_mutator script_random_plush_instruction
                  (make_plush_gene (PyStr "ab") true 2 true) (sample_params 5 0)
                  jump_script)))
     = true.
Proof.
  assert (H : plush_gene_is_literal (make_plush_gene (PyStr "ab") true 2 true)
              = true) by reflexivity.
  destruct (proj1 (constant_mutator_keeps_markers script_random_plush_instruction
                     (make_plush_gene (PyStr "ab") true 2 true)
                     (sample_params 5 0) jump_script) H)
    as (_ & Hc & _ & Hty).
  split; [exact H|]. split; [exact Hc|]. exact (Hty I).
Defined.

Lemma produce_child_mutations_keep_length_witness :
  Forall (fun op => op = "uniform_mutation"%string
                    \/ op = "uniform_close_mutation"%string)
    (split "uniform_mutation & uniform_close_mutation" " & ")
  /\ exists child g',
       produce_child script_selection script_random_plush_instruction 0
         sample_population "uniform_mutation & uniform_close_mutation"
         (sample_params 5 0) jump_script
       = Done child g'
       /\ length (get_genome child)
          = length (get_genome
                      (fst (script_selection sample_population
                              (sample_params 5 0) jump_script))).
Proof.
  assert (H : Forall (fun op => op = "uniform_mutation"%string
                                \/ op = "uniform_close_mutation"%string)
                (split "uniform_mutation & uniform_close_mutation" " & ")).
  { change (split "uniform_mutation & uniform_close_mutation" " & ")
      with ["uniform_mutation"%string; "uniform_close_mutation"%string].
    apply List.Forall_cons; [left; reflexivity|].
    apply List.Forall_cons; [right; reflexivity|]. apply List.Forall_nil. }
  split; [exact H|].
  exact (produce_child_mutations_keep_length script_selection
           script_random_plush_instruction 0 sample_population
           "uniform_mutation & uniform_close_mutation" (sample_params 5 0)
           jump_script H).
Defined.

Lemma produce_n_children_count_witness :
  (exists children g',
     produce_n_children script_selection script_random_plush_instruction 10
       3 sample_population "alternation & uniform_mutation"
       (sample_params 5 (1 # 2)) jump_script
     = Done children g'
     /\ length children = 3%nat)
  /\ (-2 <= 0
      /\ produce_n_children script_selection script_random_plush_instruction 10
           (-2) sample_population "alternation" (sample_params 5 0) jump_script
         = Done [] jump_script).
Proof.
  split.
  - destruct (produce_n_children script_selection script_random_plush_instruction
                10 3 sample_population "alternation & uniform_mutation"
                (sample_params 5 (1 # 2)) jump_script)
      as [children g'|e|] eqn:E.
    + exists children, g'. split; [reflexivity|].
      exact (proj1 (produce_n_children_count script_selection
                      script_random_plush_instruction 10 3 sample_population
                      "alternation & uniform_mutation" (sample_params 5 (1 # 2))
                      jump_script) children g' E).
    + exfalso. vm_compute in E. discriminate E.
    + exfalso. vm_compute in E. discriminate E.
  - assert (H : -2 <= 0) by lia.
    split; [exact H|].
    exact (proj2 (produce_n_children_count script_selection
                    script_random_plush_instruction 10 (-2) sample_population
                    "alternation" (sample_params 5 0) jump_script) H).
Defined.

Lemma genetics_parallel_one_cpu_witness :
  parallel_genetics (scheduler_params sample_probabilities 100 true 1) = true
  /\ genetics script_selection script_random_plush_instruction 10
       sample_population (scheduler_params sample_probabilities 100 true 1)
       jump_script
     = Raised ZeroDivisionError.
Proof.
  assert (H : parallel_genetics (scheduler_params sample_probabilities 100 true 1)
              = true) by reflexivity.
  split; [exact H|].
  exact (genetics_parallel_one_cpu script_selection
           script_random_plush_instruction 10 sample_population
           (scheduler_params sample_probabilities 100 true 1) jump_script
           H (or_introl eq_refl) eq_refl).
Defined.

Lemma genetics_parallel_never_returns_witness :
  population_size (scheduler_params sample_probabilities 2 true 4)
  < ncpus (pool (scheduler_params sample_probabilities 2 true 4)) - 1
  /\ num_offspring_each_gen_op (scheduler_params sample_probabilities 2 true 4)
     !! "alternation"%string = Some 1
  /\ genetics script_selection script_random_plush_instruction 1000
       sample_population (scheduler_params sample_probabilities 2 true 4)
       jump_script
     = OutOfFuel.
Proof.
  assert (H1 : population_size (scheduler_params sample_probabilities 2 true 4)
               < ncpus (pool (scheduler_params sample_probabilities 2 true 4)) - 1)
    by (simpl; lia).
  assert (H2 : num_offspring_each_gen_op
                 (scheduler_params sample_probabilities 2 true 4)
               !! "alternation"%string = Some 1) by (vm_compute; reflexivity).
  split; [exact H1|]. split; [exact H2|].
  apply (genetics_parallel_never_returns script_selection
           script_random_plush_instruction 1000 sample_population
           (scheduler_params sample_probabilities 2 true 4) jump_script
           eq_refl (or_introl eq_refl)); [simpl; lia|exact H1|].
  exists "alternation"%string, 1. split; [exact H2|lia].
Defined.

(** The probabilities [{alternation: 0.425, uniform_mutation: 0.575}] for
    a population of 100 in parallel mode on 4 cpus: 42 + 57 = 99 children,
    the float products being 42.5 and 57.49999999999999. *)
Lemma genetics_parallel_count_witness :
  ncpus (pool (scheduler_params
                 {[ "alternation"%string := 425 # 1000;
                    "uniform_mutation"%string := 575 # 1000 ]} 100 true 4)) - 1
  <= population_size
       (scheduler_params
          {[ "alternation"%string := 425 # 1000;
             "uniform_mutation"%string := 575 # 1000 ]} 100 true 4)
  /\ exists offspring g',
       genetics script_selection script_random_plush_instruction 10
         sample_population
         (scheduler_params
            {[ "alternation"%string := 425 # 1000;
               "uniform_mutation"%string := 575 # 1000 ]} 100 true 4)
         jump_script
       = Done offspring g'
       /\ length offspring = 99%nat.
Proof.
  set (ep := scheduler_params
               {[ "alternation"%string := 425 # 1000;
                  "uniform_mutation"%string := 575 # 1000 ]} 100 true 4).
  assert (H1 : ncpus (pool ep) - 1 <= population_size ep) by (simpl; lia).
  split; [exact H1|].
  destruct (genetics script_selection script_random_plush_instruction 10
              sample_population ep jump_script) as [offspring g'|e|] eqn:E.
  - exists offspring, g'. split; [reflexivity|].
    apply Nat2Z.inj.
    rewrite (genetics_parallel_count script_selection
               script_random_plush_instruction 10 sample_population
               ep jump_script
               offspring g' eq_refl (or_introl eq_refl)); [vm_compute; reflexivity
      |simpl; lia|exact H1| |exact E].
    intros k p Hk. unfold ep, scheduler_params in Hk. simpl in Hk.
    apply lookup_insert_Some in Hk as [[_ <-]|[_ Hk]]; [discriminate|].
    apply lookup_singleton_Some in Hk as [_ <-]. discriminate.
  - exfalso. vm_compute in E. discriminate E.
  - exfalso. vm_compute in E. discriminate E.
Defined.

Lemma genetics_sequential_unknown_operator_witness :
  num_offspring_each_gen_op
    (scheduler_params {[ "alternation & crossover"%string := 1 # 1 ]} 10 false 4)
  !! "alternation & crossover"%string = Some 10
  /\ exists op,
       genetics script_selection script_random_plush_instruction 10
         sample_population
         (scheduler_params {[ "alternation & crossover"%string := 1 # 1 ]} 10 false 4)
         jump_script
       = Raised (UnknownGeneticOperator op)
       /\ op <> "alternation"%string /\ op <> "uniform_mutation"%string
       /\ op <> "uniform_close_mutation"%string.
Proof.
  assert (H : num_offspring_each_gen_op
                (scheduler_params {[ "alternation & crossover"%string := 1 # 1 ]}
                   10 false 4)
              !! "alternation & crossover"%string = Some 10)
    by (vm_compute; reflexivity).
  split; [exact H|].
  apply (genetics_sequential_unknown_operator script_selection
           script_random_plush_instruction 10 sample_population
           (scheduler_params {[ "alternation & crossover"%string := 1 # 1 ]}
              10 false 4) jump_script (or_introl eq_refl)).
  - exists "alternation & crossover"%string, 10.
    split; [exact H|]. split; [lia|]. vm_compute. discriminate.
  - vm_compute. discriminate.
Defined.

Lemma register_then_get_witness :
  sample_name instruction_add <> EmptyString
  /\ (forall rest, sample_name instruction_add <> String "_" rest)
  /\ RegistryDict.get_instruction_by_name "add"
       (fst (RegistryDict.register_instruction sample_name instruction_add ∅))
     = inr instruction_add.
Proof.
  assert (H1 : sample_name instruction_add <> EmptyString) by discriminate.
  assert (H2 : forall rest, sample_name instruction_add <> String "_" rest)
    by (intros rest; discriminate).
  split; [exact H1|]. split; [exact H2|].
  exact (proj2 (register_then_get sample_name instruction_add ∅) H1 H2).
Defined.

Lemma get_instruction_by_name_underscore_witness :
  "add"%string <> EmptyString
  /\ (forall rest, "add"%string <> String "_" rest)
  /\ RegistryDict.get_instruction_by_name "_add"
       (RegistryDict.register_all sample_name
          [instruction_add; instruction_add_again] ∅)
     = RegistryDict.get_instruction_by_name "add"
         (RegistryDict.register_all sample_name
            [instruction_add; instruction_add_again] ∅).
Proof.
  assert (H1 : "add"%string <> EmptyString) by discriminate.
  assert (H2 : forall rest, "add"%string <> String "_" rest)
    by (intros rest; discriminate).
  split; [exact H1|]. split; [exact H2|].
  exact (get_instruction_by_name_underscore "add"
           (RegistryDict.register_all sample_name
              [instruction_add; instruction_add_again] ∅) H1 H2).
Defined.

Lemma get_instruction_by_name_unreachable_witness :
  RegistryDict.keyed_by_name sample_name
    {[ "_dup"%string := instruction_underscore ]}
  /\ RegistryDict.get_instruction_by_name ""
       {[ "_dup"%string := instruction_underscore ]}
     = inl RegistryDict.StringIndexError
  /\ RegistryDict.get_instruction_by_name "_dup"
       {[ "_dup"%string := instruction_underscore ]}
     = inl (RegistryDict.Exception "No registered instruction with name: dup").
Proof.
  assert (H : RegistryDict.keyed_by_name sample_name
                {[ "_dup"%string := instruction_underscore ]}).
  { intros k i Hk. apply lookup_singleton_Some in Hk as [<- <-]. reflexivity. }
  split; [exact H|]. split; [|reflexivity].
  exact (proj1 (get_instruction_by_name_unreachable sample_name _ H)).
Defined.

Lemma register_instruction_keeps_witness :
  RegistryDict.get_instruction_by_name "add"
    (fst (RegistryDict.register_instruction sample_name instruction_add ∅))
  = inr instruction_add
  /\ RegistryDict.get_instruction_by_name "add"
       (fst (RegistryDict.register_instruction sample_name instruction_add_again
               (fst (RegistryDict.register_instruction sample_name
                       instruction_add ∅))))
     = inr instruction_add.
Proof.
  assert (H : RegistryDict.get_instruction_by_name "add"
                (fst (RegistryDict.register_instruction sample_name
                        instruction_add ∅))
              = inr instruction_add) by reflexivity.
  split; [exact H|].
  exact (proj2 (register_instruction_keeps sample_name instruction_add_again
                  (fst (RegistryDict.register_instruction sample_name
                          instruction_add ∅)))
           "add"%string instruction_add H).
Defined.

Lemma list_register_instruction_distinct_witness :
  In (sample_name instruction_add_again)
    (List.map sample_name [instruction_add; instruction_underscore])
  /\ RegistryList.register_instruction sample_name instruction_add_again
       [instruction_add; instruction_underscore]
     = ([instruction_add; instruction_underscore],
        Some "Duplicate instructions registered: add. Duplicate ignored."%string).
Proof.
  assert (H : In (sample_name instruction_add_again)
                (List.map sample_name [instruction_add; instruction_underscore]))
    by (left; reflexivity).
  split; [exact H|].
  exact (proj1 (list_register_instruction_distinct sample_name
                  instruction_add_again
                  [instruction_add; instruction_underscore]) H).
Defined.
